(** * icalsplitter: the parse / fold / write / split core

    A shallow embedding of [src/js/ical-parser.js] and
    [src/js/ical-writer.js], and the properties of the specification
    that hold (or fail) on it.

    JavaScript strings are sequences of UTF-16 code units; they are
    modelled as lists of code units ([N]), so that [length], [substring]
    and [charCodeAt] count the same units as the source does.  A loop
    that may fail to terminate is modelled with fuel, and the function
    built on it returns [None] exactly when the loop never exits (this
    is proved, see [foldLoop_adequate]); [write] and [splitBySize], which
    call it, return [None] in that case as well.

    Part I holds the embedding, the predicates the statements are made
    of, and the sample inputs; Part II the lemmas and theorems. *)

From Stdlib Require Import ZArith NArith Lia String Ascii.
From stdpp Require Import base tactics option list numbers countable gmap
  sorting.

Open Scope nat_scope.

(** * Part I: the embedding *)

(** ** JavaScript strings *)

Definition jsstring := list N.

(** String literals of the source: the code units of an ASCII literal. *)
Definition lit (s : string) : jsstring :=
  N_of_ascii <$> list_ascii_of_string s.

Definition CR : N := 13.
Definition LF : N := 10.
Definition SPACE : N := 32.
Definition TAB : N := 9.
Definition COLON : N := 58.
Definition SEMICOLON : N := 59.

(** The line-break sequence ['\r\n']. *)
Definition CRLF : jsstring := [CR; LF].

(** [String.prototype.indexOf] with a one-unit needle; [None] is [-1]. *)
Fixpoint indexOf (c : N) (s : jsstring) : option nat :=
  match s with
  | [] => None
  | d :: s' => if (d =? c)%N then Some 0 else S <$> indexOf c s'
  end.

(** [s.substring(a, b)] for [a <= b]; [s.substring(a)] is [drop a s]. *)
Definition substring (a b : nat) (s : jsstring) : jsstring :=
  take (b - a) (drop a s).

Fixpoint startsWith (p s : jsstring) : bool :=
  match p, s with
  | [], _ => true
  | _ :: _, [] => false
  | a :: p', b :: s' => (a =? b)%N && startsWith p' s'
  end.

(** [s.split(sep)] for a one-unit separator: never the empty list. *)
Fixpoint split (sep : N) (s : jsstring) : list jsstring :=
  match s with
  | [] => [[]]
  | c :: s' =>
      if (c =? sep)%N then [] :: split sep s'
      else match split sep s' with
           | l :: ls => (c :: l) :: ls
           | [] => [[c]]
           end
  end.

(** [parts.join(sep)]. *)
Fixpoint join (sep : jsstring) (parts : list jsstring) : jsstring :=
  match parts with
  | [] => []
  | [p] => p
  | p :: ps => p ++ sep ++ join sep ps
  end.

(** White space and line terminators removed by [String.prototype.trim]
    (ECMA-262 WhiteSpace and LineTerminator). *)
Definition isWhiteSpace (c : N) : bool :=
  ((9 <=? c) && (c <=? 13) || (c =? 32) || (c =? 160) || (c =? 0x1680)
   || (0x2000 <=? c) && (c <=? 0x200A) || (c =? 0x2028) || (c =? 0x2029)
   || (c =? 0x202F) || (c =? 0x205F) || (c =? 0x3000) || (c =? 0xFEFF))%N.

Fixpoint trimStart (s : jsstring) : jsstring :=
  match s with
  | c :: s' => if isWhiteSpace c then trimStart s' else s
  | [] => []
  end.

Definition trimEnd (s : jsstring) : jsstring :=
  reverse (trimStart (reverse s)).

Definition trim (s : jsstring) : jsstring := trimEnd (trimStart s).

(** Truthiness of a string: non-empty. *)
Definition truthy (s : jsstring) : bool :=
  match s with [] => false | _ => true end.

(** ** The host environment

    Two built-ins depend on tables of the host: upper-casing (the
    Unicode case mapping) and the local time zone.  The development is
    parametric in them. *)
Class Host := {
  (** [String.prototype.toUpperCase] *)
  toUpperCase : jsstring → jsstring;
  (** ECMA-262 [UTC(t)]: a local time value to a UTC time value *)
  UTC : Z → Z;
  (** ECMA-262 [LocalTime(t)]: a UTC time value to a local one *)
  LocalTime : Z → Z;
}.

(** A host for running examples: ASCII upper-casing, time zone UTC. *)
Definition asciiUpper (c : N) : N :=
  if ((97 <=? c) && (c <=? 122))%N then (c - 32)%N else c.

Definition plainHost : Host :=
  {| toUpperCase := fmap asciiUpper; UTC := λ t, t; LocalTime := λ t, t |}.

(** ** Objects used as property bags

    A JavaScript object is kept as the list of its own properties in
    enumeration order (the order of [Object.entries]): array-index keys
    in ascending order first, then the other keys in insertion order.
    Assigning to an existing key keeps its place; assigning an object to
    the key [__proto__] changes the prototype and adds no own property. *)
Definition jsobject (V : Type) := list (jsstring * V).

Fixpoint getProp {V} (k : jsstring) (o : jsobject V) : option V :=
  match o with
  | [] => None
  | (k', v) :: o' => if decide (k' = k) then Some v else getProp k o'
  end.

Definition isDigit (c : N) : bool := ((48 <=? c) && (c <=? 57))%N.

(** [parseInt(s, 10)] on a string of decimal digits. *)
Definition parseInt (s : jsstring) : Z :=
  foldl (λ acc c, 10 * acc + (Z.of_N c - 48))%Z 0%Z s.

(** The array index a key denotes, if it is a canonical one. *)
Definition arrayIndex (k : jsstring) : option Z :=
  match k with
  | [] => None
  | c :: _ =>
      if forallb isDigit k && (negb (c =? 48)%N || (length k =? 1))
         && (parseInt k <? 2 ^ 32 - 1)%Z
      then Some (parseInt k) else None
  end.

Fixpoint replaceProp {V} (k : jsstring) (v : V) (o : jsobject V) : jsobject V :=
  match o with
  | [] => []
  | (k', v') :: o' =>
      if decide (k' = k) then (k, v) :: o' else (k', v') :: replaceProp k v o'
  end.

Fixpoint insertIndexed {V} (i : Z) (k : jsstring) (v : V) (o : jsobject V)
    : jsobject V :=
  match o with
  | [] => [(k, v)]
  | (k', v') :: o' =>
      match arrayIndex k' with
      | Some j => if (j <? i)%Z then (k', v') :: insertIndexed i k v o'
                  else (k, v) :: o
      | None => (k, v) :: o
      end
  end.

(** [o[k] = v] for an object value [v]. *)
Definition setProp {V} (k : jsstring) (v : V) (o : jsobject V) : jsobject V :=
  if decide (k = lit "__proto__") then o
  else match getProp k o with
       | Some _ => replaceProp k v o
       | None => match arrayIndex k with
                 | Some i => insertIndexed i k v o
                 | None => o ++ [(k, v)]
                 end
       end.

(** ** Parser: line preparation ([ICalParser.parse], first three statements) *)

(** [s.replace(/\r\n/g, '\n')] *)
Fixpoint replaceCRLF (s : jsstring) : jsstring :=
  match s with
  | [] => []
  | c :: s' =>
      match s' with
      | d :: s'' =>
          if (c =? CR)%N && (d =? LF)%N then LF :: replaceCRLF s''
          else c :: replaceCRLF s'
      | [] => [c]
      end
  end.

(** [s.replace(/\r/g, '\n')] *)
Definition replaceCR (s : jsstring) : jsstring :=
  (λ c, if (c =? CR)%N then LF else c) <$> s.

Definition normalizedContent (icsContent : jsstring) : jsstring :=
  replaceCR (replaceCRLF icsContent).

(** [s.replace(/\n[ \t]/g, '')] *)
Fixpoint removeFolds (s : jsstring) : jsstring :=
  match s with
  | [] => []
  | c :: s' =>
      match s' with
      | d :: s'' =>
          if (c =? LF)%N && ((d =? SPACE)%N || (d =? TAB)%N)
          then removeFolds s''
          else c :: removeFolds s'
      | [] => [c]
      end
  end.

Definition unfoldedContent (icsContent : jsstring) : jsstring :=
  removeFolds (normalizedContent icsContent).

(** [unfoldedContent.split('\n').filter(line => line.trim())] *)
Definition lines (icsContent : jsstring) : list jsstring :=
  List.filter (λ line, truthy (trim line)) (split LF (unfoldedContent icsContent)).

(** ** Parser: data model and scanning loop ([ICalParser.parse]) *)

(** A property entry: [{value, parameters, raw}] in an event,
    [{value, raw}] ([parameters] absent) in the calendar. *)
Record Property := mkProperty {
  value : jsstring;
  parameters : option jsstring;
  raw : jsstring;
}.

Record Event := mkEvent {
  properties : jsobject Property;
  _rawLines : list jsstring;
}.

Record Calendar := mkCalendar {
  headerLines : list jsstring;
  events : list Event;
  calendarProperties : jsobject Property;
}.

Global Instance Property_eq_dec : EqDecision Property.
Proof. solve_decision. Defined.
Global Instance Event_eq_dec : EqDecision Event.
Proof. solve_decision. Defined.

(** The variables of the scanning loop of [parse]. *)
Record ParseState := mkState {
  calendar : Calendar;
  currentEvent : option (jsobject Property);
  currentEventLines : list jsstring;
  inEvent : bool;
  foundFirstEvent : bool;
  inValarm : bool;
}.

Definition BEGIN_VEVENT : jsstring := lit "BEGIN:VEVENT".
Definition END_VEVENT : jsstring := lit "END:VEVENT".
Definition BEGIN_VCALENDAR : jsstring := lit "BEGIN:VCALENDAR".
Definition END_VCALENDAR : jsstring := lit "END:VCALENDAR".
Definition BEGIN_VALARM : jsstring := lit "BEGIN:VALARM".
Definition END_VALARM : jsstring := lit "END:VALARM".

(** The name before the first [;] of the part before the colon. *)
Definition propertyNameOf (propertyPart : jsstring) : jsstring :=
  match indexOf SEMICOLON propertyPart with
  | None => propertyPart
  | Some semicolonIndex => substring 0 semicolonIndex propertyPart
  end.

(** The entry stored for an event line that has a colon. *)
Definition eventProperty (trimmedLine : jsstring) (colonIndex : nat)
    : jsstring * Property :=
  let propertyPart := substring 0 colonIndex trimmedLine in
  (propertyNameOf propertyPart,
   {| value := drop (colonIndex + 1) trimmedLine;
      parameters := Some match indexOf SEMICOLON propertyPart with
                         | None => []
                         | Some semicolonIndex => drop semicolonIndex propertyPart
                         end;
      raw := trimmedLine |}).

(** The entry stored for a header line that has a colon. *)
Definition headerProperty (trimmedLine : jsstring) (colonIndex : nat)
    : jsstring * Property :=
  (propertyNameOf (substring 0 colonIndex trimmedLine),
   {| value := drop (colonIndex + 1) trimmedLine;
      parameters := None;
      raw := trimmedLine |}).

(** One iteration of the [for] loop of [parse].  Inside an event
    [currentEvent] is an object, never [null] (see
    [parseLine_currentEvent]), so the assignment to its properties is
    defined. *)
Definition parseLine (st : ParseState) (line : jsstring) : ParseState :=
  let trimmedLine := trim line in
  let cal := calendar st in
  if decide (trimmedLine = BEGIN_VEVENT) then
    {| calendar := cal; currentEvent := Some []; currentEventLines := [];
       inEvent := true; foundFirstEvent := true; inValarm := inValarm st |}
  else if decide (trimmedLine = END_VEVENT) then
    {| calendar :=
         match currentEvent st with
         | Some props =>
             {| headerLines := headerLines cal;
                events := events cal ++
                  [{| properties := props; _rawLines := currentEventLines st |}];
                calendarProperties := calendarProperties cal |}
         | None => cal
         end;
       currentEvent := None; currentEventLines := [];
       inEvent := false; foundFirstEvent := foundFirstEvent st;
       inValarm := false |}
  else if decide (trimmedLine = END_VCALENDAR) then st
  else if inEvent st then
    if decide (trimmedLine = BEGIN_VALARM) then
      {| calendar := cal; currentEvent := currentEvent st;
         currentEventLines := currentEventLines st; inEvent := inEvent st;
         foundFirstEvent := foundFirstEvent st; inValarm := true |}
    else if decide (trimmedLine = END_VALARM) then
      {| calendar := cal; currentEvent := currentEvent st;
         currentEventLines := currentEventLines st; inEvent := inEvent st;
         foundFirstEvent := foundFirstEvent st; inValarm := false |}
    else if inValarm st then st
    else
      {| calendar := cal;
         currentEvent :=
           match indexOf COLON trimmedLine with
           | Some colonIndex =>
               let '(name, prop) := eventProperty trimmedLine colonIndex in
               setProp name prop <$> currentEvent st
           | None => currentEvent st
           end;
         currentEventLines := currentEventLines st ++ [trimmedLine];
         inEvent := inEvent st; foundFirstEvent := foundFirstEvent st;
         inValarm := inValarm st |}
  else if negb (foundFirstEvent st) then
    {| calendar :=
         {| headerLines := headerLines cal ++ [trimmedLine];
            events := events cal;
            calendarProperties :=
              match indexOf COLON trimmedLine with
              | Some colonIndex =>
                  if negb (startsWith (lit "BEGIN:") trimmedLine)
                  then let '(name, prop) := headerProperty trimmedLine colonIndex in
                       setProp name prop (calendarProperties cal)
                  else calendarProperties cal
              | None => calendarProperties cal
              end |};
       currentEvent := currentEvent st;
       currentEventLines := currentEventLines st; inEvent := inEvent st;
       foundFirstEvent := foundFirstEvent st; inValarm := inValarm st |}
  else st.

Definition initialState : ParseState :=
  {| calendar := {| headerLines := []; events := []; calendarProperties := [] |};
     currentEvent := None; currentEventLines := [];
     inEvent := false; foundFirstEvent := false; inValarm := false |}.

(** [ICalParser.parse] *)
Definition parse (icsContent : jsstring) : Calendar :=
  calendar (foldl parseLine initialState (lines icsContent)).

(** ** Dates

    A [Date] object is its time value: milliseconds since the epoch, UTC.
    The dates built here have four-digit years and two-digit fields, far
    inside the range [TimeClip] accepts, so no invalid date arises; the
    bounds a caller passes to [filterByDateRange] are valid dates too
    (the application builds them from date inputs). *)
Record Date := mkDate { timeValue : Z }.

Global Instance Date_eq_dec : EqDecision Date.
Proof. solve_decision. Defined.

Definition msPerDay : Z := 86400000.

Definition isLeapYear (y : Z) : bool :=
  ((y mod 4 =? 0) && (negb (y mod 100 =? 0) || (y mod 400 =? 0)))%Z.

(** ECMA-262 [DayFromYear]: the day number of 1 January of year [y]. *)
Definition DayFromYear (y : Z) : Z :=
  (365 * (y - 1970) + (y - 1969) / 4 - (y - 1901) / 100 + (y - 1601) / 400)%Z.

(** Days of the year before month [mn] (0-based). *)
Definition daysBeforeMonth (leap : bool) (mn : Z) : Z :=
  let l := (if leap then 1 else 0)%Z in
  match mn with
  | 0 => 0 | 1 => 31 | 2 => 59 + l | 3 => 90 + l | 4 => 120 + l
  | 5 => 151 + l | 6 => 181 + l | 7 => 212 + l | 8 => 243 + l
  | 9 => 273 + l | 10 => 304 + l | _ => 334 + l
  end%Z.

(** ECMA-262 [MakeDay]: months beyond 11 carry into the year, days
    beyond the month carry into the following months. *)
Definition MakeDay (year month date : Z) : Z :=
  let ym := (year + month / 12)%Z in
  let mn := (month mod 12)%Z in
  (DayFromYear ym + daysBeforeMonth (isLeapYear ym) mn + date - 1)%Z.

Definition MakeTime (hour min sec ms : Z) : Z :=
  (hour * 3600000 + min * 60000 + sec * 1000 + ms)%Z.

Definition MakeDate (day time : Z) : Z := (day * msPerDay + time)%Z.

(** Years 0 to 99 stand for 1900 to 1999 in [Date.UTC] and in the
    [Date] constructor. *)
Definition MakeFullYear (year : Z) : Z :=
  if ((0 <=? year) && (year <=? 99))%Z then (1900 + year)%Z else year.

(** [Date.UTC(year, month, day, hour, minute, second)] as a [Date]. *)
Definition DateUTC (year month day hour minute second : Z) : Date :=
  {| timeValue := MakeDate (MakeDay (MakeFullYear year) month day)
                           (MakeTime hour minute second 0) |}.

(** [new Date(year, month, day, hour, minute, second)]: the same fields
    read as local time. *)
Definition DateLocal `{Host} (year month day hour minute second : Z) : Date :=
  {| timeValue := UTC (MakeDate (MakeDay (MakeFullYear year) month day)
                                (MakeTime hour minute second 0)) |}.

(** ECMA-262 [YearFromTime], by the usual days-to-civil computation. *)
Definition YearFromTime (t : Z) : Z :=
  let z := (t / msPerDay + 719468)%Z in
  let era := (z / 146097)%Z in
  let doe := (z - era * 146097)%Z in
  let yoe := ((doe - doe / 1460 + doe / 36524 - doe / 146096) / 365)%Z in
  let doy := (doe - (365 * yoe + yoe / 4 - yoe / 100))%Z in
  let mp := ((5 * doy + 2) / 153)%Z in
  (yoe + era * 400 + (if mp <? 10 then 0 else 1))%Z.

(** [date.getFullYear()] *)
Definition getFullYear `{Host} (date : Date) : Z :=
  YearFromTime (LocalTime (timeValue date)).

(** ** Parser: dates ([ICalParser.parseICalDate], [getEventDate]) *)

(** Units the regular-expression dot does not match. *)
Definition isLineTerminator (c : N) : bool :=
  ((c =? 10) || (c =? 13) || (c =? 0x2028) || (c =? 0x2029))%N.

Fixpoint firstLine (s : jsstring) : jsstring :=
  match s with
  | c :: s' => if isLineTerminator c then [] else c :: firstLine s'
  | [] => []
  end.

Fixpoint lastIndexOf (c : N) (s : jsstring) : option nat :=
  match s with
  | [] => None
  | d :: s' =>
      match lastIndexOf c s' with
      | Some i => Some (S i)
      | None => if (d =? c)%N then Some 0 else None
      end
  end.

(** [dateStr.replace(/^.*:/, '')]: the greedy [.*] stays on the first
    line, so the match ends at the last colon of the first line. *)
Definition cleanDateStr (dateStr : jsstring) : jsstring :=
  match lastIndexOf COLON (firstLine dateStr) with
  | Some i => drop (S i) dateStr
  | None => dateStr
  end.

(** The capture groups of
    [/^(\d{4})(\d{2})(\d{2})(T(\d{2})(\d{2})(\d{2})(Z)?)?$/];
    groups 5 to 8 are [None] when they did not take part. *)
Record DateMatch := mkDateMatch {
  m1 : jsstring; m2 : jsstring; m3 : jsstring;
  m5 : option jsstring; m6 : option jsstring; m7 : option jsstring;
  m8 : option jsstring;
}.

(** [\d{n}] at the head of [s]: the digits and the rest. *)
Definition takeDigits (n : nat) (s : jsstring) : option (jsstring * jsstring) :=
  if (n <=? length s) && forallb isDigit (take n s)
  then Some (take n s, drop n s) else None.

Definition LETTER_T : N := 84.
Definition LETTER_Z : N := 90.

Definition matchDate (s : jsstring) : option DateMatch :=
  '(y, s) ← takeDigits 4 s;
  '(mo, s) ← takeDigits 2 s;
  '(d, s) ← takeDigits 2 s;
  match s with
  | [] => Some (mkDateMatch y mo d None None None None)
  | c :: s =>
      if (c =? LETTER_T)%N then
        '(h, s) ← takeDigits 2 s;
        '(mi, s) ← takeDigits 2 s;
        '(se, s) ← takeDigits 2 s;
        match s with
        | [] => Some (mkDateMatch y mo d (Some h) (Some mi) (Some se) None)
        | [z] => if (z =? LETTER_Z)%N
                 then Some (mkDateMatch y mo d (Some h) (Some mi) (Some se)
                                        (Some [LETTER_Z]))
                 else None
        | _ => None
        end
      else None
  end.

(** [match[i] ? parseInt(match[i], 10) : 0] *)
Definition groupOrZero (g : option jsstring) : Z :=
  match g with
  | Some s => if truthy s then parseInt s else 0%Z
  | None => 0%Z
  end.

(** [ICalParser.parseICalDate]; [None] is [null]. *)
Definition parseICalDate `{Host} (dateStr : jsstring) : option Date :=
  if negb (truthy dateStr) then None
  else
    match matchDate (cleanDateStr dateStr) with
    | None => None
    | Some m =>
        let year := parseInt (m1 m) in
        let month := (parseInt (m2 m) - 1)%Z in
        let day := parseInt (m3 m) in
        let hour := groupOrZero (m5 m) in
        let minute := groupOrZero (m6 m) in
        let second := groupOrZero (m7 m) in
        let isUTC := bool_decide (m8 m = Some [LETTER_Z]) in
        if isUTC then Some (DateUTC year month day hour minute second)
        else Some (DateLocal year month day hour minute second)
    end.

(** [ICalParser.getEventDate] *)
Definition getEventDate `{Host} (event : Event) : option Date :=
  match getProp (lit "DTSTART") (properties event) with
  | None => None
  | Some dtstart => parseICalDate (value dtstart)
  end.

(** ** Writer: line folding ([ICalWriter.foldLine]) *)

Definition MAX_LINE_LENGTH : nat := 75.

Definition isHighSurrogate (charCode : N) : bool :=
  ((0xD800 <=? charCode) && (charCode <=? 0xDBFF))%N.

(** [ICalWriter.isContinuationByte] *)
Definition isContinuationByte (str : jsstring) (pos : nat) : bool :=
  if (pos <=? 0) || (length str <=? pos) then false
  else match str !! (pos - 1) with
       | Some charCode => isHighSurrogate charCode
       | None => false
       end.

(** The inner loop of [foldLine]:
    [while (cutPos > 0 && isContinuationByte(remaining, cutPos)) cutPos--]. *)
Fixpoint shiftCut (remaining : jsstring) (cutPos : nat) : nat :=
  match cutPos with
  | 0 => 0
  | S p => if isContinuationByte remaining cutPos
           then shiftCut remaining p else cutPos
  end.

Definition maxLenOf (isFirst : bool) : nat :=
  if isFirst then MAX_LINE_LENGTH else MAX_LINE_LENGTH - 1.

Definition segment (isFirst : bool) (chunk : jsstring) : jsstring :=
  if isFirst then chunk else SPACE :: chunk.

(** The outer loop of [foldLine], [while (remaining.length > 0) ...],
    with the loop variables as arguments.  [None]: out of fuel. *)
Fixpoint foldLoop (fuel : nat) (result : list jsstring)
    (remaining : jsstring) (isFirst : bool) : option (list jsstring) :=
  match fuel with
  | 0 => None
  | S fuel' =>
      if length remaining =? 0 then Some result
      else
        let maxLen := maxLenOf isFirst in
        if length remaining <=? maxLen
        then Some (result ++ [segment isFirst remaining])
        else
          let cutPos := shiftCut remaining maxLen in
          let chunk := substring 0 cutPos remaining in
          foldLoop fuel' (result ++ [segment isFirst chunk])
                   (drop cutPos remaining) false
  end.

(** [ICalWriter.foldLine].  The fuel given to the loop suffices whenever
    the loop exits at all ([foldLoop_adequate]), so [None] stands for a
    call that never returns. *)
Definition foldLine (line : jsstring) : option jsstring :=
  if length line <=? MAX_LINE_LENGTH then Some line
  else join CRLF <$> foldLoop (S (length line)) [] line true.

(** ** Writer: clean mode ([ICalWriter.isAllowedProperty]) *)

Definition blockedProperties : list jsstring :=
  [lit "X-APPLE-"; lit "X-WR-ALARMUID"; lit "ACKNOWLEDGED"; lit "ATTACH"].

(** The [propName] of [isAllowedProperty], upper-cased; [None] when the
    line has neither a colon nor a semicolon. *)
Definition propNameOfLine `{Host} (line : jsstring) : option jsstring :=
  match indexOf SEMICOLON line, indexOf COLON line with
  | Some semicolonIndex, None =>
      Some (toUpperCase (substring 0 semicolonIndex line))
  | Some semicolonIndex, Some colonIndex =>
      if semicolonIndex <? colonIndex
      then Some (toUpperCase (substring 0 semicolonIndex line))
      else Some (toUpperCase (substring 0 colonIndex line))
  | None, Some colonIndex =>
      Some (toUpperCase (substring 0 colonIndex line))
  | None, None => None
  end.

(** The loop over [blockedProperties]: [false] at the first match. *)
Fixpoint notBlocked (propName : jsstring) (blocked : list jsstring) : bool :=
  match blocked with
  | [] => true
  | b :: blocked' =>
      if startsWith b propName || bool_decide (propName = b) then false
      else notBlocked propName blocked'
  end.

(** [ICalWriter.isAllowedProperty] *)
Definition isAllowedProperty `{Host} (line : jsstring) : bool :=
  match propNameOfLine line with
  | None => false
  | Some propName => notBlocked propName blockedProperties
  end.

(** ** Writer: serialization ([ICalWriter.write]) *)

Definition defaultHeader : list jsstring :=
  [BEGIN_VCALENDAR; lit "VERSION:2.0"; lit "PRODID:-//iCAL Splitter//EN"].

Definition nonEmpty {A} (l : list A) : bool :=
  match l with [] => false | _ => true end.

(** The lines of an event that reach [foldLine]: the raw lines, or the
    raw line of every property when there are none; blank lines are
    skipped, and in clean mode the lines that are not allowed. *)
Definition emittedLines `{Host} (cleanMode : bool) (event : Event)
    : list jsstring :=
  List.filter
    (λ line, truthy (trim line) && negb (cleanMode && negb (isAllowedProperty line)))
    (if nonEmpty (_rawLines event) then _rawLines event
     else List.filter truthy (raw <$> (snd <$> properties event))).

(** The elements pushed on [outputLines] for one event. *)
Definition writeEvent `{Host} (cleanMode : bool) (event : Event)
    : option (list jsstring) :=
  folded ← mapM foldLine (emittedLines cleanMode event);
  Some ([BEGIN_VEVENT] ++ folded ++ [END_VEVENT]).

(** The elements pushed on [outputLines] for the header. *)
Definition writeHeader (calendar : Calendar) : option (list jsstring) :=
  if nonEmpty (headerLines calendar) then mapM foldLine (headerLines calendar)
  else Some defaultHeader.

(** [ICalWriter.write]; [None] when a call of [foldLine] never returns. *)
Definition write `{Host} (calendar : Calendar) (events : list Event)
    (cleanMode : bool) : option jsstring :=
  header ← writeHeader calendar;
  body ← mapM (writeEvent cleanMode) events;
  Some (join CRLF (header ++ concat body ++ [END_VCALENDAR]) ++ CRLF).

(** ** Writer: selecting events ([filterByDateRange], [splitByYear]) *)

(** [startDate && date < startDate] and [endDate && date > endDate];
    an absent bound is [None]. *)
Definition beforeStart (date : Date) (startDate : option Date) : bool :=
  match startDate with
  | Some s => (timeValue date <? timeValue s)%Z
  | None => false
  end.

Definition afterEnd (date : Date) (endDate : option Date) : bool :=
  match endDate with
  | Some e => (timeValue e <? timeValue date)%Z
  | None => false
  end.

(** The arrow function given to [events.filter] in [filterByDateRange]. *)
Definition dateRangeTest `{Host} (startDate endDate : option Date)
    (event : Event) : bool :=
  match getEventDate event with
  | None => true
  | Some date =>
      if beforeStart date startDate then false
      else if afterEnd date endDate then false
      else true
  end.

(** [ICalWriter.filterByDateRange] *)
Definition filterByDateRange `{Host} (events : list Event)
    (startDate endDate : option Date) : list Event :=
  List.filter (dateRangeTest startDate endDate) events.

(** The keys of the object [splitByYear] returns: the year (JavaScript
    turns the number into its decimal string, which is injective) or the
    string ['unknown']. *)
Inductive YearKey := Year (y : Z) | Unknown.

Global Instance YearKey_eq_dec : EqDecision YearKey.
Proof. solve_decision. Defined.

Global Instance YearKey_countable : Countable YearKey.
Proof.
  refine (inj_countable'
            (λ k, match k with Year y => Some y | Unknown => None end)
            (λ o, match o with Some y => Year y | None => Unknown end) _).
  by intros [].
Defined.

Definition yearOf `{Host} (event : Event) : YearKey :=
  match getEventDate event with
  | Some date => Year (getFullYear date)
  | None => Unknown
  end.

(** One iteration of the loop of [splitByYear]. *)
Definition addToYear `{Host} (byYear : gmap YearKey (list Event)) (event : Event)
    : gmap YearKey (list Event) :=
  let year := yearOf event in
  let byYear :=
    match byYear !! year with
    | None => <[year := []]> byYear
    | Some _ => byYear
    end in
  <[year := default [] (byYear !! year) ++ [event]]> byYear.

(** [ICalWriter.splitByYear] *)
Definition splitByYear `{Host} (events : list Event) : gmap YearKey (list Event) :=
  foldl addToYear ∅ events.

(** ** Writer: splitting by size ([ICalWriter.splitBySize]) *)

(** [Array.prototype.sort] is stable; for a consistent comparison the
    sorted order is then unique, and insertion from the right computes
    it. *)
Fixpoint insertSorted {A} (cmp : A → A → Z) (x : A) (l : list A) : list A :=
  match l with
  | [] => [x]
  | y :: l' => if (cmp x y <=? 0)%Z then x :: l else y :: insertSorted cmp x l'
  end.

Definition sort {A} (cmp : A → A → Z) (l : list A) : list A :=
  foldr (insertSorted cmp) [] l.

(** The comparison of [splitBySize]: newest first, undated last. *)
Definition compareEvents `{Host} (a b : Event) : Z :=
  match getEventDate a, getEventDate b with
  | None, None => 0
  | None, Some _ => 1
  | Some _, None => -1
  | Some dateA, Some dateB => timeValue dateB - timeValue dateA
  end%Z.

Definition sumLengths (ls : list jsstring) : nat :=
  foldr (λ line size, length line + 2 + size) 0 ls.

(** [ICalWriter.getHeaderFooterSize] *)
Definition getHeaderFooterSize (calendar : Calendar) : nat :=
  length (END_VCALENDAR ++ CRLF)
  + (if nonEmpty (headerLines calendar) then sumLengths (headerLines calendar)
     else length (join CRLF defaultHeader ++ CRLF)).

(** [ICalWriter.getEventSize] *)
Definition getEventSize (event : Event) : nat :=
  length (BEGIN_VEVENT ++ CRLF) + length (END_VEVENT ++ CRLF)
  + (if nonEmpty (_rawLines event) then sumLengths (_rawLines event)
     else sumLengths (raw <$> (snd <$> properties event))).

Record Chunk := mkChunk {
  content : jsstring;
  startDate : option Date;
  endDate : option Date;
  eventCount : nat;
}.

(** [ICalWriter.createChunkResult] *)
Definition createChunkResult `{Host} (calendar : Calendar)
    (events : list Event) (cleanMode : bool) : option Chunk :=
  let dates := sort (λ a b, timeValue a - timeValue b)%Z
                    (omap getEventDate events) in
  content ← write calendar events cleanMode;
  Some {| content := content; startDate := head dates;
          endDate := last dates; eventCount := length events |}.

(** The variables of the loop of [splitBySize]. *)
Record SplitState := mkSplit {
  results : list Chunk;
  currentEvents : list Event;
  currentSize : nat;
}.

(** One iteration of the loop of [splitBySize]. *)
Definition splitStep `{Host} (calendar : Calendar) (maxSizeBytes : Z)
    (cleanMode : bool) (st : option SplitState) (event : Event)
    : option SplitState :=
  st ← st;
  let eventSize := getEventSize event in
  st ← (if (maxSizeBytes <? Z.of_nat (currentSize st + eventSize))%Z
           && nonEmpty (currentEvents st)
        then chunk ← createChunkResult calendar (currentEvents st) cleanMode;
             Some {| results := results st ++ [chunk]; currentEvents := [];
                     currentSize := getHeaderFooterSize calendar |}
        else Some st);
  Some {| results := results st;
          currentEvents := currentEvents st ++ [event];
          currentSize := currentSize st + eventSize |}.

(** [ICalWriter.splitBySize]; [None] when a call of [write] never returns. *)
Definition splitBySize `{Host} (calendar : Calendar) (events : list Event)
    (maxSizeBytes : Z) (cleanMode : bool) : option (list Chunk) :=
  let sortedEvents := sort compareEvents events in
  st ← foldl (splitStep calendar maxSizeBytes cleanMode)
             (Some {| results := []; currentEvents := [];
                      currentSize := getHeaderFooterSize calendar |})
             sortedEvents;
  if nonEmpty (currentEvents st)
  then chunk ← createChunkResult calendar (currentEvents st) cleanMode;
       Some (results st ++ [chunk])
  else Some (results st).

(** ** Statements about line folding *)

(** A state in which the cut position is driven to [0]: the iteration
    emits an empty chunk and leaves [remaining] as it was. *)
Definition stuck (remaining : jsstring) (isFirst : bool) : Prop :=
  maxLenOf isFirst < length remaining ∧
  shiftCut remaining (maxLenOf isFirst) = 0.

(** No two adjacent high surrogates.  Every well-formed UTF-16 string
    satisfies this: there a high surrogate is followed by a low one. *)
Fixpoint noAdjacentHigh (s : jsstring) : bool :=
  match s with
  | c :: s' =>
      match s' with
      | d :: _ => negb (isHighSurrogate c && isHighSurrogate d) && noAdjacentHigh s'
      | [] => true
      end
  | [] => true
  end.

(** The shape of a folded line: the first chunk as it is, every other
    chunk behind one space. *)
Definition segmentsOf (isFirst : bool) (chunks : list jsstring) : list jsstring :=
  match chunks with
  | [] => []
  | c :: cs => segment isFirst c :: ((SPACE ::.) <$> cs)
  end.

Definition chunkBounds (isFirst : bool) (chunks : list jsstring) : Prop :=
  match chunks with
  | [] => True
  | c :: cs => length c ≤ maxLenOf isFirst ∧
               Forall (λ c', length c' ≤ MAX_LINE_LENGTH - 1) cs
  end.

(** A single line: no carriage return and no line feed in it. *)
Definition noLineBreak (s : jsstring) : Prop :=
  Forall (λ c, c ≠ CR ∧ c ≠ LF) s.

Global Instance noLineBreak_dec s : Decision (noLineBreak s).
Proof. unfold noLineBreak. apply _. Defined.

(** The continuation lines of a folded line, each behind [sep] and a space. *)
Definition continuations (sep : jsstring) (chunks : list jsstring) : jsstring :=
  concat ((λ c, sep ++ SPACE :: c) <$> chunks).



(** ** Statements about well-formed text *)

Definition isLowSurrogate (charCode : N) : bool :=
  ((0xDC00 <=? charCode) && (charCode <=? 0xDFFF))%N.

(** Every high surrogate is followed at once by a low one, as in every
    well-formed UTF-16 text (what decoding a file yields). *)
Fixpoint pairedHigh (s : jsstring) : bool :=
  match s with
  | c :: s' =>
      (if isHighSurrogate c
       then match s' with d :: _ => isLowSurrogate d | [] => false end
       else true)
      && pairedHigh s'
  | [] => true
  end.

(** [t] is [s] with some units that are not low surrogates left out, and
    some units that are no surrogates replaced by units that are not
    high surrogates. *)
Inductive thinned : jsstring → jsstring → Prop :=
  | thinned_nil : thinned [] []
  | thinned_keep c s t : thinned s t → thinned (c :: s) (c :: t)
  | thinned_drop c s t :
      isLowSurrogate c = false → thinned s t → thinned (c :: s) t
  | thinned_swap c d s t :
      isHighSurrogate c = false → isLowSurrogate c = false →
      isHighSurrogate d = false →
      thinned s t → thinned (c :: s) (d :: t).

(** ** Statements about dates and the selection of events *)

(** [n] decimal digits. *)
Definition digits (n : nat) (s : jsstring) : Prop :=
  length s = n ∧ Forall (λ c, (48 ≤ c ≤ 57)%N) s.

(** The date grammar [YYYYMMDD[THHMMSS[Z]]], as the fields it is made of. *)
Inductive DateText :=
  | DateOnly (y mo d : jsstring)
  | DateTime (y mo d h mi se : jsstring) (utc : bool).

Definition wellFormedDateText (t : DateText) : Prop :=
  match t with
  | DateOnly y mo d => digits 4 y ∧ digits 2 mo ∧ digits 2 d
  | DateTime y mo d h mi se _ =>
      digits 4 y ∧ digits 2 mo ∧ digits 2 d ∧
      digits 2 h ∧ digits 2 mi ∧ digits 2 se
  end.

Definition textOf (t : DateText) : jsstring :=
  match t with
  | DateOnly y mo d => y ++ mo ++ d
  | DateTime y mo d h mi se utc =>
      y ++ mo ++ d ++ [LETTER_T] ++ h ++ mi ++ se
        ++ (if utc then [LETTER_Z] else [])
  end.

(** The date a text of the grammar stands for: midnight for a date-only
    text, UTC with a trailing [Z], local time otherwise. *)
Definition dateOf `{Host} (t : DateText) : Date :=
  match t with
  | DateOnly y mo d =>
      DateLocal (parseInt y) (parseInt mo - 1) (parseInt d) 0 0 0
  | DateTime y mo d h mi se utc =>
      if utc
      then DateUTC (parseInt y) (parseInt mo - 1) (parseInt d)
                   (parseInt h) (parseInt mi) (parseInt se)
      else DateLocal (parseInt y) (parseInt mo - 1) (parseInt d)
                     (parseInt h) (parseInt mi) (parseInt se)
  end.

(** The capture groups a text of the grammar produces. *)
Definition groupsOf (t : DateText) : DateMatch :=
  match t with
  | DateOnly y mo d => mkDateMatch y mo d None None None None
  | DateTime y mo d h mi se utc =>
      mkDateMatch y mo d (Some h) (Some mi) (Some se)
                  (if utc then Some [LETTER_Z] else None)
  end.

(** The string after its final colon (the whole string without one). *)
Definition afterFinalColon (s : jsstring) : jsstring :=
  match lastIndexOf COLON s with
  | Some i => drop (S i) s
  | None => s
  end.

Definition noLineTerminator (s : jsstring) : Prop :=
  Forall (λ c, isLineTerminator c = false) s.

(** Inside the bounds, both inclusive; an absent bound does not bound. *)
Definition withinBounds (date : Date) (startDate endDate : option Date) : Prop :=
  (∀ s, startDate = Some s → (timeValue s ≤ timeValue date)%Z) ∧
  (∀ e, endDate = Some e → (timeValue date ≤ timeValue e)%Z).

(** The events the date-range filter is to keep. *)
Definition keptByRange `{Host} (startDate endDate : option Date)
    (event : Event) : Prop :=
  getEventDate event = None ∨
  ∃ date, getEventDate event = Some date ∧ withinBounds date startDate endDate.

(** The events of a list that fall under a given year key, in order. *)
Definition eventsOfYear `{Host} (year : YearKey) (events : list Event)
    : list Event :=
  List.filter (λ event, bool_decide (yearOf event = year)) events.

(** ** Statements about clean mode *)

(** The property name of a line: what precedes its first [;] or [:]. *)
Fixpoint nameBeforeSeparator (line : jsstring) : jsstring :=
  match line with
  | [] => []
  | c :: line' =>
      if (c =? COLON)%N || (c =? SEMICOLON)%N then []
      else c :: nameBeforeSeparator line'
  end.

Definition hasSeparator (line : jsstring) : Prop :=
  COLON ∈ line ∨ SEMICOLON ∈ line.

(** A name on the deny list: upper-cased, it starts with or equals one
    of the blocked names. *)
Definition onDenylist `{Host} (name : jsstring) : Prop :=
  ∃ blocked, blocked ∈ blockedProperties ∧
    (blocked `prefix_of` toUpperCase name ∨ toUpperCase name = blocked).

(** ** Statements about parsing and writing *)

(** The lines the scanning loop of [parse] works on: trimmed. *)
Definition trimmedLines (icsContent : jsstring) : list jsstring :=
  trim <$> lines icsContent.

(** A line as the loop stores it: trimmed, not blank, without line break. *)
Definition contentLine (l : jsstring) : Prop :=
  trim l = l ∧ l ≠ [] ∧ noLineBreak l.

(** The lines the loop never stores: it acts on them. *)
Definition eventMarker (l : jsstring) : Prop :=
  l = BEGIN_VEVENT ∨ l = END_VEVENT ∨ l = END_VCALENDAR.

Definition alarmMarker (l : jsstring) : Prop :=
  l = BEGIN_VALARM ∨ l = END_VALARM.

(** A line of an event that [parse] keeps: neither an event marker nor
    an alarm marker. *)
Definition plainLine (l : jsstring) : Prop :=
  ¬ eventMarker l ∧ ¬ alarmMarker l.

Global Instance eventMarker_dec l : Decision (eventMarker l).
Proof. unfold eventMarker. apply _. Defined.

Global Instance alarmMarker_dec l : Decision (alarmMarker l).
Proof. unfold alarmMarker. apply _. Defined.

Global Instance plainLine_dec l : Decision (plainLine l).
Proof. unfold plainLine. apply _. Defined.

(** The lines in front of the first [BEGIN:VEVENT]. *)
Fixpoint beforeFirstEvent (ls : list jsstring) : list jsstring :=
  match ls with
  | [] => []
  | l :: ls' =>
      if decide (l = BEGIN_VEVENT) then [] else l :: beforeFirstEvent ls'
  end.

(** Of these, the ones that are not a closing marker. *)
Definition headerOf (ls : list jsstring) : list jsstring :=
  List.filter
    (λ l, negb (bool_decide (l = END_VEVENT) || bool_decide (l = END_VCALENDAR)))
    (beforeFirstEvent ls).

(** The lines of one event block. *)
Definition eventBlock (body : list jsstring) : list jsstring :=
  BEGIN_VEVENT :: body ++ [END_VEVENT].

(** The physical lines of a document: a header part, one block per
    event, the closing line. *)
Definition documentLines (headerPart : list jsstring)
    (bodies : list (list jsstring)) : list jsstring :=
  headerPart ++ concat (eventBlock <$> bodies) ++ [END_VCALENDAR].

(** How often a line occurs. *)
Definition occurrences (l : jsstring) (ls : list jsstring) : nat :=
  length (List.filter (λ l', bool_decide (l' = l)) ls).

(** The [VEVENT] markers of a list of lines open and close in turn. *)
Fixpoint eventsBalanced (inside : bool) (ls : list jsstring) : bool :=
  match ls with
  | [] => negb inside
  | l :: ls' =>
      if decide (l = BEGIN_VEVENT) then negb inside && eventsBalanced true ls'
      else if decide (l = END_VEVENT) then inside && eventsBalanced false ls'
      else eventsBalanced inside ls'
  end.

(** Every line [parse] has stored so far satisfies [Q]. *)
Definition stored (Q : jsstring → Prop) (st : ParseState) : Prop :=
  Forall Q (headerLines (calendar st)) ∧
  Forall (λ event, Forall Q (_rawLines event)) (events (calendar st)) ∧
  Forall Q (currentEventLines st).

(** An event without raw lines has no property either. *)
Definition propertiesFollowLines (st : ParseState) : Prop :=
  Forall (λ event, _rawLines event = [] → properties event = [])
         (events (calendar st)) ∧
  (currentEventLines st = [] →
   currentEvent st = None ∨ currentEvent st = Some []).


(** The header [write] starts from. *)
Definition headerSource (calendar : Calendar) : list jsstring :=
  if nonEmpty (headerLines calendar) then headerLines calendar
  else defaultHeader.

(** ** Statements about splitting by size *)

(** The chunks of [splitBySize] as lists of events: [current] is closed
    when it is not empty and the next event would take it beyond the
    limit. *)
Fixpoint groupBySize (size : Event → nat) (overhead : nat) (maxSizeBytes : Z)
    (current : list Event) (currentSize : nat) (events : list Event)
    : list (list Event) :=
  match events with
  | [] => if nonEmpty current then [current] else []
  | event :: events' =>
      if (maxSizeBytes <? Z.of_nat (currentSize + size event))%Z
         && nonEmpty current
      then current
           :: groupBySize size overhead maxSizeBytes
                [event] (overhead + size event) events'
      else groupBySize size overhead maxSizeBytes
             (current ++ [event]) (currentSize + size event) events'
  end.

(** ** Parser: statistics ([ICalParser.getStatistics]) *)

(** The object [getStatistics] returns.  [eventsByYear] is an object
    keyed by the year; as for [splitByYear], the decimal string of the
    year stands for the year. *)
Record Statistics := mkStatistics {
  totalEvents : nat;
  earliestDate : option Date;
  latestDate : option Date;
  eventsByYear : gmap Z nat;
}.

(** One iteration of the loop of [getStatistics].  A [Date] object is
    truthy and [null] is not; a count that is absent reads as [0]. *)
Definition countEvent `{Host} (stats : Statistics) (event : Event)
    : Statistics :=
  match getEventDate event with
  | None => stats
  | Some date =>
      let year := getFullYear date in
      {| totalEvents := totalEvents stats;
         earliestDate :=
           match earliestDate stats with
           | None => Some date
           | Some earliest =>
               if (timeValue date <? timeValue earliest)%Z
               then Some date else Some earliest
           end;
         latestDate :=
           match latestDate stats with
           | None => Some date
           | Some latest =>
               if (timeValue latest <? timeValue date)%Z
               then Some date else Some latest
           end;
         eventsByYear :=
           <[year := default 0 (eventsByYear stats !! year) + 1]>
             (eventsByYear stats) |}
  end.

(** [ICalParser.getStatistics] *)
Definition getStatistics `{Host} (calendar : Calendar) : Statistics :=
  foldl countEvent
        {| totalEvents := length (events calendar); earliestDate := None;
           latestDate := None; eventsByYear := ∅ |}
        (events calendar).

(** ** Writer: the size of a text in bytes ([ICalWriter.getByteSize])

    [new Blob([text]).size]: the length of the UTF-8 encoding of the
    text.  A surrogate pair is one code point of four bytes; a surrogate
    without its partner is replaced by U+FFFD, three bytes. *)
Fixpoint getByteSize (text : jsstring) : nat :=
  match text with
  | [] => 0
  | c :: text' =>
      if isHighSurrogate c then
        match text' with
        | d :: text'' =>
            if isLowSurrogate d then 4 + getByteSize text''
            else 3 + getByteSize text'
        | [] => 3
        end
      else if (c <? 0x80)%N then 1 + getByteSize text'
      else if (c <? 0x800)%N then 2 + getByteSize text'
      else 3 + getByteSize text'
  end.

(** ** Statements about statistics and sizes *)

(** The dates of the events that have one, in the order of the events. *)
Definition datesOf `{Host} (events : list Event) : list Date :=
  omap getEventDate events.

(** The text is ASCII: every unit is below 128. *)
Definition ascii (s : jsstring) : Prop := Forall (λ c, (c < 128)%N) s.

(** The earlier (the later) of the date kept so far and a new date; the
    date kept stays when the two are equal. *)
Definition earlierOf (kept : option Date) (date : Date) : option Date :=
  match kept with
  | None => Some date
  | Some earliest =>
      if (timeValue date <? timeValue earliest)%Z then Some date
      else Some earliest
  end.

Definition laterOf (kept : option Date) (date : Date) : option Date :=
  match kept with
  | None => Some date
  | Some latest =>
      if (timeValue latest <? timeValue date)%Z then Some date
      else Some latest
  end.

(** ** Statements about the events [parse] returns *)

(** What the loop of [parse] does to the properties of the current
    event on a line it keeps. *)
Definition addProperty (props : jsobject Property) (trimmedLine : jsstring)
    : jsobject Property :=
  match indexOf COLON trimmedLine with
  | Some colonIndex =>
      let '(name, prop) := eventProperty trimmedLine colonIndex in
      setProp name prop props
  | None => props
  end.

(** The properties of an event whose lines are [ls]. *)
Definition propertiesOfLines (ls : list jsstring) : jsobject Property :=
  foldl addProperty [] ls.

(** The entries the lines [ls] give for the property [name], in the
    order of the lines. *)
Definition entriesNamed (name : jsstring) (ls : list jsstring) : list Property :=
  omap (λ l, match indexOf COLON l with
             | Some colonIndex =>
                 let '(name', prop) := eventProperty l colonIndex in
                 if decide (name' = name) then Some prop else None
             | None => None
             end) ls.

(** All lines [parse] has stored so far, in the order of the input. *)
Definition storedLines (st : ParseState) : list jsstring :=
  headerLines (calendar st)
  ++ concat (_rawLines <$> events (calendar st))
  ++ currentEventLines st.

(** Before the first [BEGIN:VEVENT] nothing of an event is stored. *)
Definition headerOnly (st : ParseState) : Prop :=
  foundFirstEvent st = false →
  events (calendar st) = [] ∧ currentEventLines st = [] ∧
  currentEvent st = None ∧ inEvent st = false.

(** The properties of every event are those of its lines. *)
Definition propertiesFromLines (st : ParseState) : Prop :=
  Forall (λ event, properties event = propertiesOfLines (_rawLines event))
         (events (calendar st)) ∧
  (∀ props, currentEvent st = Some props →
            props = propertiesOfLines (currentEventLines st)).

(** No line of an event is a marker. *)
Definition eventLinesPlain (st : ParseState) : Prop :=
  Forall (λ event, Forall plainLine (_rawLines event)) (events (calendar st)) ∧
  Forall plainLine (currentEventLines st).

(** One when an event is open, zero otherwise. *)
Definition openEvents (st : ParseState) : nat :=
  match currentEvent st with Some _ => 1 | None => 0 end.

(** ** Statements about reading back what was written *)

(** A logical line cut into a first part and the parts of its
    continuation lines. *)
Definition LineParts : Type := jsstring * list jsstring.

Definition logicalLine (p : LineParts) : jsstring := p.1 ++ concat p.2.

(** The folded form of the line, its continuation lines behind [sep]. *)
Definition foldedLine (sep : jsstring) (p : LineParts) : jsstring :=
  p.1 ++ continuations sep p.2.

(** Parts without line break whose first part starts with a unit that
    is not white space. *)
Definition lineStart (p : LineParts) : Prop :=
  noLineBreak p.1 ∧ Forall noLineBreak p.2 ∧
  ∃ c first, p.1 = c :: first ∧ isWhiteSpace c = false.

(** The text made of the strings [ls], each followed by [sep]. *)
Definition endEach (sep : jsstring) (ls : list jsstring) : jsstring :=
  concat ((λ l, l ++ sep) <$> ls).

(** ** Statements about the chunks of [splitBySize] *)

(** [a] comes before [b] in the order of [splitBySize]: [a] is not
    older than [b], and an event without date comes after every dated
    one. *)
Definition newestFirst `{Host} (a b : Event) : Prop :=
  match getEventDate a, getEventDate b with
  | Some dateA, Some dateB => (timeValue dateB ≤ timeValue dateA)%Z
  | None, Some _ => False
  | _, None => True
  end.

(** The size [splitBySize] reckons for a chunk of these events. *)
Definition estimatedSize (calendar : Calendar) (group : list Event) : nat :=
  getHeaderFooterSize calendar + sum_list (getEventSize <$> group).

(** ** Statements about calendar dates *)

(** ECMA-262 [TimeFromYear]: the time value at which year [y] starts. *)
Definition TimeFromYear (y : Z) : Z := (DayFromYear y * msPerDay)%Z.

(** [YearFromTime] as a function of the day number. *)
Definition YearFromDay (day : Z) : Z :=
  let z := (day + 719468)%Z in
  let era := (z / 146097)%Z in
  let doe := (z - era * 146097)%Z in
  let yoe := ((doe - doe / 1460 + doe / 36524 - doe / 146096) / 365)%Z in
  let doy := (doe - (365 * yoe + yoe / 4 - yoe / 100))%Z in
  let mp := ((5 * doy + 2) / 153)%Z in
  (yoe + era * 400 + (if mp <? 10 then 0 else 1))%Z.

(** Whether the day with number [day] lies in the year computed for it. *)
Definition inYearOfDay (day : Z) : bool :=
  let y := YearFromDay day in
  ((DayFromYear y <=? day) && (day <? DayFromYear (y + 1)))%Z.

(** The check of a run of days, one after the other: whether all days
    so far passed, and the next day. *)
Definition checkDay (st : bool * Z) : bool * Z :=
  (st.1 && inYearOfDay st.2, (st.2 + 1)%Z).

Definition daysChecked (n : N) : bool := (N.iter n checkDay (true, 0%Z)).1.

(** The days of month [month] (1 to 12) of a year. *)
Definition daysInMonth (year month : Z) : Z :=
  match month with
  | 2 => if isLeapYear year then 29 else 28
  | 4 | 6 | 9 | 11 => 30
  | _ => 31
  end%Z.

(** Fields that name a day of the calendar, and a time of the day. *)
Definition validDate (year month day : Z) : Prop :=
  (1 ≤ month ≤ 12 ∧ 1 ≤ day ≤ daysInMonth year month)%Z.

Definition validTime (hour minute second : Z) : Prop :=
  (0 ≤ hour ≤ 23 ∧ 0 ≤ minute ≤ 59 ∧ 0 ≤ second ≤ 59)%Z.

(** The year a text of the date grammar names: [Date] reads the years
    0 to 99 as 1900 to 1999. *)
Definition writtenYear (t : DateText) : Z :=
  match t with
  | DateOnly y _ _ | DateTime y _ _ _ _ _ _ => MakeFullYear (parseInt y)
  end.

(** The text names a day of the calendar and a time of that day. *)
Definition validDateText (t : DateText) : Prop :=
  match t with
  | DateOnly y mo d => validDate (writtenYear t) (parseInt mo) (parseInt d)
  | DateTime y mo d h mi se _ =>
      validDate (writtenYear t) (parseInt mo) (parseInt d) ∧
      validTime (parseInt h) (parseInt mi) (parseInt se)
  end.

(** The text has no trailing [Z]: it is read as local time. *)
Definition localDateText (t : DateText) : Prop :=
  match t with
  | DateOnly _ _ _ => True
  | DateTime _ _ _ _ _ _ utc => utc = false
  end.

(** The calendar with the events [group] in place of its own, as the
    page hands a selection of events on. *)
Definition withEvents (calendar : Calendar) (group : list Event) : Calendar :=
  {| headerLines := headerLines calendar; events := group;
     calendarProperties := calendarProperties calendar |}.

(** ** Sample inputs *)

(** The line of the defect: 76 high surrogates, none of them paired. *)
Definition surrogateRun : jsstring := replicate 76 0xD800%N.

(** A text from its lines, joined by line feeds. *)
Definition textOfLines (ls : list string) : jsstring :=
  join [LF] (lit <$> ls).

(** A to-do with an alarm in front of the only event. *)
Definition todoWithAlarm : jsstring :=
  textOfLines ["BEGIN:VCALENDAR"; "VERSION:2.0"; "BEGIN:VTODO"; "UID:t1";
               "BEGIN:VALARM"; "TRIGGER:-PT15M"; "END:VALARM"; "END:VTODO";
               "BEGIN:VEVENT"; "UID:e1"; "END:VEVENT"; "END:VCALENDAR"]%string.


(** A small calendar: two events, the first with a line to fold, an
    attachment and an alarm. *)
Definition sampleCalendar : jsstring :=
  textOfLines
    ["BEGIN:VCALENDAR"; "VERSION:2.0"; "PRODID:-//sample//EN";
     "BEGIN:VEVENT"; "UID:e1"; "DTSTART;TZID=Asia/Tokyo:20230615T090000";
     "SUMMARY:A summary long enough to be folded when written, well beyond the limit of 75 units";
     "ATTACH;ENCODING=BASE64:AAAA";
     "BEGIN:VALARM"; "TRIGGER:-PT15M"; "END:VALARM";
     "END:VEVENT";
     "BEGIN:VEVENT"; "UID:e2"; "DTSTART:20240101"; "END:VEVENT";
     "END:VCALENDAR"]%string.

(** A plain calendar with short lines: a header, two events, no alarm. *)
Definition plainHeader : list jsstring :=
  lit <$> ["BEGIN:VCALENDAR"; "VERSION:2.0"; "PRODID:-//sample//EN"]%string.

Definition plainBodies : list (list jsstring) :=
  [lit <$> ["UID:e1"; "DTSTART:20230615T090000Z"; "SUMMARY:First";
            "ATTACH;ENCODING=BASE64:AAAA"]%string;
   lit <$> ["UID:e2"; "DTSTART:20240101"]%string].

(** The same lines as a text with CRLF line ends, spaces behind the
    first event's summary and one blank line added. *)
Definition plainCalendar : jsstring :=
  join CRLF
    (lit <$> ["BEGIN:VCALENDAR"; "VERSION:2.0"; "PRODID:-//sample//EN"; "";
              "BEGIN:VEVENT"; "UID:e1"; "DTSTART:20230615T090000Z";
              "SUMMARY:First  "; "ATTACH;ENCODING=BASE64:AAAA"; "END:VEVENT";
              "BEGIN:VEVENT"; "UID:e2"; "DTSTART:20240101"; "END:VEVENT";
              "END:VCALENDAR"; ""]%string).

(** A calendar with short lines and an alarm inside its event. *)
Definition alarmCalendar : jsstring :=
  textOfLines ["BEGIN:VCALENDAR"; "VERSION:2.0";
               "BEGIN:VEVENT"; "UID:e1";
               "BEGIN:VALARM"; "TRIGGER:-PT15M"; "END:VALARM";
               "END:VEVENT"; "END:VCALENDAR"]%string.


(** A calendar with one event whose summary is a run of unpaired high
    surrogates. *)
Definition surrogateCalendar : jsstring :=
  join [LF] [lit "BEGIN:VCALENDAR"; lit "VERSION:2.0"; lit "BEGIN:VEVENT";
             lit "SUMMARY:" ++ surrogateRun; lit "END:VEVENT";
             lit "END:VCALENDAR"].

(** Three dated events and an undated one. *)
Definition datedCalendar : jsstring :=
  textOfLines
    ["BEGIN:VCALENDAR"; "VERSION:2.0";
     "BEGIN:VEVENT"; "UID:a"; "DTSTART:20230101"; "END:VEVENT";
     "BEGIN:VEVENT"; "UID:b"; "DTSTART;TZID=Asia/Tokyo:20230615T090000";
     "END:VEVENT";
     "BEGIN:VEVENT"; "UID:c"; "DTSTART:20240101T000000Z"; "END:VEVENT";
     "BEGIN:VEVENT"; "UID:d"; "END:VEVENT";
     "END:VCALENDAR"]%string.

(** Its events, by position. *)
Definition datedEvents (positions : list nat) : list Event :=
  omap (λ i, events (parse datedCalendar) !! i) positions.

(** A line of 88 units with forty emoji, each a surrogate pair. *)
Definition pairedLine : jsstring :=
  lit "SUMMARY:" ++ concat (replicate 40 [0xD83D; 0xDE00]%N).

(** A long line of ASCII text. *)
Definition longLine : jsstring :=
  lit "SUMMARY:A summary long enough to be folded when written, well beyond the limit of 75 units".

(** An event that sets its summary and its start twice. *)
Definition repeatedCalendar : jsstring :=
  textOfLines
    ["BEGIN:VCALENDAR"; "VERSION:2.0";
     "BEGIN:VEVENT"; "UID:r"; "DTSTART:20230101"; "SUMMARY;LANGUAGE=en:First";
     "DTSTART;TZID=Asia/Tokyo:20230615T090000"; "SUMMARY:Second";
     "END:VEVENT"; "END:VCALENDAR"]%string.

(** A calendar whose only event has an accented letter, U+00E9, in its
    summary. *)
Definition accentedCalendar : jsstring :=
  join [LF] [lit "BEGIN:VCALENDAR"; lit "VERSION:2.0"; lit "BEGIN:VEVENT";
             lit "SUMMARY:Caf" ++ [0xE9%N]; lit "END:VEVENT";
             lit "END:VCALENDAR"].

(** A calendar whose event holds a line [BEGIN:VCALENDAR]. *)
Definition calendarInsideEvent : jsstring :=
  textOfLines ["BEGIN:VCALENDAR"; "VERSION:2.0"; "BEGIN:VEVENT"; "UID:e1";
               "BEGIN:VCALENDAR"; "END:VEVENT"; "END:VCALENDAR"]%string.

(** * Part II: properties *)

(** ** Line folding *)

Arguments maxLenOf : simpl never.
Arguments shiftCut : simpl never.
Arguments isContinuationByte : simpl never.

Section FoldLine.

Implicit Types (remaining line chunk : jsstring) (result : list jsstring).

Lemma shiftCut_S remaining p :
  shiftCut remaining (S p)
  = if isContinuationByte remaining (S p) then shiftCut remaining p else S p.
Proof. reflexivity. Qed.

Lemma shiftCut_le remaining cutPos : shiftCut remaining cutPos ≤ cutPos.
Proof.
  induction cutPos as [|p IH]; [done|]. rewrite shiftCut_S.
  destruct (isContinuationByte remaining (S p)); lia.
Qed.

(** If the inner loop reaches [0] from [S p], it also does from [p]. *)
Lemma shiftCut_zero_pred remaining p :
  shiftCut remaining (S p) = 0 → shiftCut remaining p = 0.
Proof.
  rewrite shiftCut_S.
  destruct (isContinuationByte remaining (S p)); [done | lia].
Qed.

(** The accumulated segments are only ever appended to. *)
Lemma foldLoop_acc fuel result remaining isFirst :
  foldLoop fuel result remaining isFirst
  = (result ++.) <$> foldLoop fuel [] remaining isFirst.
Proof.
  revert result remaining isFirst.
  induction fuel as [|fuel IH]; intros result remaining isFirst; simpl; [done|].
  destruct (length remaining =? 0); simpl; [by rewrite app_nil_r|].
  destruct (length remaining <=? maxLenOf isFirst); simpl; [done|].
  rewrite (IH (result ++ _)), (IH [_]).
  rewrite <- option_fmap_compose. apply option_fmap_ext.
  intros l. simpl. by rewrite <- app_assoc.
Qed.

(** More fuel does not change a result. *)
Lemma foldLoop_mono fuel fuel' result remaining isFirst segs :
  foldLoop fuel result remaining isFirst = Some segs →
  fuel ≤ fuel' →
  foldLoop fuel' result remaining isFirst = Some segs.
Proof.
  revert fuel' result remaining isFirst.
  induction fuel as [|fuel IH]; intros fuel' result remaining isFirst; [done|].
  intros Hrun Hle. destruct fuel' as [|fuel']; [lia|].
  simpl in *.
  destruct (length remaining =? 0); [done|].
  destruct (length remaining <=? maxLenOf isFirst); [done|].
  apply IH; [done | lia].
Qed.

Lemma stuck_false remaining isFirst :
  stuck remaining isFirst → stuck remaining false.
Proof.
  intros [Hlen Hcut]. destruct isFirst; [|done].
  split; [unfold maxLenOf, MAX_LINE_LENGTH in *; lia|].
  by apply shiftCut_zero_pred.
Qed.

Lemma stuck_diverges_false fuel result remaining :
  stuck remaining false → foldLoop fuel result remaining false = None.
Proof.
  intros [Hlen Hcut]. revert result.
  induction fuel as [|fuel IH]; intros result; simpl; [done|].
  destruct (Nat.eqb_spec (length remaining) 0) as [E|_]; [lia|].
  destruct (Nat.leb_spec (length remaining) (maxLenOf false)); [lia|].
  rewrite Hcut. simpl. apply IH.
Qed.

Lemma stuck_diverges fuel result remaining isFirst :
  stuck remaining isFirst → foldLoop fuel result remaining isFirst = None.
Proof.
  intros Hst. destruct isFirst; [|by apply stuck_diverges_false].
  destruct Hst as [Hlen Hcut].
  destruct fuel as [|fuel]; simpl; [done|].
  destruct (Nat.eqb_spec (length remaining) 0) as [E|_]; [lia|].
  destruct (Nat.leb_spec (length remaining) (maxLenOf true)); [lia|].
  rewrite Hcut. simpl. apply stuck_diverges_false.
  apply (stuck_false _ true). by split.
Qed.

(** Running out of the fuel [foldLine] provides means that no amount of
    fuel lets the loop exit. *)
Lemma foldLoop_adequate fuel result remaining isFirst :
  length remaining < fuel →
  foldLoop fuel result remaining isFirst = None →
  ∀ fuel', foldLoop fuel' result remaining isFirst = None.
Proof.
  revert result remaining isFirst.
  induction fuel as [|fuel IH]; intros result remaining isFirst Hlen Hrun;
    [lia|].
  simpl in Hrun.
  destruct (Nat.eqb_spec (length remaining) 0) as [E|Hne]; [done|].
  destruct (Nat.leb_spec (length remaining) (maxLenOf isFirst)) as [|Hlong];
    [done|].
  destruct (shiftCut remaining (maxLenOf isFirst)) as [|cut] eqn:Hcut.
  - intros fuel'. by apply stuck_diverges.
  - intros [|fuel']; simpl; [done|].
    destruct (Nat.eqb_spec (length remaining) 0); [lia|].
    destruct (Nat.leb_spec (length remaining) (maxLenOf isFirst)); [lia|].
    rewrite Hcut. apply IH; [|done].
    rewrite length_drop. lia.
Qed.

Lemma foldLine_None_diverges line :
  foldLine line = None →
  MAX_LINE_LENGTH < length line ∧
  ∀ fuel, foldLoop fuel [] line true = None.
Proof.
  unfold foldLine.
  destruct (Nat.leb_spec (length line) MAX_LINE_LENGTH); [done|].
  intros Hrun. split; [done|].
  apply (foldLoop_adequate (S (length line))); [lia|].
  by destruct (foldLoop _ _ _ _).
Qed.

End FoldLine.

(** ** Lines on which folding returns *)

Section FoldLineReturns.

Implicit Types (remaining line chunk : jsstring) (result : list jsstring).

Lemma noAdjacentHigh_lookup s i c d :
  noAdjacentHigh s = true → s !! i = Some c → s !! S i = Some d →
  isHighSurrogate c = true → isHighSurrogate d = true → False.
Proof.
  revert i. induction s as [|a s IH]; intros i Hs Hc Hd Hhc Hhd; [done|].
  destruct s as [|b s]; [by destruct i|].
  cbn [noAdjacentHigh] in Hs. apply andb_true_iff in Hs as [Hab Hs].
  destruct i as [|i]; simpl in Hc, Hd.
  - simplify_eq. by rewrite Hhc, Hhd in Hab.
  - by eapply (IH i).
Qed.

Lemma noAdjacentHigh_drop s n :
  noAdjacentHigh s = true → noAdjacentHigh (drop n s) = true.
Proof.
  revert s. induction n as [|n IH]; intros s Hs; [by rewrite drop_0|].
  destruct s as [|a s]; [done|]. simpl. apply IH.
  destruct s as [|b s]; [done|].
  cbn [noAdjacentHigh] in Hs. by apply andb_true_iff in Hs as [_ Hs].
Qed.

Lemma isContinuationByte_true str pos :
  isContinuationByte str pos = true →
  0 < pos ∧ ∃ c, str !! (pos - 1) = Some c ∧ isHighSurrogate c = true.
Proof.
  unfold isContinuationByte.
  destruct (Nat.leb_spec pos 0); [done|].
  destruct (length str <=? pos); [done|]. simpl.
  destruct (str !! (pos - 1)) as [c|]; [|done]. eauto with lia.
Qed.

(** Without adjacent high surrogates the cut moves back at most once. *)
Lemma shiftCut_noAdjacentHigh remaining p :
  noAdjacentHigh remaining = true → p ≤ S (shiftCut remaining p).
Proof.
  intros Hs. destruct p as [|[|p]]; [lia| |].
  - rewrite shiftCut_S. destruct (isContinuationByte remaining 1); simpl; lia.
  - rewrite shiftCut_S.
    destruct (isContinuationByte remaining (S (S p))) eqn:H2; [|lia].
    rewrite shiftCut_S.
    destruct (isContinuationByte remaining (S p)) eqn:H1; [|lia].
    apply isContinuationByte_true in H2 as [_ (d & Hd & Hhd)].
    apply isContinuationByte_true in H1 as [_ (c & Hc & Hhc)].
    simpl in Hc, Hd. replace (p - 0) with p in Hc by lia.
    exfalso. by apply (noAdjacentHigh_lookup remaining p c d).
Qed.

Lemma foldLoop_returns fuel result remaining isFirst :
  noAdjacentHigh remaining = true →
  length remaining < fuel →
  is_Some (foldLoop fuel result remaining isFirst).
Proof.
  revert result remaining isFirst.
  induction fuel as [|fuel IH]; intros result remaining isFirst Hs Hlen; [lia|].
  simpl.
  destruct (length remaining =? 0); [done|].
  destruct (Nat.leb_spec (length remaining) (maxLenOf isFirst)) as [|Hlong];
    [done|].
  apply IH; [by apply noAdjacentHigh_drop|].
  rewrite length_drop.
  pose proof (shiftCut_noAdjacentHigh remaining (maxLenOf isFirst) Hs).
  destruct isFirst; unfold maxLenOf, MAX_LINE_LENGTH in *; lia.
Qed.

(** [foldLine] returns on every line without adjacent high surrogates. *)
Lemma foldLine_returns line :
  noAdjacentHigh line = true → is_Some (foldLine line).
Proof.
  intros Hs. unfold foldLine.
  destruct (length line <=? MAX_LINE_LENGTH); [done|].
  apply fmap_is_Some, foldLoop_returns; [done | lia].
Qed.

(** What the loop returns, when it returns: the chunks are consecutive
    pieces of [remaining], within the bounds, none of them empty. *)
Lemma foldLoop_segments fuel remaining isFirst segs :
  foldLoop fuel [] remaining isFirst = Some segs →
  ∃ chunks,
    segs = segmentsOf isFirst chunks ∧
    concat chunks = remaining ∧
    chunkBounds isFirst chunks ∧
    Forall (λ c, c ≠ []) chunks.
Proof.
  revert remaining isFirst segs.
  induction fuel as [|fuel IH]; intros remaining isFirst segs Hrun; [done|].
  simpl in Hrun.
  destruct (Nat.eqb_spec (length remaining) 0) as [E|Hne].
  { exists []. apply nil_length_inv in E. by simplify_eq. }
  destruct (Nat.leb_spec (length remaining) (maxLenOf isFirst)) as [Hle|Hlong].
  { exists [remaining]. simplify_eq. simpl. rewrite app_nil_r.
    repeat split; [done | by constructor |].
    constructor; [|done]. by destruct remaining. }
  rewrite foldLoop_acc in Hrun.
  destruct (foldLoop fuel [] _ false) as [segs'|] eqn:Hrest; [|done].
  simpl in Hrun. simplify_eq.
  destruct (shiftCut remaining (maxLenOf isFirst)) as [|cut] eqn:Hcut.
  { rewrite drop_0 in Hrest.
    rewrite (stuck_diverges_false fuel [] remaining) in Hrest; [done|].
    apply (stuck_false _ isFirst). by split. }
  apply IH in Hrest as (chunks & -> & Hcat & Hbound & Hne').
  exists (take (S cut) remaining :: chunks).
  pose proof (shiftCut_le remaining (maxLenOf isFirst)) as Hcutle.
  repeat split.
  - unfold substring. rewrite Nat.sub_0_r, drop_0.
    destruct chunks; [done|]. by destruct isFirst.
  - simpl. rewrite Hcat. apply take_drop.
  - rewrite length_take. lia.
  - destruct chunks as [|c cs]; [done|]. destruct Hbound as [Hc Hcs].
    constructor; [|done]. unfold maxLenOf in Hc. done.
  - constructor; [|done]. destruct remaining; [done|]. done.
Qed.

End FoldLineReturns.

(** ** Unfolding a folded line *)

Section Unfold.

Implicit Types (a b s : jsstring) (chunks : list jsstring).

Lemma replaceCRLF_cons c s :
  c ≠ CR → replaceCRLF (c :: s) = c :: replaceCRLF s.
Proof.
  intros Hc. simpl. destruct s as [|d s]; [done|].
  by destruct (N.eqb_spec c CR).
Qed.

Lemma replaceCRLF_app a b :
  Forall (λ c, c ≠ CR) a → replaceCRLF (a ++ b) = a ++ replaceCRLF b.
Proof.
  induction 1 as [|c a Hc _ IH]; [done|].
  rewrite <- app_comm_cons, replaceCRLF_cons by done. by rewrite IH.
Qed.

Lemma replaceCR_id a : Forall (λ c, c ≠ CR) a → replaceCR a = a.
Proof.
  unfold replaceCR. induction 1 as [|c a Hc _ IH]; [done|].
  rewrite fmap_cons, IH. by destruct (N.eqb_spec c CR).
Qed.

Lemma removeFolds_cons c s :
  c ≠ LF → removeFolds (c :: s) = c :: removeFolds s.
Proof.
  intros Hc. simpl. destruct s as [|d s]; [done|].
  by destruct (N.eqb_spec c LF).
Qed.

Lemma removeFolds_app a b :
  Forall (λ c, c ≠ LF) a → removeFolds (a ++ b) = a ++ removeFolds b.
Proof.
  induction 1 as [|c a Hc _ IH]; [done|].
  rewrite <- app_comm_cons, removeFolds_cons by done. by rewrite IH.
Qed.

Lemma noLineBreak_noCR s : noLineBreak s → Forall (λ c, c ≠ CR) s.
Proof. intros H. eapply Forall_impl; [exact H | by intros c [? ?]]. Qed.

Lemma noLineBreak_noLF s : noLineBreak s → Forall (λ c, c ≠ LF) s.
Proof. intros H. eapply Forall_impl; [exact H | by intros c [? ?]]. Qed.

Lemma replaceCRLF_continuations chunks :
  Forall noLineBreak chunks →
  replaceCRLF (continuations CRLF chunks) = continuations [LF] chunks.
Proof.
  unfold continuations.
  induction 1 as [|c chunks Hc _ IH]; [done|].
  rewrite !fmap_cons, !concat_cons.
  change (CRLF ++ SPACE :: c) with (CR :: LF :: SPACE :: c).
  rewrite <- !app_comm_cons.
  change (replaceCRLF (CR :: LF :: ?s)) with (LF :: replaceCRLF s).
  rewrite replaceCRLF_cons by done.
  rewrite replaceCRLF_app by (by apply noLineBreak_noCR).
  by rewrite IH.
Qed.

Lemma continuations_noCR chunks :
  Forall noLineBreak chunks → Forall (λ c, c ≠ CR) (continuations [LF] chunks).
Proof.
  unfold continuations.
  induction 1 as [|c chunks Hc _ IH]; [constructor|].
  rewrite fmap_cons, concat_cons. simpl.
  repeat (constructor; [done|]).
  apply Forall_app. split; [by apply noLineBreak_noCR | done].
Qed.

Lemma removeFolds_continuations chunks :
  Forall noLineBreak chunks →
  removeFolds (continuations [LF] chunks) = concat chunks.
Proof.
  unfold continuations.
  induction 1 as [|c chunks Hc _ IH]; [done|].
  rewrite !fmap_cons, !concat_cons.
  change ([LF] ++ SPACE :: c) with (LF :: SPACE :: c).
  rewrite <- !app_comm_cons.
  change (removeFolds (LF :: SPACE :: ?s)) with (removeFolds s).
  rewrite removeFolds_app by (by apply noLineBreak_noLF). by rewrite IH.
Qed.

Lemma join_cons_cons sep (p q : jsstring) ps :
  join sep (p :: q :: ps) = p ++ sep ++ join sep (q :: ps).
Proof. reflexivity. Qed.

Lemma join_segmentsOf first chunks :
  join CRLF (segmentsOf true (first :: chunks))
  = first ++ continuations CRLF chunks.
Proof.
  cbn [segmentsOf segment]. revert first.
  induction chunks as [|c chunks IH]; intros first.
  - simpl. by rewrite app_nil_r.
  - rewrite fmap_cons, join_cons_cons, IH. unfold continuations.
    rewrite fmap_cons, concat_cons. by rewrite <- !app_assoc.
Qed.

(** Unfolding (the parser's first two steps) undoes the folding. *)
Lemma unfold_segments first chunks :
  noLineBreak first → Forall noLineBreak chunks →
  unfoldedContent (join CRLF (segmentsOf true (first :: chunks)))
  = first ++ concat chunks.
Proof.
  intros Hfirst Hchunks.
  rewrite join_segmentsOf. unfold unfoldedContent, normalizedContent.
  rewrite replaceCRLF_app by (by apply noLineBreak_noCR).
  rewrite replaceCRLF_continuations by done.
  rewrite replaceCR_id.
  - rewrite removeFolds_app by (by apply noLineBreak_noLF).
    by rewrite removeFolds_continuations.
  - apply Forall_app. split;
      [by apply noLineBreak_noCR | by apply continuations_noCR].
Qed.

Lemma unfold_single line :
  noLineBreak line → unfoldedContent line = line.
Proof.
  intros Hl. unfold unfoldedContent, normalizedContent.
  rewrite <- (app_nil_r line) at 1.
  rewrite replaceCRLF_app by (by apply noLineBreak_noCR). simpl.
  rewrite app_nil_r, replaceCR_id by (by apply noLineBreak_noCR).
  rewrite <- (app_nil_r line) at 1.
  rewrite removeFolds_app by (by apply noLineBreak_noLF).
  apply app_nil_r.
Qed.

Lemma noLineBreak_concat_inv chunks :
  noLineBreak (concat chunks) → Forall noLineBreak chunks.
Proof.
  induction chunks as [|c chunks IH]; [constructor|].
  simpl. intros [Hc Hcs]%Forall_app. constructor; auto.
Qed.

End Unfold.

Section FoldLineSummary.

Lemma foldLine_short line :
  length line ≤ MAX_LINE_LENGTH → foldLine line = Some line.
Proof.
  intros Hlen. unfold foldLine.
  by destruct (Nat.leb_spec (length line) MAX_LINE_LENGTH); [|lia].
Qed.

(** The folded form of a long line, whenever [foldLine] returns. *)
Lemma foldLine_long line out :
  MAX_LINE_LENGTH < length line → foldLine line = Some out →
  ∃ first rest,
    out = join CRLF (first :: ((SPACE ::.) <$> rest)) ∧
    first ++ concat rest = line ∧
    first ≠ [] ∧ length first ≤ MAX_LINE_LENGTH ∧
    Forall (λ c, c ≠ [] ∧ length c ≤ MAX_LINE_LENGTH - 1) rest.
Proof.
  intros Hlen. unfold foldLine.
  destruct (Nat.leb_spec (length line) MAX_LINE_LENGTH); [lia|].
  destruct (foldLoop _ _ _ _) as [segs|] eqn:Hrun; [|done].
  intros [= <-].
  apply foldLoop_segments in Hrun as (chunks & -> & Hcat & Hbound & Hne).
  destruct chunks as [|first rest].
  { simpl in Hcat. subst line. simpl in *. lia. }
  exists first, rest. destruct Hbound as [Hfirst Hrest].
  apply Forall_cons in Hne as [Hne1 Hne].
  repeat split; try done.
  apply Forall_forall. intros c Hc. split.
  - by eapply Forall_forall in Hne.
  - by eapply Forall_forall in Hrest.
Qed.

(** Folding then unfolding gives the line back, whenever [foldLine]
    returns. *)
Lemma foldLine_unfold line out :
  noLineBreak line → foldLine line = Some out → unfoldedContent out = line.
Proof.
  intros Hnl Hfold.
  destruct (Nat.le_gt_cases (length line) MAX_LINE_LENGTH) as [Hle|Hgt].
  - rewrite foldLine_short in Hfold by done. simplify_eq.
    by apply unfold_single.
  - destruct (foldLine_long line out Hgt Hfold)
      as (first & rest & -> & Hcat & _).
    subst line. apply Forall_app in Hnl as [Hf Hr].
    apply (unfold_segments first rest); [done|].
    by apply noLineBreak_concat_inv.
Qed.

End FoldLineSummary.

(** C10 (the code does not do this).  The claim is that [foldLine]
    terminates on every string because the cut position is at least 1 in
    each iteration.  On a line of 76 unpaired high surrogates the inner
    loop moves the cut position from 75 down to 0: the chunk is empty,
    [remaining] is unchanged, and no number of iterations lets the loop
    exit. *)
Theorem foldLine_cut_position_reaches_zero :
  shiftCut surrogateRun (maxLenOf true) = 0 ∧
  drop (shiftCut surrogateRun (maxLenOf true)) surrogateRun = surrogateRun ∧
  ∀ fuel, foldLoop fuel [] surrogateRun true = None.
Proof.
  assert (shiftCut surrogateRun (maxLenOf true) = 0) as Hcut
    by (vm_compute; reflexivity).
  split; [done|]. split; [by rewrite Hcut|].
  intros fuel. apply stuck_diverges. split; [|done].
  vm_compute. lia.
Qed.

(** C2 (the code does not do this).  The claim promises, for every line
    longer than 75 units, a first segment and continuation segments that
    unfold to the line.  [surrogateRun] is such a line (76 units, no line
    break) and [foldLine] returns nothing for it; the defect is the one
    of C10. *)
Theorem foldLine_no_segments_for_surrogateRun :
  MAX_LINE_LENGTH < length surrogateRun ∧
  noLineBreak surrogateRun ∧
  foldLine surrogateRun = None.
Proof.
  split; [vm_compute; lia|]. split; [|by vm_compute].
  apply (bool_decide_unpack _). by vm_compute.
Qed.

(** ** Dates: the grammar [parseICalDate] accepts *)

Section DateGrammar.

Context `{Host}.
Implicit Types (s a b : jsstring) (t : DateText).

Lemma isDigit_spec c : isDigit c = true ↔ (48 ≤ c ≤ 57)%N.
Proof. unfold isDigit. rewrite andb_true_iff, !N.leb_le. tauto. Qed.

Lemma takeDigits_Some n s a b :
  takeDigits n s = Some (a, b) ↔ s = a ++ b ∧ digits n a.
Proof.
  unfold takeDigits, digits. split.
  - destruct (Nat.leb_spec n (length s)) as [Hn|]; [|done]. simpl.
    destruct (forallb isDigit (take n s)) eqn:Hd; [|done].
    intros [= <- <-]. rewrite take_drop, length_take.
    split; [done|]. split; [lia|].
    apply Forall_forall. intros c Hc. apply isDigit_spec.
    rewrite forallb_forall in Hd. apply Hd. by apply list_elem_of_In.
  - intros (-> & <- & Hd).
    rewrite length_app, take_app_length, drop_app_length.
    destruct (Nat.leb_spec (length a) (length a + length b)); [|lia]. simpl.
    assert (forallb isDigit a = true) as ->; [|done].
    apply forallb_forall. intros c Hc. apply isDigit_spec.
    rewrite Forall_forall in Hd. apply Hd. by apply list_elem_of_In.
Qed.

Lemma takeDigits_app n a b : digits n a → takeDigits n (a ++ b) = Some (a, b).
Proof. intros Hd. by apply takeDigits_Some. Qed.

Lemma digits_not_T n a c s : digits n a → a = c :: s → c ≠ LETTER_T.
Proof.
  intros [_ Hd] ->. apply Forall_cons in Hd as [Hc _].
  unfold LETTER_T. lia.
Qed.

(** The regular expression matches exactly the texts of the grammar. *)
Lemma matchDate_spec s m :
  matchDate s = Some m ↔
  ∃ t, wellFormedDateText t ∧ s = textOf t ∧ m = groupsOf t.
Proof.
  unfold matchDate. split.
  - destruct (takeDigits 4 s) as [[y s1]|] eqn:Hy; [|done]. simpl.
    destruct (takeDigits 2 s1) as [[mo s2]|] eqn:Hmo; [|done]. simpl.
    destruct (takeDigits 2 s2) as [[d s3]|] eqn:Hd; [|done]. simpl.
    apply takeDigits_Some in Hy as [-> Hy].
    apply takeDigits_Some in Hmo as [-> Hmo].
    apply takeDigits_Some in Hd as [-> Hd].
    destruct s3 as [|c s3].
    { intros [= <-]. exists (DateOnly y mo d). simpl.
      by rewrite app_nil_r. }
    destruct (N.eqb_spec c LETTER_T) as [->|]; [|done].
    destruct (takeDigits 2 s3) as [[h s4]|] eqn:Hh; [|done]. simpl.
    destruct (takeDigits 2 s4) as [[mi s5]|] eqn:Hmi; [|done]. simpl.
    destruct (takeDigits 2 s5) as [[se s6]|] eqn:Hse; [|done]. simpl.
    apply takeDigits_Some in Hh as [-> Hh].
    apply takeDigits_Some in Hmi as [-> Hmi].
    apply takeDigits_Some in Hse as [-> Hse].
    destruct s6 as [|z [|? ?]]; [| |done].
    + intros [= <-]. by exists (DateTime y mo d h mi se false).
    + destruct (N.eqb_spec z LETTER_Z) as [->|]; [|done].
      intros [= <-]. by exists (DateTime y mo d h mi se true).
  - intros (t & Hwf & -> & ->). destruct t as [y mo d|y mo d h mi se utc];
      simpl in Hwf.
    + destruct Hwf as (Hy & Hmo & Hd). simpl.
      rewrite takeDigits_app by done. simpl.
      rewrite takeDigits_app by done. simpl.
      rewrite <- (app_nil_r d) at 1.
      by rewrite takeDigits_app by done.
    + destruct Hwf as (Hy & Hmo & Hd & Hh & Hmi & Hse). simpl.
      rewrite takeDigits_app by done. simpl.
      rewrite takeDigits_app by done. simpl.
      rewrite takeDigits_app by done. simpl.
      rewrite ?N.eqb_refl.
      rewrite takeDigits_app by done. simpl.
      rewrite takeDigits_app by done. simpl.
      rewrite takeDigits_app by done. simpl.
      by destruct utc.
Qed.

Lemma digits_noLineTerminator n a : digits n a → noLineTerminator a.
Proof.
  intros [_ Hd]. eapply Forall_impl; [exact Hd|].
  intros c Hc. simpl in Hc. unfold isLineTerminator.
  repeat (apply orb_false_iff; split); apply N.eqb_neq; lia.
Qed.

Lemma digits_noColon n a : digits n a → Forall (λ c, c ≠ COLON) a.
Proof.
  intros [_ Hd]. eapply Forall_impl; [exact Hd|].
  intros c Hc. simpl in Hc. unfold COLON. lia.
Qed.

Lemma textOf_noLineTerminator t :
  wellFormedDateText t → noLineTerminator (textOf t).
Proof.
  unfold noLineTerminator.
  destruct t as [y mo d|y mo d h mi se utc]; simpl.
  - intros (Hy & Hmo & Hd).
    rewrite !Forall_app. repeat split; try (by eapply digits_noLineTerminator).
  - intros (Hy & Hmo & Hd & Hh & Hmi & Hse).
    repeat (rewrite Forall_app || rewrite Forall_cons).
    repeat split; try (by eapply digits_noLineTerminator); try done.
    destruct utc; by repeat constructor.
Qed.

Lemma textOf_noColon t :
  wellFormedDateText t → Forall (λ c, c ≠ COLON) (textOf t).
Proof.
  destruct t as [y mo d|y mo d h mi se utc]; simpl.
  - intros (Hy & Hmo & Hd).
    rewrite !Forall_app. repeat split; try (by eapply digits_noColon).
  - intros (Hy & Hmo & Hd & Hh & Hmi & Hse).
    repeat (rewrite Forall_app || rewrite Forall_cons).
    repeat split; try (by eapply digits_noColon); try done.
    destruct utc; by repeat constructor.
Qed.

Lemma textOf_nonempty t : wellFormedDateText t → textOf t ≠ [].
Proof.
  destruct t as [y mo d|y mo d h mi se utc]; simpl.
  - intros ([Hy _] & _). by destruct y.
  - intros ([Hy _] & _). by destruct y.
Qed.

End DateGrammar.

(** ** Dates: the prefix [parseICalDate] strips *)

Section DatePrefix.

Implicit Types (s : jsstring).

Lemma firstLine_noLineTerminator s : noLineTerminator (firstLine s).
Proof.
  induction s as [|c s IH]; simpl; [constructor|].
  destruct (isLineTerminator c) eqn:Hc; by constructor.
Qed.

Lemma firstLine_id s : noLineTerminator s → firstLine s = s.
Proof.
  induction 1 as [|c s Hc _ IH]; simpl; [done|]. by rewrite Hc, IH.
Qed.

(** What follows the first line starts with a line terminator. *)
Lemma firstLine_rest s :
  ∃ rest, s = firstLine s ++ rest ∧ (noLineTerminator rest → rest = []).
Proof.
  induction s as [|c s (rest & Hs & Hrest)]; simpl.
  - by exists [].
  - destruct (isLineTerminator c) eqn:Hc.
    + exists (c :: s). split; [done|].
      intros [Hc' _]%Forall_cons. congruence.
    + exists rest. split; [|done]. simpl. by f_equal.
Qed.

Lemma lastIndexOf_lt c s i : lastIndexOf c s = Some i → i < length s.
Proof.
  revert i. induction s as [|d s IH]; intros i; simpl; [done|].
  destruct (lastIndexOf c s) as [j|].
  - intros [= <-]. specialize (IH j eq_refl). lia.
  - destruct (d =? c)%N; [|done]. intros [= <-]. lia.
Qed.

Lemma cleanDateStr_noLineTerminator s :
  noLineTerminator s → cleanDateStr s = afterFinalColon s.
Proof.
  intros Hs. unfold cleanDateStr, afterFinalColon. by rewrite firstLine_id.
Qed.

(** The stripping never removes a line terminator: the dot of the
    regular expression does not match one. *)
Lemma cleanDateStr_noLineTerminator_inv s :
  noLineTerminator (cleanDateStr s) → noLineTerminator s.
Proof.
  unfold cleanDateStr.
  destruct (firstLine_rest s) as (rest & Hs & Hrest).
  pose proof (firstLine_noLineTerminator s) as Hfirst.
  destruct (lastIndexOf COLON (firstLine s)) as [i|] eqn:Hi; [|done].
  apply lastIndexOf_lt in Hi.
  remember (firstLine s) as first eqn:E. clear E. subst s.
  rewrite drop_app_le by lia.
  intros [_ Hr]%Forall_app. by rewrite (Hrest Hr), app_nil_r.
Qed.

End DatePrefix.

(** C8 (as amended).  [parseICalDate] returns a date exactly when the
    string holds no line terminator and, after the prefix up to and
    including its final colon is stripped, is a text of the grammar
    [YYYYMMDD[THHMMSS[Z]]]; every other string yields nothing, never an
    error.  The date returned is the one the text stands for: midnight
    for a date-only text, UTC with a trailing [Z], local time without. *)
Theorem parseICalDate_accepts_grammar `{Host} (dateStr : jsstring) (date : Date) :
  parseICalDate dateStr = Some date ↔
  noLineTerminator dateStr ∧
  ∃ t, wellFormedDateText t ∧ afterFinalColon dateStr = textOf t ∧
       date = dateOf t.
Proof.
  assert (∀ t, wellFormedDateText t →
            (if bool_decide (m8 (groupsOf t) = Some [LETTER_Z])
             then Some (DateUTC (parseInt (m1 (groupsOf t)))
                          (parseInt (m2 (groupsOf t)) - 1)
                          (parseInt (m3 (groupsOf t)))
                          (groupOrZero (m5 (groupsOf t)))
                          (groupOrZero (m6 (groupsOf t)))
                          (groupOrZero (m7 (groupsOf t))))
             else Some (DateLocal (parseInt (m1 (groupsOf t)))
                          (parseInt (m2 (groupsOf t)) - 1)
                          (parseInt (m3 (groupsOf t)))
                          (groupOrZero (m5 (groupsOf t)))
                          (groupOrZero (m6 (groupsOf t)))
                          (groupOrZero (m7 (groupsOf t)))))
            = Some (dateOf t)) as Hdate.
  { intros [y mo d|y mo d h mi se utc]; simpl; [done|].
    intros (_ & _ & _ & [Hh _] & [Hmi _] & [Hse _]).
    destruct h, mi, se; try done. by destruct utc. }
  unfold parseICalDate. split.
  - destruct (truthy dateStr) eqn:Hne; [|done]. simpl.
    destruct (matchDate (cleanDateStr dateStr)) as [m|] eqn:Hm; [|done].
    apply matchDate_spec in Hm as (t & Hwf & Hclean & ->).
    cbv zeta. rewrite (Hdate t Hwf). intros [= <-].
    assert (noLineTerminator dateStr) as Hnlt.
    { apply cleanDateStr_noLineTerminator_inv. rewrite Hclean.
      by apply textOf_noLineTerminator. }
    split; [done|]. exists t.
    by rewrite <- cleanDateStr_noLineTerminator.
  - intros (Hnlt & t & Hwf & Hclean & ->).
    destruct dateStr as [|c dateStr].
    { by destruct (textOf_nonempty t Hwf). }
    simpl truthy. simpl negb. cbv iota.
    rewrite cleanDateStr_noLineTerminator, Hclean by done.
    assert (matchDate (textOf t) = Some (groupsOf t)) as ->
      by (apply matchDate_spec; eauto).
    cbv zeta. by apply Hdate.
Qed.

(** C8 (as stated) fails: a line feed before the colon.  What follows
    the final colon is a date of the grammar, and nothing is returned. *)
Lemma parseICalDate_line_feed_before_colon :
  @parseICalDate plainHost (LF :: COLON :: lit "20240101") = None ∧
  wellFormedDateText (DateOnly (lit "2024") (lit "01") (lit "01")) ∧
  afterFinalColon (LF :: COLON :: lit "20240101")
  = textOf (DateOnly (lit "2024") (lit "01") (lit "01")).
Proof.
  split; [by vm_compute|]. split; [|by vm_compute].
  unfold wellFormedDateText, digits.
  repeat split; try (by vm_compute);
    repeat constructor; by vm_compute.
Qed.

(** ** Selecting events by date range *)

Section DateRange.

Context `{Host}.
Implicit Types (events : list Event) (startDate endDate : option Date).

(** The test of the filter decides [keptByRange]. *)
Lemma keptByRange_test startDate endDate event :
  dateRangeTest startDate endDate event = true
  ↔ keptByRange startDate endDate event.
Proof.
  unfold dateRangeTest, keptByRange, withinBounds, beforeStart, afterEnd.
  destruct (getEventDate event) as [date|]; [|by intuition].
  split.
  - intros Htest. right. exists date. split; [done|].
    destruct startDate as [s|], endDate as [e|];
      repeat match type of Htest with
             | context [(?a <? ?b)%Z] => destruct (Z.ltb_spec a b)
             end; try done;
      (split; [intros ? [= <-] | intros ? [= <-]]); lia.
  - intros [|(date' & [= <-] & Hs & He)]; [done|].
    destruct startDate as [s|], endDate as [e|];
      try specialize (Hs _ eq_refl); try specialize (He _ eq_refl);
      repeat match goal with
             | |- context [(?a <? ?b)%Z] => destruct (Z.ltb_spec a b)
             end; try done; lia.
Qed.

End DateRange.

(** C6.  [filterByDateRange] keeps an event if and only if it has no
    parsable date or its date lies within the bounds, both inclusive, an
    absent bound not bounding; the events kept stay in their original
    order (the result is a sub-list, and it is obtained element by
    element: what a kept or dropped event contributes does not depend on
    the events around it). *)
Theorem filterByDateRange_keeps_in_range `{Host} (events : list Event)
    (startDate endDate : option Date) :
  (∀ event, event ∈ filterByDateRange events startDate endDate ↔
            event ∈ events ∧ keptByRange startDate endDate event) ∧
  sublist (filterByDateRange events startDate endDate) events ∧
  (∀ before event after, events = before ++ event :: after →
     ∃ here,
       filterByDateRange events startDate endDate
       = filterByDateRange before startDate endDate ++ here
         ++ filterByDateRange after startDate endDate ∧
       (keptByRange startDate endDate event → here = [event]) ∧
       (¬ keptByRange startDate endDate event → here = [])).
Proof.
  unfold filterByDateRange. split; [|split].
  - intros event.
    rewrite list_elem_of_In, filter_In, <- list_elem_of_In.
    by rewrite keptByRange_test.
  - induction events as [|event events IH]; simpl; [constructor|].
    destruct (dateRangeTest startDate endDate event); by constructor.
  - intros before event after ->.
    rewrite List.filter_app. simpl.
    pose proof (keptByRange_test startDate endDate event) as Htest.
    destruct (dateRangeTest startDate endDate event).
    + exists [event]. split; [done|]. split; [done|].
      intros Hnot. destruct Hnot. by apply Htest.
    + exists []. split; [done|]. split; [|done].
      intros Hkept. apply Htest in Hkept. done.
Qed.

(** ** Splitting events by year *)

Section ByYear.

Context `{Host}.
Implicit Types (events bucket : list Event) (byYear : gmap YearKey (list Event)).

Lemma addToYear_insert byYear event :
  addToYear byYear event
  = <[yearOf event := default [] (byYear !! yearOf event) ++ [event]]> byYear.
Proof.
  unfold addToYear. destruct (byYear !! yearOf event) as [bucket|] eqn:E.
  - by rewrite E.
  - by rewrite lookup_insert_eq, insert_insert_eq.
Qed.

Lemma eventsOfYear_cons year event events :
  eventsOfYear year (event :: events)
  = if decide (yearOf event = year)
    then event :: eventsOfYear year events else eventsOfYear year events.
Proof.
  unfold eventsOfYear. simpl.
  destruct (decide (yearOf event = year)).
  - by rewrite bool_decide_eq_true_2.
  - by rewrite bool_decide_eq_false_2.
Qed.

(** The bucket of a year after the loop: what it held, then the events
    of that year in their order; buckets exist only where needed. *)
Lemma foldl_addToYear_lookup events byYear year :
  foldl addToYear byYear events !! year
  = match byYear !! year, eventsOfYear year events with
    | None, [] => None
    | o, l => Some (default [] o ++ l)
    end.
Proof.
  revert byYear. induction events as [|event events IH]; intros byYear.
  - simpl. destruct (byYear !! year); simpl; [|done]. by rewrite app_nil_r.
  - cbn [foldl]. rewrite IH, addToYear_insert, eventsOfYear_cons.
    destruct (decide (yearOf event = year)) as [<-|Hne].
    + rewrite lookup_insert_eq. simpl.
      destruct (byYear !! yearOf event); simpl;
        by rewrite <- ?app_assoc.
    + by rewrite lookup_insert_ne.
Qed.

Lemma concat_Permutation (ls ls' : list (list Event)) :
  ls ≡ₚ ls' → concat ls ≡ₚ concat ls'.
Proof.
  induction 1 as [|l ls ls' _ IH|l1 l2 ls|ls1 ls2 ls3 _ IH1 _ IH2]; simpl.
  - done.
  - by rewrite IH.
  - rewrite !app_assoc. f_equiv. apply Permutation_app_comm.
  - by etrans.
Qed.

#[local] Instance concat_Permutation_proper :
  Proper ((≡ₚ) ==> (≡ₚ)) (@concat Event).
Proof. exact concat_Permutation. Qed.

Lemma addToYear_buckets byYear event :
  concat (snd <$> map_to_list (addToYear byYear event))
  ≡ₚ concat (snd <$> map_to_list byYear) ++ [event].
Proof.
  rewrite addToYear_insert.
  destruct (byYear !! yearOf event) as [bucket|] eqn:E; simpl.
  - rewrite <- insert_delete_eq.
    rewrite map_to_list_insert by apply lookup_delete_eq.
    rewrite <- (map_to_list_delete byYear _ _ E).
    simpl. rewrite <- !app_assoc. f_equiv. apply Permutation_app_comm.
  - rewrite map_to_list_insert by done.
    simpl. apply Permutation_cons_append.
Qed.

Lemma foldl_addToYear_buckets events byYear :
  concat (snd <$> map_to_list (foldl addToYear byYear events))
  ≡ₚ concat (snd <$> map_to_list byYear) ++ events.
Proof.
  revert byYear. induction events as [|event events IH]; intros byYear; simpl.
  - by rewrite app_nil_r.
  - rewrite IH, addToYear_buckets. by rewrite <- app_assoc.
Qed.

Lemma splitByYear_lookup events year :
  splitByYear events !! year
  = match eventsOfYear year events with
    | [] => None
    | l => Some l
    end.
Proof.
  unfold splitByYear. rewrite foldl_addToYear_lookup, lookup_empty.
  by destruct (eventsOfYear year events).
Qed.

Lemma elem_of_eventsOfYear year events event :
  event ∈ eventsOfYear year events ↔ event ∈ events ∧ yearOf event = year.
Proof.
  unfold eventsOfYear.
  rewrite list_elem_of_In, filter_In, <- list_elem_of_In.
  by rewrite bool_decide_eq_true.
Qed.

End ByYear.

(** C7.  The buckets of [splitByYear] partition the events: a bucket is
    never empty and holds exactly the events of its key, in their
    original order; a dated event is in the bucket of the calendar year
    of its date, an undated one in the bucket ["unknown"]; an event of a
    bucket has the key of that bucket, so it is in no other; and the
    buckets together hold every event as often as the input does. *)
Theorem splitByYear_partitions `{Host} (events : list Event) :
  (∀ year bucket, splitByYear events !! year = Some bucket →
     bucket ≠ [] ∧ bucket = eventsOfYear year events) ∧
  (∀ event date, event ∈ events → getEventDate event = Some date →
     ∃ bucket, splitByYear events !! Year (getFullYear date) = Some bucket ∧
               event ∈ bucket) ∧
  (∀ event, event ∈ events → getEventDate event = None →
     ∃ bucket, splitByYear events !! Unknown = Some bucket ∧ event ∈ bucket) ∧
  (∀ year bucket event, splitByYear events !! year = Some bucket →
     event ∈ bucket → yearOf event = year) ∧
  concat (snd <$> map_to_list (splitByYear events)) ≡ₚ events.
Proof.
  assert (∀ event, event ∈ events →
            ∃ bucket, splitByYear events !! yearOf event = Some bucket ∧
                      event ∈ bucket) as Hin.
  { intros event Hev. rewrite splitByYear_lookup.
    assert (event ∈ eventsOfYear (yearOf event) events) as Hb
      by by apply elem_of_eventsOfYear.
    destruct (eventsOfYear (yearOf event) events) as [|e l] eqn:E.
    - by apply elem_of_nil in Hb.
    - eauto. }
  split; [|split; [|split; [|split]]].
  - intros year bucket Hb. rewrite splitByYear_lookup in Hb.
    destruct (eventsOfYear year events); by simplify_eq.
  - intros event date Hev Hdate. specialize (Hin event Hev).
    unfold yearOf in Hin. by rewrite Hdate in Hin.
  - intros event Hev Hdate. specialize (Hin event Hev).
    unfold yearOf in Hin. by rewrite Hdate in Hin.
  - intros year bucket event Hb Hev. rewrite splitByYear_lookup in Hb.
    assert (bucket = eventsOfYear year events) as ->
      by (destruct (eventsOfYear year events); by simplify_eq).
    by apply elem_of_eventsOfYear in Hev as [_ ?].
  - unfold splitByYear. rewrite foldl_addToYear_buckets.
    by rewrite map_to_list_empty.
Qed.

(** ** Clean mode: the deny list *)

Section CleanMode.

Context `{Host}.
Implicit Types (line name : jsstring).

Lemma startsWith_prefix (p s : jsstring) :
  startsWith p s = true ↔ p `prefix_of` s.
Proof.
  revert s. induction p as [|a p IH]; intros s; simpl.
  - split; [intros _; apply prefix_nil | done].
  - destruct s as [|b s].
    + split; [done|]. intros [k Hk]. done.
    + rewrite andb_true_iff, N.eqb_eq, IH. split.
      * intros [-> Hp]. by apply prefix_cons.
      * intros [k Hk]. simpl in Hk. injection Hk as -> ->.
        split; [done|]. by exists k.
Qed.

Lemma notBlocked_false name blocked :
  notBlocked name blocked = false ↔
  ∃ b, b ∈ blocked ∧ (b `prefix_of` name ∨ name = b).
Proof.
  induction blocked as [|b blocked IH]; simpl.
  - split; [done|]. intros (b & Hb & _). by apply elem_of_nil in Hb.
  - destruct (startsWith b name || bool_decide (name = b)) eqn:Hb.
    + split; [|done]. intros _. exists b. split; [by left|].
      apply orb_true_iff in Hb as [Hb|Hb].
      * left. by apply startsWith_prefix.
      * right. by apply bool_decide_eq_true in Hb.
    + apply orb_false_iff in Hb as [Hp He].
      rewrite IH. split.
      * intros (b' & Hin & Hm). exists b'. split; [by right | done].
      * intros (b' & Hin & Hm). exists b'. split; [|done].
        apply elem_of_cons in Hin as [->|Hin]; [|done].
        destruct Hm as [Hm|Hm].
        -- apply startsWith_prefix in Hm. congruence.
        -- apply bool_decide_eq_false in He. done.
Qed.

Lemma indexOf_None c line : indexOf c line = None ↔ c ∉ line.
Proof.
  induction line as [|d line IH]; simpl.
  - split; [intros _; apply not_elem_of_nil | done].
  - rewrite not_elem_of_cons. destruct (N.eqb_spec d c) as [->|Hne].
    + split; [done | by intros [? _]].
    + destruct (indexOf c line); simpl.
      * split; [done|]. intros [_ Hc]. by apply IH in Hc.
      * split; [|done]. intros _. split; [done | by apply IH].
Qed.

(** The name [isAllowedProperty] extracts with [indexOf] and
    [substring] is the text before the first separator. *)
Lemma extracted_name line :
  match indexOf SEMICOLON line, indexOf COLON line with
  | Some semicolonIndex, Some colonIndex =>
      (if semicolonIndex <? colonIndex
       then substring 0 semicolonIndex line
       else substring 0 colonIndex line) = nameBeforeSeparator line
  | Some semicolonIndex, None =>
      substring 0 semicolonIndex line = nameBeforeSeparator line
  | None, Some colonIndex =>
      substring 0 colonIndex line = nameBeforeSeparator line
  | None, None => True
  end.
Proof.
  unfold substring. induction line as [|c line IH]; simpl; [done|].
  destruct (N.eqb_spec c SEMICOLON) as [->|Hsemi]; simpl.
  { by destruct (indexOf COLON line). }
  destruct (N.eqb_spec c COLON) as [->|Hcolon]; simpl.
  { by destruct (indexOf SEMICOLON line). }
  destruct (indexOf SEMICOLON line) as [si|], (indexOf COLON line) as [ci|];
    simpl; try done.
  - change (S si <? S ci) with (si <? ci).
    destruct (si <? ci); simpl; rewrite ?Nat.sub_0_r in *;
      rewrite drop_0 in *; simpl; by f_equal.
  - rewrite ?Nat.sub_0_r, drop_0 in *. simpl. by f_equal.
  - rewrite ?Nat.sub_0_r, drop_0 in *. simpl. by f_equal.
Qed.

Lemma propNameOfLine_spec line :
  (hasSeparator line ∧
   propNameOfLine line = Some (toUpperCase (nameBeforeSeparator line)))
  ∨ (¬ hasSeparator line ∧ propNameOfLine line = None).
Proof.
  pose proof (extracted_name line) as Hname.
  unfold propNameOfLine, hasSeparator.
  destruct (indexOf SEMICOLON line) as [si|] eqn:Hs,
           (indexOf COLON line) as [ci|] eqn:Hc.
  - left. split.
    + left. apply dec_stable. intros Hn. apply indexOf_None in Hn. congruence.
    + destruct (si <? ci); by rewrite Hname.
  - left. split.
    + right. apply dec_stable. intros Hn. apply indexOf_None in Hn. congruence.
    + by rewrite Hname.
  - left. split.
    + left. apply dec_stable. intros Hn. apply indexOf_None in Hn. congruence.
    + by rewrite Hname.
  - right. split; [|done].
    apply indexOf_None in Hs, Hc. tauto.
Qed.

End CleanMode.

(** C5 (as amended).  [isAllowedProperty] returns [false] exactly when
    the line has neither a colon nor a semicolon (no name can be
    extracted) or the name before its first separator, upper-cased,
    starts with or equals one of [X-APPLE-], [X-WR-ALARMUID],
    [ACKNOWLEDGED], [ATTACH]; it returns [true] for every line that has
    a separator and whose name matches none of them. *)
Theorem isAllowedProperty_denylist `{Host} (line : jsstring) :
  (isAllowedProperty line = false ↔
     ¬ hasSeparator line ∨ onDenylist (nameBeforeSeparator line)) ∧
  (isAllowedProperty line = true ↔
     hasSeparator line ∧ ¬ onDenylist (nameBeforeSeparator line)).
Proof.
  assert (isAllowedProperty line = false ↔
            ¬ hasSeparator line ∨ onDenylist (nameBeforeSeparator line))
    as Hfalse.
  { unfold isAllowedProperty, onDenylist.
    destruct (propNameOfLine_spec line) as [[Hsep ->]|[Hsep ->]].
    - rewrite notBlocked_false. split; [by right|]. by intros [?|?].
    - split; [by left | done]. }
  split; [done|].
  destruct (propNameOfLine_spec line) as [[Hsep _]|[Hsep _]].
  - rewrite <- not_false_iff_true, Hfalse. tauto.
  - rewrite <- not_false_iff_true, Hfalse. tauto.
Qed.

(** C5 (as stated) fails: a line without separator.  ["FOO"] has no name
    on the deny list, and it is not allowed. *)
Lemma isAllowedProperty_no_separator :
  @isAllowedProperty plainHost (lit "FOO") = false ∧
  ¬ @onDenylist plainHost (nameBeforeSeparator (lit "FOO")).
Proof.
  split; [by vm_compute|].
  intros Hdeny. unfold onDenylist in Hdeny.
  apply notBlocked_false in Hdeny. by vm_compute in Hdeny.
Qed.

(** ** Trimming *)

Section Trim.

Implicit Types (s : jsstring).

Lemma trimStart_suffix s : trimStart s `suffix_of` s.
Proof.
  induction s as [|c s IH]; simpl; [done|].
  destruct (isWhiteSpace c); [by apply suffix_cons_r | done].
Qed.

Lemma trimStart_head s c s' :
  trimStart s = c :: s' → isWhiteSpace c = false.
Proof.
  induction s as [|d s IH]; simpl; [done|].
  destruct (isWhiteSpace d) eqn:Hd; [done|]. by intros [= <- _].
Qed.

Lemma trimStart_id s :
  (∀ c s', s = c :: s' → isWhiteSpace c = false) → trimStart s = s.
Proof.
  destruct s as [|c s]; [done|]. intros Hc. simpl.
  by rewrite (Hc c s eq_refl).
Qed.

Lemma trimStart_idemp s : trimStart (trimStart s) = trimStart s.
Proof. apply trimStart_id. intros c s'. apply trimStart_head. Qed.

Lemma suffix_last (s t : jsstring) :
  s `suffix_of` t → s ≠ [] → last s = last t.
Proof.
  intros [k ->] Hs. destruct s as [|c s] using rev_ind; [done|].
  by rewrite app_assoc, !last_snoc.
Qed.

(** A trimmed string neither starts nor ends with white space. *)
Lemma trim_head s c s' : trim s = c :: s' → isWhiteSpace c = false.
Proof.
  unfold trim, trimEnd. intros Ht.
  assert (head (trimStart s) = Some c) as Hhead.
  { rewrite <- last_reverse.
    rewrite <- (suffix_last (trimStart (reverse (trimStart s)))).
    - rewrite <- (reverse_involutive (trimStart (reverse _))).
      by rewrite last_reverse, Ht.
    - apply trimStart_suffix.
    - intros Hu. by rewrite Hu in Ht. }
  destruct (trimStart s) as [|e t] eqn:Ht'; [done|].
  injection Hhead as ->. by apply (trimStart_head s c t).
Qed.

Lemma trim_idemp s : trim (trim s) = trim s.
Proof.
  assert (trimStart (trim s) = trim s) as Hstart.
  { apply trimStart_id. intros c s'. apply trim_head. }
  unfold trim at 1. rewrite Hstart.
  unfold trim, trimEnd. rewrite reverse_involutive.
  by rewrite trimStart_idemp.
Qed.



Lemma trimStart_Forall (P : N → Prop) s : Forall P s → Forall P (trimStart s).
Proof.
  intros Hs. destruct (trimStart_suffix s) as [k Hk].
  rewrite Hk in Hs. by apply Forall_app in Hs as [_ ?].
Qed.

Lemma trim_Forall (P : N → Prop) s : Forall P s → Forall P (trim s).
Proof.
  intros Hs. unfold trim, trimEnd.
  apply Forall_reverse, trimStart_Forall, Forall_reverse.
  by apply trimStart_Forall.
Qed.

(** A trimmed, non-empty string is not blank. *)
Lemma trim_fixed_truthy s : trim s = s → s ≠ [] → truthy (trim s) = true.
Proof. intros -> Hs. by destruct s. Qed.

End Trim.

(** ** The lines [parse] scans *)

Section Lines.

Implicit Types (s l : jsstring) (P : N → Prop).

Lemma replaceCR_noCR s : Forall (λ c, c ≠ CR) (replaceCR s).
Proof.
  unfold replaceCR. apply Forall_fmap, Forall_forall. intros c _. simpl.
  by destruct (N.eqb_spec c CR).
Qed.

Lemma removeFolds_Forall P s : Forall P s → Forall P (removeFolds s).
Proof.
  enough (Forall P s →
          Forall P (removeFolds s) ∧
          ∀ c, P c → Forall P (removeFolds (c :: s))) by tauto.
  induction s as [|d s IH].
  - intros _. split; [constructor|]. intros c Hc. by repeat constructor.
  - intros [Hd Hs]%Forall_cons. destruct (IH Hs) as [IH1 IH2].
    split; [by apply IH2|].
    intros c Hc. simpl.
    destruct ((c =? LF)%N && ((d =? SPACE)%N || (d =? TAB)%N)); [done|].
    constructor; [done|]. by apply IH2.
Qed.

Lemma split_Forall P sep s : Forall P s → Forall (Forall P) (split sep s).
Proof.
  induction 1 as [|c s Hc Hs IH]; simpl; [by repeat constructor|].
  destruct (c =? sep)%N; [by repeat constructor|].
  destruct (split sep s) as [|l ls]; [by repeat constructor|].
  apply Forall_cons in IH as [Hl Hls]. by repeat constructor.
Qed.

Lemma split_no_separator sep s : Forall (Forall (λ c, c ≠ sep)) (split sep s).
Proof.
  induction s as [|c s IH]; simpl; [by repeat constructor|].
  destruct (N.eqb_spec c sep) as [->|Hne]; [by repeat constructor|].
  destruct (split sep s) as [|l ls]; [by repeat constructor|].
  apply Forall_cons in IH as [Hl Hls]. by repeat constructor.
Qed.

Lemma unfolded_lines_noLineBreak icsContent :
  Forall noLineBreak (split LF (unfoldedContent icsContent)).
Proof.
  pose proof (split_no_separator LF (unfoldedContent icsContent)) as Hlf.
  pose proof (split_Forall (λ c, c ≠ CR) LF (unfoldedContent icsContent)) as Hcr.
  unfold unfoldedContent, normalizedContent in *.
  specialize (Hcr (removeFolds_Forall _ _ (replaceCR_noCR _))).
  apply Forall_forall. intros l Hl.
  rewrite Forall_forall in Hlf, Hcr. specialize (Hlf l Hl). specialize (Hcr l Hl).
  apply Forall_forall. intros c Hc.
  rewrite Forall_forall in Hlf, Hcr. split; [by apply Hcr | by apply Hlf].
Qed.

(** Every line the loop works on is a content line. *)
Lemma trimmedLines_contentLine icsContent :
  Forall contentLine (trimmedLines icsContent).
Proof.
  unfold trimmedLines, lines. apply Forall_fmap, Forall_forall.
  intros l [Hl Htrim]%list_elem_of_In%filter_In. simpl. repeat split.
  - apply trim_idemp.
  - by destruct (trim l).
  - apply trim_Forall. apply list_elem_of_In in Hl.
    by eapply Forall_forall in Hl; [|apply unfolded_lines_noLineBreak].
Qed.


End Lines.

(** ** The scanning loop of [parse] *)

Ltac parseLine_cases :=
  unfold parseLine; simpl;
  repeat (case_decide; simpl; try done);
  repeat match goal with
         | |- context [if ?b then _ else _] => destruct b eqn:?; simpl; try done
         end.

Section ParseLoop.

Implicit Types (st : ParseState) (l : jsstring) (ls : list jsstring).

Lemma parseLine_trim st l : parseLine st (trim l) = parseLine st l.
Proof. unfold parseLine. by rewrite trim_idemp. Qed.

Lemma foldl_parseLine_trim ls st :
  foldl parseLine st (trim <$> ls) = foldl parseLine st ls.
Proof.
  revert st. induction ls as [|l ls IH]; intros st; simpl; [done|].
  by rewrite parseLine_trim, IH.
Qed.

(** Once an event has been seen the header is closed. *)
Lemma parseLine_header_closed st l :
  foundFirstEvent st = true →
  foundFirstEvent (parseLine st l) = true ∧
  headerLines (calendar (parseLine st l)) = headerLines (calendar st).
Proof.
  destruct st as [cal cur curLines inEv found alarm]. simpl. intros ->.
  parseLine_cases. by destruct cur.
Qed.

Lemma foldl_header_closed ls st :
  foundFirstEvent st = true →
  headerLines (calendar (foldl parseLine st ls)) = headerLines (calendar st).
Proof.
  revert st. induction ls as [|l ls IH]; intros st Hfound; simpl; [done|].
  destruct (parseLine_header_closed st l Hfound) as [Hfound' Hheader].
  by rewrite IH, Hheader.
Qed.

(** Before the first event every line that is not a closing marker is
    appended to the header. *)
Lemma foldl_header_open ls st :
  foundFirstEvent st = false → inEvent st = false →
  headerLines (calendar (foldl parseLine st ls))
  = headerLines (calendar st) ++ headerOf (trim <$> ls).
Proof.
  revert st. induction ls as [|l ls IH]; intros st Hfound Hin.
  { simpl. by rewrite app_nil_r. }
  cbn [foldl fmap list_fmap]. unfold headerOf. cbn [beforeFirstEvent].
  destruct st as [cal cur curLines inEv found alarm]. simpl in Hfound, Hin.
  subst inEv found.
  destruct (decide (trim l = BEGIN_VEVENT)) as [Hb|Hb].
  { rewrite foldl_header_closed.
    - unfold parseLine. simpl. rewrite decide_True by done. simpl.
      by rewrite app_nil_r.
    - unfold parseLine. simpl. by rewrite decide_True. }
  cbn [List.filter].
  unfold parseLine at 2. cbn [inEvent foundFirstEvent calendar negb].
  rewrite (decide_False (P := trim l = BEGIN_VEVENT)) by done.
  destruct (decide (trim l = END_VEVENT)) as [He|He].
  { rewrite bool_decide_eq_true_2 by done. simpl.
    rewrite IH by done. simpl. by destruct cur. }
  rewrite (bool_decide_eq_false_2 (trim l = END_VEVENT)) by done.
  destruct (decide (trim l = END_VCALENDAR)) as [Hc|Hc].
  { rewrite bool_decide_eq_true_2 by done. simpl. by rewrite IH. }
  rewrite (bool_decide_eq_false_2 (trim l = END_VCALENDAR)) by done. simpl.
  rewrite IH by done. simpl. by rewrite <- app_assoc.
Qed.

(** The lines stored are lines of the input that are not event markers. *)
Lemma parseLine_stored Q st l :
  (¬ eventMarker (trim l) → Q (trim l)) →
  stored Q st → stored Q (parseLine st l).
Proof.
  unfold stored, eventMarker.
  destruct st as [cal cur curLines inEv found alarm]. simpl.
  intros HQ (Hh & He & Hc).
  destruct cur, inEv, found, alarm; unfold parseLine; simpl;
    repeat (case_decide; simpl); repeat split; try done;
    apply Forall_app; (split; [done|]); repeat constructor; try done;
    apply HQ; tauto.
Qed.

Lemma foldl_stored Q ls st :
  Forall (λ l, ¬ eventMarker (trim l) → Q (trim l)) ls →
  stored Q st → stored Q (foldl parseLine st ls).
Proof.
  revert st. induction ls as [|l ls IH]; intros st Hls Hst; simpl; [done|].
  apply Forall_cons in Hls as [Hl Hls].
  apply IH; [done|]. by apply parseLine_stored.
Qed.

Lemma parseLine_propertiesFollowLines st l :
  propertiesFollowLines st → propertiesFollowLines (parseLine st l).
Proof.
  unfold propertiesFollowLines.
  destruct st as [cal cur curLines inEv found alarm]. simpl.
  intros (Hev & Hcur).
  destruct cur, inEv, found, alarm; unfold parseLine; simpl;
    repeat (case_decide; simpl); repeat split; try done; eauto;
    try (by intros [_ ?]%app_nil);
    apply Forall_app; (split; [done|]); repeat constructor; simpl;
    intros ->; destruct (Hcur eq_refl); by simplify_eq.
Qed.

(** Inside an event there is a current event: the assignment to
    [currentEvent.properties] never meets [null]. *)
Lemma parseLine_currentEvent st l :
  (inEvent st = true → is_Some (currentEvent st)) →
  inEvent (parseLine st l) = true → is_Some (currentEvent (parseLine st l)).
Proof.
  destruct st as [cal cur curLines inEv found alarm]. simpl. intros Hcur.
  destruct inEv, found, alarm; unfold parseLine; simpl;
    repeat (case_decide; simpl); try done;
    try (intros _; destruct (Hcur eq_refl) as [props ->];
         destruct (indexOf COLON (trim l)); by eexists).
Qed.

Lemma foldl_currentEvent ls st :
  (inEvent st = true → is_Some (currentEvent st)) →
  inEvent (foldl parseLine st ls) = true →
  is_Some (currentEvent (foldl parseLine st ls)).
Proof.
  revert st. induction ls as [|l ls IH]; intros st Hst; simpl; [done|].
  by apply IH, parseLine_currentEvent.
Qed.

Lemma foldl_propertiesFollowLines ls st :
  propertiesFollowLines st → propertiesFollowLines (foldl parseLine st ls).
Proof.
  revert st. induction ls as [|l ls IH]; intros st Hst; simpl; [done|].
  by apply IH, parseLine_propertiesFollowLines.
Qed.

End ParseLoop.

(** C9 (as amended).  [headerLines] holds exactly the lines in front of
    the first [BEGIN:VEVENT] that are not a closing marker
    ([END:VEVENT], [END:VCALENDAR]).  So it holds no [BEGIN:VEVENT] and
    no [END:VEVENT], and no line of an event or of an alarm block inside
    an event: those come after the first [BEGIN:VEVENT]. *)
Theorem parse_headerLines (icsContent : jsstring) :
  headerLines (parse icsContent) = headerOf (trimmedLines icsContent) ∧
  Forall (λ l, l ≠ BEGIN_VEVENT ∧ l ≠ END_VEVENT)
         (headerLines (parse icsContent)).
Proof.
  unfold parse, trimmedLines. split.
  - by rewrite foldl_header_open.
  - pose proof (foldl_stored (λ l, ¬ eventMarker l) (lines icsContent)
                  initialState) as Hstored.
    destruct Hstored as (Hh & _).
    + by apply Forall_forall.
    + by repeat split.
    + eapply Forall_impl; [exact Hh|]. unfold eventMarker. simpl.
      intros l Hl. split; intros ->; apply Hl; tauto.
Qed.

(** C9 (as stated) fails: an alarm block in front of the first event, as
    a to-do may carry one, stays in [headerLines]. *)
Lemma parse_header_keeps_alarm_of_todo :
  BEGIN_VALARM ∈ headerLines (parse todoWithAlarm) ∧
  lit "TRIGGER:-PT15M" ∈ headerLines (parse todoWithAlarm) ∧
  END_VALARM ∈ headerLines (parse todoWithAlarm).
Proof.
  repeat split; apply (bool_decide_unpack _); vm_compute; exact I.
Qed.

(** ** Physical lines of the written text *)

Section Physical.

Implicit Types (l s : jsstring) (segs ls : list jsstring)
  (segss : list (list jsstring)).







End Physical.

Section PhysicalLines.

Implicit Types (l s : jsstring) (segs ls : list jsstring)
  (segss : list (list jsstring)).




Lemma occurrences_app m ls1 ls2 :
  occurrences m (ls1 ++ ls2) = occurrences m ls1 + occurrences m ls2.
Proof. unfold occurrences. by rewrite List.filter_app, length_app. Qed.







End PhysicalLines.

(** ** Documents: the shape of what [write] returns *)

Section DocumentShape.

Implicit Types (l : jsstring) (ls headerPart : list jsstring)
  (bodies : list (list jsstring)).








End DocumentShape.

(** ** What [write] returns *)

Section WriteShape.

Context `{Host}.
Implicit Types (event : Event) (events : list Event) (cleanMode : bool).

(** For an event of [parse] the emitted lines are raw lines. *)
Lemma emittedLines_rawLines cleanMode event :
  (_rawLines event = [] → properties event = []) →
  emittedLines cleanMode event
  = List.filter
      (λ line, truthy (trim line)
               && negb (cleanMode && negb (isAllowedProperty line)))
      (_rawLines event).
Proof.
  intros Hprops. unfold emittedLines.
  destruct (_rawLines event) as [|l ls]; [|done].
  by rewrite Hprops.
Qed.

Lemma filter_Forall {A} (P : A → Prop) (f : A → bool) (l : list A) :
  Forall P l → Forall P (List.filter f l).
Proof.
  induction 1 as [|x l Hx _ IH]; simpl; [constructor|].
  destruct (f x); [by constructor | done].
Qed.




End WriteShape.

Section WriteDocument.

Context `{Host}.
Implicit Types (calendar : Calendar) (events : list Event) (cleanMode : bool).



Lemma write_Some calendar events cleanMode header body :
  writeHeader calendar = Some header →
  mapM (writeEvent cleanMode) events = Some body →
  write calendar events cleanMode
  = Some (join CRLF (header ++ concat body ++ [END_VCALENDAR]) ++ CRLF).
Proof. unfold write. by intros -> ->. Qed.


End WriteDocument.

Section WriteParsed.

Context `{Host}.


Lemma parse_propertiesFollowLines icsContent :
  Forall (λ event, _rawLines event = [] → properties event = [])
         (events (parse icsContent)).
Proof.
  unfold parse.
  destruct (foldl_propertiesFollowLines (lines icsContent) initialState)
    as [Hev _]; [|done].
  split; [constructor | by left].
Qed.


End WriteParsed.




(** A line [BEGIN:VCALENDAR] inside an event is a line of the event:
    the header holds one such line, and the text written two, with one
    [END:VCALENDAR]. *)
Lemma write_repeats_BEGIN_VCALENDAR :
  occurrences BEGIN_VCALENDAR (headerLines (parse calendarInsideEvent)) = 1 ∧
  occurrences BEGIN_VCALENDAR
    (concat (@emittedLines plainHost true
               <$> events (parse calendarInsideEvent))) = 1 ∧
  @write plainHost (parse calendarInsideEvent)
         (events (parse calendarInsideEvent)) true
  = Some (join CRLF (lit <$> ["BEGIN:VCALENDAR"; "VERSION:2.0";
                              "BEGIN:VEVENT"; "UID:e1"; "BEGIN:VCALENDAR";
                              "END:VEVENT"; "END:VCALENDAR"]%string) ++ CRLF) ∧
  occurrences BEGIN_VCALENDAR
    (lit <$> ["BEGIN:VCALENDAR"; "VERSION:2.0"; "BEGIN:VEVENT"; "UID:e1";
              "BEGIN:VCALENDAR"; "END:VEVENT"; "END:VCALENDAR"]%string) = 2 ∧
  occurrences END_VCALENDAR
    (lit <$> ["BEGIN:VCALENDAR"; "VERSION:2.0"; "BEGIN:VEVENT"; "UID:e1";
              "BEGIN:VCALENDAR"; "END:VEVENT"; "END:VCALENDAR"]%string) = 1.
Proof. repeat split; by vm_compute. Qed.

(** ** Parsing a plain calendar: header, event blocks, closing line *)

Section ParsePlain.

Implicit Types (st : ParseState) (l : jsstring) (ls header body : list jsstring)
  (bodies : list (list jsstring)).

(** Header lines in front of the first event are appended as they are. *)
Lemma foldl_parse_header header st :
  foundFirstEvent st = false → inEvent st = false →
  Forall (λ l, trim l = l ∧ ¬ eventMarker l) header →
  headerLines (calendar (foldl parseLine st header))
  = headerLines (calendar st) ++ header ∧
  events (calendar (foldl parseLine st header)) = events (calendar st) ∧
  inValarm (foldl parseLine st header) = inValarm st.
Proof.
  revert st. induction header as [|l header IH]; intros st Hfound Hin Hls.
  { simpl. by rewrite app_nil_r. }
  apply Forall_cons in Hls as [[Htrim Hl] Hls]. unfold eventMarker in Hl.
  cbn [foldl].
  destruct st as [cal cur curLines inEv found alarm]. simpl in Hfound, Hin.
  subst inEv found.
  destruct (IH (parseLine (mkState cal cur curLines false false alarm) l))
    as (Hh & He & Ha); try done.
  - unfold parseLine. rewrite Htrim. simpl.
    repeat (rewrite decide_False by tauto). done.
  - unfold parseLine. rewrite Htrim. simpl.
    repeat (rewrite decide_False by tauto). done.
  - rewrite Hh, He, Ha. unfold parseLine. rewrite Htrim. simpl.
    repeat (rewrite decide_False by tauto). simpl.
    by rewrite <- app_assoc.
Qed.

(** Inside an event, outside of an alarm, plain lines are appended to
    the lines of the event. *)
Lemma foldl_parse_body body st :
  inEvent st = true → inValarm st = false → is_Some (currentEvent st) →
  Forall (λ l, trim l = l ∧ plainLine l) body →
  calendar (foldl parseLine st body) = calendar st ∧
  currentEventLines (foldl parseLine st body) = currentEventLines st ++ body ∧
  inEvent (foldl parseLine st body) = true ∧
  inValarm (foldl parseLine st body) = false ∧
  is_Some (currentEvent (foldl parseLine st body)) ∧
  foundFirstEvent (foldl parseLine st body) = foundFirstEvent st.
Proof.
  revert st. induction body as [|l body IH]; intros st Hin Halarm Hcur Hls.
  { simpl. by rewrite app_nil_r. }
  apply Forall_cons in Hls as [[Htrim [Hl Hl']] Hls].
  unfold eventMarker, alarmMarker in Hl, Hl'.
  cbn [foldl].
  destruct st as [cal cur curLines inEv found alarm]. simpl in Hin, Halarm, Hcur.
  subst inEv alarm. destruct Hcur as [props ->].
  assert (∃ props',
            parseLine (mkState cal (Some props) curLines true found false) l
            = mkState cal (Some props') (curLines ++ [l]) true found false)
    as [props' ->].
  { unfold parseLine. rewrite Htrim. simpl.
    repeat (rewrite decide_False by tauto).
    destruct (indexOf COLON l) as [colonIndex|]; simpl; [|by eexists].
    destruct (eventProperty l colonIndex). by eexists. }
  destruct (IH (mkState cal (Some props') (curLines ++ [l]) true found false))
    as (Hc & Hlines & Hin' & Ha' & Hcur' & Hf'); try done.
  rewrite Hc, Hlines, Hin', Ha', Hf'. simpl. by rewrite <- app_assoc.
Qed.

(** An event block adds one event: its lines are the body. *)
Lemma foldl_parse_block body st :
  inValarm st = false →
  Forall (λ l, trim l = l ∧ plainLine l) body →
  headerLines (calendar (foldl parseLine st (eventBlock body)))
  = headerLines (calendar st) ∧
  _rawLines <$> events (calendar (foldl parseLine st (eventBlock body)))
  = (_rawLines <$> events (calendar st)) ++ [body] ∧
  inValarm (foldl parseLine st (eventBlock body)) = false ∧
  foundFirstEvent (foldl parseLine st (eventBlock body)) = true.
Proof.
  intros Halarm Hbody. unfold eventBlock.
  cbn [foldl]. rewrite foldl_app. cbn [foldl].
  destruct st as [cal cur curLines inEv found alarm]. simpl in Halarm.
  subst alarm.
  assert (parseLine (mkState cal cur curLines inEv found false) BEGIN_VEVENT
          = mkState cal (Some []) [] true true false) as -> by done.
  destruct (foldl_parse_body body (mkState cal (Some []) [] true true false))
    as (Hc & Hlines & Hin & Ha & [props Hcur] & Hf); try done.
  destruct (foldl parseLine _ body) as [cal' cur' curLines' inEv' found' alarm'].
  simpl in *. subst. unfold parseLine. simpl.
  by rewrite fmap_app.
Qed.

Lemma foldl_parse_blocks bodies st :
  inValarm st = false →
  Forall (Forall (λ l, trim l = l ∧ plainLine l)) bodies →
  headerLines (calendar (foldl parseLine st (concat (eventBlock <$> bodies))))
  = headerLines (calendar st) ∧
  _rawLines <$> events (calendar
                  (foldl parseLine st (concat (eventBlock <$> bodies))))
  = (_rawLines <$> events (calendar st)) ++ bodies ∧
  inValarm (foldl parseLine st (concat (eventBlock <$> bodies))) = false.
Proof.
  revert st. induction bodies as [|body bodies IH]; intros st Halarm Hb.
  { simpl. by rewrite app_nil_r. }
  apply Forall_cons in Hb as [Hbody Hb].
  rewrite fmap_cons, concat_cons, foldl_app.
  destruct (foldl_parse_block body st Halarm Hbody) as (Hh & He & Ha & _).
  destruct (IH (foldl parseLine st (eventBlock body)) Ha Hb)
    as (Hh' & He' & Ha').
  rewrite Hh', He', Ha', Hh, He. by rewrite <- app_assoc.
Qed.

(** The calendar [parse] builds from a plain calendar text. *)
Lemma parse_plain icsContent header bodies :
  trimmedLines icsContent = documentLines header bodies →
  Forall (λ l, ¬ eventMarker l) header →
  Forall (Forall plainLine) bodies →
  headerLines (parse icsContent) = header ∧
  _rawLines <$> events (parse icsContent) = bodies.
Proof.
  intros Hlines Hheader Hbodies.
  pose proof (trimmedLines_contentLine icsContent) as Hcontent.
  rewrite Hlines in Hcontent. unfold documentLines in Hcontent.
  apply Forall_app in Hcontent as [Hch Hcontent].
  apply Forall_app in Hcontent as [Hcb _].
  unfold parse. rewrite <- foldl_parseLine_trim.
  fold (trimmedLines icsContent). rewrite Hlines. unfold documentLines.
  rewrite !foldl_app. cbn [foldl].
  set (st1 := foldl parseLine initialState header).
  set (st2 := foldl parseLine st1 (concat (eventBlock <$> bodies))).
  assert (parseLine st2 END_VCALENDAR = st2) as ->.
  { unfold parseLine. change (trim END_VCALENDAR) with END_VCALENDAR.
    rewrite decide_False by done. rewrite decide_False by done.
    by rewrite decide_True. }
  destruct (foldl_parse_header header initialState) as (Hh & He & Ha);
    [done | done | |].
  { rewrite Forall_forall in Hch, Hheader. apply Forall_forall.
    intros l Hl. split; [by apply Hch | by apply Hheader]. }
  destruct (foldl_parse_blocks bodies st1) as (Hh' & He' & _); [done| |].
  { clear -Hcb Hbodies. induction Hbodies as [|body bodies Hb _ IH];
      [constructor|].
    rewrite fmap_cons, concat_cons in Hcb.
    apply Forall_app in Hcb as [Hcb1 Hcb2]. constructor; [|by apply IH].
    unfold eventBlock in Hcb1.
    apply Forall_cons in Hcb1 as [_ [Hcb1 _]%Forall_app].
    rewrite Forall_forall in Hcb1, Hb. apply Forall_forall.
    intros l Hl. split; [by apply Hcb1 | by apply Hb]. }
  unfold st2. rewrite Hh', He'. unfold st1. by rewrite Hh, He.
Qed.

End ParsePlain.

(** ** Writing back what was parsed *)

Section RoundTrip.

Context `{Host}.

Lemma mapM_foldLine_short (ls : list jsstring) :
  Forall (λ l, length l ≤ MAX_LINE_LENGTH) ls → mapM foldLine ls = Some ls.
Proof.
  intros Hls. apply mapM_Some. induction Hls as [|l ls Hl _ IH];
    constructor; [by apply foldLine_short | done].
Qed.

Lemma filter_all {A} (f : A → bool) (l : list A) :
  Forall (λ x, f x = true) l → List.filter f l = l.
Proof.
  induction 1 as [|x l Hx _ IH]; [done|]. simpl. by rewrite Hx, IH.
Qed.



End RoundTrip.




(** ** Splitting by size *)

Section Sort.

Context {A : Type} (cmp : A → A → Z).

Lemma insertSorted_Permutation x (l : list A) : insertSorted cmp x l ≡ₚ x :: l.
Proof.
  induction l as [|y l IH]; simpl; [done|].
  destruct (cmp x y <=? 0)%Z; [done|].
  rewrite IH. apply Permutation_swap.
Qed.

(** Sorting rearranges: nothing is lost, nothing is added. *)
Lemma sort_Permutation (l : list A) : sort cmp l ≡ₚ l.
Proof.
  unfold sort. induction l as [|x l IH]; simpl; [done|].
  by rewrite insertSorted_Permutation, IH.
Qed.

Lemma sort_length (l : list A) : length (sort cmp l) = length l.
Proof. by rewrite sort_Permutation. Qed.

End Sort.

Section Groups.

Context (size : Event → nat) (overhead : nat) (maxSizeBytes : Z).
Implicit Types (current events group : list Event).

Lemma groupBySize_concat current currentSize events :
  concat (groupBySize size overhead maxSizeBytes current currentSize events) = current ++ events.
Proof.
  revert current currentSize.
  induction events as [|event events IH]; intros current currentSize; simpl.
  - destruct current; simpl; by rewrite ?app_nil_r.
  - destruct (_ && _); simpl; rewrite IH; [done|]. by rewrite <- app_assoc.
Qed.

Lemma groupBySize_nonempty current currentSize events :
  Forall (λ group, group ≠ []) (groupBySize size overhead maxSizeBytes current currentSize events).
Proof.
  revert current currentSize.
  induction events as [|event events IH]; intros current currentSize; simpl.
  - destruct current; by repeat constructor.
  - destruct (_ <? _)%Z; simpl; [|by apply IH].
    destruct current; simpl; [by apply IH|]. by constructor.
Qed.

Lemma groupBySize_some current currentSize events :
  current ++ events ≠ [] → groupBySize size overhead maxSizeBytes current currentSize events ≠ [].
Proof.
  rewrite <- (groupBySize_concat current currentSize events).
  by destruct (groupBySize _ _ _ _ _ _).
Qed.

(** An event beyond the limit is alone in its group. *)
Lemma groupBySize_oversize current currentSize events :
  (∀ e, e ∈ current → size e ≤ currentSize) →
  (∀ e, e ∈ current → (maxSizeBytes < Z.of_nat (size e))%Z → current = [e]) →
  ∀ group e, group ∈ groupBySize size overhead maxSizeBytes current currentSize events → e ∈ group →
    (maxSizeBytes < Z.of_nat (size e))%Z → group = [e].
Proof.
  revert current currentSize.
  induction events as [|event events IH];
    intros current currentSize Hsize Halone group e Hgroup He Hbig.
  - simpl in Hgroup. destruct current as [|e' current]; simpl in Hgroup.
    + by apply elem_of_nil in Hgroup.
    + apply list_elem_of_singleton in Hgroup as ->. by apply Halone.
  - simpl in Hgroup.
    destruct (Z.ltb_spec maxSizeBytes (Z.of_nat (currentSize + size event)))
      as [Hover|Hfits]; simpl in Hgroup.
    + destruct current as [|e' current]; simpl in Hgroup.
      * eapply (IH [event] (currentSize + size event)); try done.
        -- intros e0 ->%list_elem_of_singleton. lia.
        -- by intros e0 ->%list_elem_of_singleton _.
      * apply elem_of_cons in Hgroup as [->|Hgroup]; [by apply Halone|].
        eapply (IH [event] (overhead + size event)); try done.
        -- intros e0 ->%list_elem_of_singleton. lia.
        -- by intros e0 ->%list_elem_of_singleton _.
    + eapply (IH (current ++ [event]) (currentSize + size event)); try done.
      * intros e0 [He0| ->%list_elem_of_singleton]%elem_of_app; [|lia].
        specialize (Hsize e0 He0). lia.
      * intros e0 He0 Hbig0. exfalso.
        apply elem_of_app in He0 as [He0| ->%list_elem_of_singleton]; [|lia].
        specialize (Hsize e0 He0). lia.
Qed.

End Groups.

Section SplitBySize.

Context `{Host}.
Implicit Types (calendar : Calendar) (events : list Event) (cleanMode : bool).

(** Once a chunk could not be written, the loop yields nothing. *)
Lemma foldl_splitStep_None calendar maxSizeBytes cleanMode events :
  foldl (splitStep calendar maxSizeBytes cleanMode) None events = None.
Proof. by induction events. Qed.

(** The loop of [splitBySize] and what follows it, from any state of the
    loop: the chunks are the groups of [groupBySize], each written by
    [createChunkResult]. *)
Lemma splitLoop_groups calendar maxSizeBytes cleanMode events st :
  (st' ← foldl (splitStep calendar maxSizeBytes cleanMode) (Some st) events;
   if nonEmpty (currentEvents st')
   then chunk ← createChunkResult calendar (currentEvents st') cleanMode;
        Some (results st' ++ [chunk])
   else Some (results st'))
  = (results st ++.) <$>
    mapM (λ group, createChunkResult calendar group cleanMode)
         (groupBySize getEventSize (getHeaderFooterSize calendar) maxSizeBytes
            (currentEvents st) (currentSize st) events).
Proof.
  revert st. induction events as [|event events IH]; intros st.
  - cbn [foldl groupBySize]. destruct st as [res cur size]. simpl.
    destruct cur as [|e cur]; simpl; [by rewrite app_nil_r|].
    by destruct (createChunkResult calendar (e :: cur) cleanMode).
  - cbn [foldl groupBySize]. destruct st as [res cur size].
    unfold splitStep at 2. cbn [mbind option_bind results currentEvents currentSize].
    destruct ((maxSizeBytes <? Z.of_nat (size + getEventSize event))%Z
              && nonEmpty cur).
    + cbn [mapM].
      destruct (createChunkResult calendar cur cleanMode) as [chunk|];
        cbn [mbind option_bind].
      * rewrite IH. cbn [results currentEvents currentSize].
        destruct (mapM _ _) as [chunks|]; simpl; [|done].
        by rewrite <- app_assoc.
      * by rewrite foldl_splitStep_None.
    + cbn [mbind option_bind results currentEvents currentSize].
      by rewrite IH.
Qed.

Lemma splitBySize_groups calendar events maxSizeBytes cleanMode :
  splitBySize calendar events maxSizeBytes cleanMode
  = mapM (λ group, createChunkResult calendar group cleanMode)
         (groupBySize getEventSize (getHeaderFooterSize calendar) maxSizeBytes
            [] (getHeaderFooterSize calendar) (sort compareEvents events)).
Proof.
  unfold splitBySize. rewrite splitLoop_groups. simpl.
  by destruct (mapM _ _).
Qed.

(** [write] returns when no line to fold carries two adjacent high
    surrogates. *)
Lemma write_returns calendar events cleanMode :
  Forall (λ l, noAdjacentHigh l = true) (headerLines calendar) →
  Forall (λ event, Forall (λ l, noAdjacentHigh l = true)
                          (emittedLines cleanMode event)) events →
  is_Some (write calendar events cleanMode).
Proof.
  intros Hh He.
  assert (∀ ls, Forall (λ l, noAdjacentHigh l = true) ls →
                is_Some (mapM foldLine ls)) as Hfold.
  { intros ls Hls. induction Hls as [|l ls Hl _ [ks IH]]; [by eexists|].
    destruct (foldLine_returns l Hl) as [k Hk]. exists (k :: ks).
    apply mapM_Some. constructor; [done|]. by apply mapM_Some. }
  assert (is_Some (writeHeader calendar)) as [header Hheader].
  { unfold writeHeader. destruct (nonEmpty _); [by apply Hfold | by eexists]. }
  assert (is_Some (mapM (writeEvent cleanMode) events)) as [body Hbody].
  { induction He as [|event events Hev _ [ks IH]]; [by eexists|].
    destruct (Hfold _ Hev) as [k Hk].
    exists (([BEGIN_VEVENT] ++ k ++ [END_VEVENT]) :: ks).
    apply mapM_Some. constructor; [|by apply mapM_Some].
    unfold writeEvent. by rewrite Hk. }
  rewrite (write_Some _ _ _ _ _ Hheader Hbody). by eexists.
Qed.

End SplitBySize.

(** Wherever [write] returns, the chunks of [splitBySize] are as the
    specification has them: their event counts add up to the number of
    events, no chunk is empty, events give at least one chunk, and an
    event beyond the limit is alone in its chunk. *)
Lemma splitBySize_chunks `{Host} (calendar : Calendar) (events : list Event)
    (maxSizeBytes : Z) (cleanMode : bool) :
  Forall (λ l, noAdjacentHigh l = true) (headerLines calendar) →
  Forall (λ event, Forall (λ l, noAdjacentHigh l = true)
                          (emittedLines cleanMode event)) events →
  ∃ chunks groups,
    splitBySize calendar events maxSizeBytes cleanMode = Some chunks ∧
    Forall2 (λ group chunk,
               createChunkResult calendar group cleanMode = Some chunk)
            groups chunks ∧
    concat groups ≡ₚ events ∧
    sum_list (eventCount <$> chunks) = length events ∧
    Forall (λ chunk, 0 < eventCount chunk) chunks ∧
    (events ≠ [] → chunks ≠ []) ∧
    (∀ group event, group ∈ groups → event ∈ group →
       (maxSizeBytes < Z.of_nat (getEventSize event))%Z → group = [event]).
Proof.
  intros Hh He. rewrite splitBySize_groups.
  set (groups := groupBySize getEventSize (getHeaderFooterSize calendar)
                   maxSizeBytes [] (getHeaderFooterSize calendar)
                   (sort compareEvents events)).
  assert (concat groups ≡ₚ events) as Hperm.
  { unfold groups. rewrite groupBySize_concat. simpl. apply sort_Permutation. }
  assert (Forall (λ group, group ≠ []) groups) as Hne
    by apply groupBySize_nonempty.
  assert (is_Some (mapM (λ group, createChunkResult calendar group cleanMode)
                        groups)) as [chunks Hchunks].
  { apply mapM_is_Some, Forall_forall. intros group Hgroup.
    destruct (write_returns calendar group cleanMode) as [text Htext];
      [done| |].
    - apply Forall_forall. intros event Hev.
      rewrite Forall_forall in He. apply He. rewrite <- Hperm.
      apply list_elem_of_In, in_concat. exists group.
      by rewrite <- !list_elem_of_In.
    - unfold createChunkResult. simpl. rewrite Htext. by eexists. }
  exists chunks, groups. split; [done|].
  apply mapM_Some in Hchunks.
  assert (Forall2 (λ group chunk, eventCount chunk = length group)
                  groups chunks) as Hcount.
  { eapply Forall2_impl; [exact Hchunks|]. intros group chunk. simpl.
    unfold createChunkResult.
    destruct (write calendar group cleanMode); [|done]. simpl.
    by intros [= <-]. }
  split; [done|]. split; [done|]. split; [|split; [|split]].
  - rewrite <- Hperm. clear -Hcount.
    induction Hcount as [|group chunk groups chunks Hc _ IH]; [done|].
    rewrite fmap_cons. simpl. rewrite length_app. lia.
  - clear -Hcount Hne.
    induction Hcount as [|group chunk groups chunks Hc _ IH]; [constructor|].
    apply Forall_cons in Hne as [Hg Hne]. constructor; [|by apply IH].
    rewrite Hc. destruct group; [done | simpl; lia].
  - intros Hev Hnil. subst chunks. apply Forall2_nil_inv_r in Hcount.
    rewrite Hcount in Hperm. simpl in Hperm.
    by apply Permutation_nil_l in Hperm.
  - intros group event. apply groupBySize_oversize.
    + by intros e ?%elem_of_nil.
    + by intros e ?%elem_of_nil.
Qed.

(** C3 (the code does not do this).  The claim is about every calendar
    and event list.  For the calendar [parse] builds from
    [surrogateCalendar], with its one event, [splitBySize] has to write
    the event, [foldLine] never returns on its summary, and no chunk is
    returned; the defect is the one of C10. *)
Theorem splitBySize_returns_nothing_for_surrogateCalendar :
  length (events (parse surrogateCalendar)) = 1 ∧
  @splitBySize plainHost (parse surrogateCalendar)
     (events (parse surrogateCalendar)) 512000 true = None ∧
  @splitBySize plainHost (parse surrogateCalendar)
     (events (parse surrogateCalendar)) 512000 false = None.
Proof. repeat split; by vm_compute. Qed.

(** ** Well-formed text has lines that fold *)

Section WellFormed.

Implicit Types (s t l : jsstring).

Lemma thinned_refl s : thinned s s.
Proof. induction s; by constructor. Qed.

Lemma thinned_app s1 t1 s2 t2 :
  thinned s1 t1 → thinned s2 t2 → thinned (s1 ++ s2) (t1 ++ t2).
Proof.
  induction 1; intros ?; simpl;
    [done | apply thinned_keep | apply thinned_drop | apply thinned_swap];
    auto.
Qed.

Lemma thinned_reverse s t : thinned s t → thinned (reverse s) (reverse t).
Proof.
  induction 1 as [|c s t _ IH|c s t Hc _ IH|c d s t Hc Hc' Hd _ IH];
    rewrite ?reverse_cons; [constructor|..].
  - apply thinned_app; [done|]. by repeat constructor.
  - rewrite <- (app_nil_r (reverse t)). apply thinned_app; [done|].
    by repeat constructor.
  - apply thinned_app; [done|]. by repeat constructor.
Qed.

Lemma thinned_pairedHigh s t :
  thinned s t → pairedHigh s = true → pairedHigh t = true.
Proof.
  induction 1 as [|c s t Hst IH|c s t Hc _ IH|c d s t Hc Hc' Hd _ IH];
    cbn [pairedHigh]; [done|..].
  - intros [Hhead Hs]%andb_true_iff. rewrite (IH Hs), andb_true_r.
    destruct (isHighSurrogate c); [|done].
    destruct s as [|d s]; [done|].
    inversion Hst; simplify_eq; [done|congruence..].
  - intros [_ Hs]%andb_true_iff. by apply IH.
  - intros [_ Hs]%andb_true_iff. by rewrite Hd, IH.
Qed.

Lemma whiteSpace_not_low c : isWhiteSpace c = true → isLowSurrogate c = false.
Proof.
  unfold isWhiteSpace, isLowSurrogate. intros Hws.
  apply andb_false_iff.
  repeat (apply orb_true_iff in Hws as [Hws|Hws]);
    repeat match type of Hws with
           | (_ && _ = true) => apply andb_true_iff in Hws as [? Hws]
           end;
    repeat match goal with
           | H : (_ <=? _)%N = true |- _ => apply N.leb_le in H
           | H : (_ =? _)%N = true |- _ => apply N.eqb_eq in H
           end;
    first [left; apply N.leb_gt; lia | right; apply N.leb_gt; lia].
Qed.

Lemma thinned_trimStart s : thinned s (trimStart s).
Proof.
  induction s as [|c s IH]; simpl; [constructor|].
  destruct (isWhiteSpace c) eqn:Hc; [|apply thinned_refl].
  apply thinned_drop; [by apply whiteSpace_not_low | done].
Qed.

Lemma thinned_trimEnd s : thinned s (trimEnd s).
Proof.
  pose proof (thinned_reverse _ _ (thinned_trimStart (reverse s))) as Hthin.
  by rewrite reverse_involutive in Hthin.
Qed.

Lemma pairedHigh_trim s : pairedHigh s = true → pairedHigh (trim s) = true.
Proof.
  intros Hs. unfold trim.
  eapply thinned_pairedHigh; [apply thinned_trimEnd|].
  eapply thinned_pairedHigh; [apply thinned_trimStart | done].
Qed.

Lemma thinned_replaceCRLF s : thinned s (replaceCRLF s).
Proof.
  enough (thinned s (replaceCRLF s) ∧
          ∀ c, thinned (c :: s) (replaceCRLF (c :: s))) by tauto.
  induction s as [|d s [IH1 IH2]].
  - split; [constructor|]. intros c. apply thinned_refl.
  - split; [by apply IH2|]. intros c. simpl.
    destruct (N.eqb_spec c CR) as [->|_]; simpl;
      [|by apply thinned_keep, IH2].
    destruct (N.eqb_spec d LF) as [->|_]; [|by apply thinned_keep, IH2].
    apply thinned_drop; [done|]. by apply thinned_keep.
Qed.

Lemma thinned_replaceCR s : thinned s (replaceCR s).
Proof.
  unfold replaceCR. induction s as [|c s IH]; [constructor|].
  rewrite fmap_cons. destruct (N.eqb_spec c CR) as [->|_];
    [by apply thinned_swap | by apply thinned_keep].
Qed.

Lemma thinned_removeFolds s : thinned s (removeFolds s).
Proof.
  enough (thinned s (removeFolds s) ∧
          ∀ c, thinned (c :: s) (removeFolds (c :: s))) by tauto.
  induction s as [|d s [IH1 IH2]].
  - split; [constructor|]. intros c. apply thinned_refl.
  - split; [by apply IH2|]. intros c. simpl.
    destruct (N.eqb_spec c LF) as [->|_]; simpl;
      [|by apply thinned_keep, IH2].
    destruct (N.eqb_spec d SPACE) as [->|_]; simpl.
    { apply thinned_drop; [done|]. by apply thinned_drop. }
    destruct (N.eqb_spec d TAB) as [->|_]; simpl.
    { apply thinned_drop; [done|]. by apply thinned_drop. }
    by apply thinned_keep, IH2.
Qed.

Lemma pairedHigh_unfoldedContent icsContent :
  pairedHigh icsContent = true → pairedHigh (unfoldedContent icsContent) = true.
Proof.
  intros Hs. unfold unfoldedContent, normalizedContent.
  eapply thinned_pairedHigh; [apply thinned_removeFolds|].
  eapply thinned_pairedHigh; [apply thinned_replaceCR|].
  eapply thinned_pairedHigh; [apply thinned_replaceCRLF|]. done.
Qed.

Lemma split_not_nil sep s : split sep s ≠ [].
Proof.
  destruct s as [|c s]; simpl; [done|].
  destruct (c =? sep)%N; [done|]. by destruct (split sep s).
Qed.

(** The pieces between line feeds are well formed when the whole is. *)
Lemma pairedHigh_split s :
  pairedHigh s = true → Forall (λ l, pairedHigh l = true) (split LF s).
Proof.
  induction s as [|c s IH]; [by repeat constructor|].
  cbn [pairedHigh split]. intros [Hhead Hs]%andb_true_iff.
  specialize (IH Hs).
  destruct (N.eqb_spec c LF) as [->|Hc]; [by constructor|].
  destruct (split LF s) as [|l ls] eqn:Hsplit;
    [by apply split_not_nil in Hsplit|].
  apply Forall_cons in IH as [Hl Hls]. constructor; [|done].
  cbn [pairedHigh]. rewrite Hl, andb_true_r.
  destruct (isHighSurrogate c); [|done].
  destruct s as [|d s]; [done|]. simpl in Hsplit.
  destruct (N.eqb_spec d LF) as [->|_]; [done|].
  destruct (split LF s); by simplify_eq.
Qed.

Lemma pairedHigh_noAdjacentHigh s :
  pairedHigh s = true → noAdjacentHigh s = true.
Proof.
  induction s as [|c s IH]; [done|].
  cbn [pairedHigh noAdjacentHigh]. intros [Hhead Hs]%andb_true_iff.
  destruct s as [|d s]; [done|]. rewrite (IH Hs), andb_true_r.
  destruct (isHighSurrogate c); [|done]. simpl.
  unfold isLowSurrogate, isHighSurrogate in *.
  apply andb_true_iff in Hhead as [Hlow _]. apply N.leb_le in Hlow.
  apply negb_true_iff, andb_false_iff. right. apply N.leb_gt. lia.
Qed.

(** The lines of a well-formed text carry no two adjacent high
    surrogates: [foldLine] returns on each of them. *)
Lemma trimmedLines_wellFormed icsContent :
  pairedHigh icsContent = true →
  Forall (λ l, noAdjacentHigh l = true) (trimmedLines icsContent).
Proof.
  intros Hs. unfold trimmedLines, lines.
  apply Forall_fmap, Forall_forall.
  intros l [Hl _]%list_elem_of_In%filter_In. simpl.
  apply pairedHigh_noAdjacentHigh, pairedHigh_trim.
  apply list_elem_of_In in Hl.
  pose proof (pairedHigh_split _ (pairedHigh_unfoldedContent _ Hs)) as Hall.
  rewrite Forall_forall in Hall. by apply Hall.
Qed.

End WellFormed.

(** ** Statistics of a calendar *)

Section Extremes.

Implicit Types (kept : option Date) (date : Date) (dates : list Date).

Lemma earlierOf_spec kept date :
  ∃ earliest, earlierOf kept date = Some earliest ∧
    (kept = Some earliest ∨ earliest = date) ∧
    (timeValue earliest ≤ timeValue date)%Z ∧
    (∀ date', kept = Some date' → (timeValue earliest ≤ timeValue date')%Z).
Proof.
  destruct kept as [e|]; simpl.
  - destruct (Z.ltb_spec (timeValue date) (timeValue e)).
    + exists date. repeat split; [by right|lia|]. intros ? [= <-]. lia.
    + exists e. repeat split; [by left|lia|]. intros ? [= <-]. lia.
  - exists date. repeat split; [by right|lia|done].
Qed.

Lemma laterOf_spec kept date :
  ∃ latest, laterOf kept date = Some latest ∧
    (kept = Some latest ∨ latest = date) ∧
    (timeValue date ≤ timeValue latest)%Z ∧
    (∀ date', kept = Some date' → (timeValue date' ≤ timeValue latest)%Z).
Proof.
  destruct kept as [e|]; simpl.
  - destruct (Z.ltb_spec (timeValue e) (timeValue date)).
    + exists date. repeat split; [by right|lia|]. intros ? [= <-]. lia.
    + exists e. repeat split; [by left|lia|]. intros ? [= <-]. lia.
  - exists date. repeat split; [by right|lia|done].
Qed.

(** What the loop keeps is the least of what it started from and the
    dates it passed. *)
Lemma foldl_earlierOf kept dates :
  match foldl earlierOf kept dates with
  | Some earliest =>
      (kept = Some earliest ∨ earliest ∈ dates) ∧
      (∀ date, kept = Some date ∨ date ∈ dates →
               (timeValue earliest ≤ timeValue date)%Z)
  | None => kept = None ∧ dates = []
  end.
Proof.
  revert kept. induction dates as [|date0 dates IH]; intros kept; simpl.
  - destruct kept as [e|]; [|done]. split; [by left|].
    intros date [[= <-]|Hin]; [lia|]. by apply elem_of_nil in Hin.
  - specialize (IH (earlierOf kept date0)).
    destruct (earlierOf_spec kept date0) as (m & Hm & Hfrom & Hle0 & Hlek).
    rewrite Hm in IH |- *.
    destruct (foldl earlierOf (Some m) dates) as [e|]; [|by destruct IH].
    destruct IH as [Hmem Hleast].
    assert (timeValue e ≤ timeValue m)%Z as Hem by (apply Hleast; by left).
    split.
    + destruct Hmem as [[= <-]|Hmem]; [|right; apply elem_of_cons; by right].
      destruct Hfrom as [->| ->]; [by left|]. right. apply elem_of_cons. by left.
    + intros date [Hk|Hin].
      * specialize (Hlek _ Hk). lia.
      * apply elem_of_cons in Hin as [->|Hin]; [lia|]. apply Hleast. by right.
Qed.

Lemma foldl_laterOf kept dates :
  match foldl laterOf kept dates with
  | Some latest =>
      (kept = Some latest ∨ latest ∈ dates) ∧
      (∀ date, kept = Some date ∨ date ∈ dates →
               (timeValue date ≤ timeValue latest)%Z)
  | None => kept = None ∧ dates = []
  end.
Proof.
  revert kept. induction dates as [|date0 dates IH]; intros kept; simpl.
  - destruct kept as [e|]; [|done]. split; [by left|].
    intros date [[= <-]|Hin]; [lia|]. by apply elem_of_nil in Hin.
  - specialize (IH (laterOf kept date0)).
    destruct (laterOf_spec kept date0) as (m & Hm & Hfrom & Hle0 & Hlek).
    rewrite Hm in IH |- *.
    destruct (foldl laterOf (Some m) dates) as [e|]; [|by destruct IH].
    destruct IH as [Hmem Hleast].
    assert (timeValue m ≤ timeValue e)%Z as Hem by (apply Hleast; by left).
    split.
    + destruct Hmem as [[= <-]|Hmem]; [|right; apply elem_of_cons; by right].
      destruct Hfrom as [->| ->]; [by left|]. right. apply elem_of_cons. by left.
    + intros date [Hk|Hin].
      * specialize (Hlek _ Hk). lia.
      * apply elem_of_cons in Hin as [->|Hin]; [lia|]. apply Hleast. by right.
Qed.

End Extremes.

Section Statistics.

Context `{Host}.
Implicit Types (stats : Statistics) (events : list Event) (date : Date).

Lemma foldl_countEvent_total stats events :
  totalEvents (foldl countEvent stats events) = totalEvents stats.
Proof.
  revert stats. induction events as [|event events IH]; intros stats; [done|].
  simpl. rewrite IH. unfold countEvent. by destruct (getEventDate event).
Qed.

Lemma foldl_countEvent_earliest stats events :
  earliestDate (foldl countEvent stats events)
  = foldl earlierOf (earliestDate stats) (datesOf events).
Proof.
  revert stats. induction events as [|event events IH]; intros stats; [done|].
  cbn [foldl]. rewrite IH. unfold datesOf, countEvent. simpl.
  by destruct (getEventDate event).
Qed.

Lemma foldl_countEvent_latest stats events :
  latestDate (foldl countEvent stats events)
  = foldl laterOf (latestDate stats) (datesOf events).
Proof.
  revert stats. induction events as [|event events IH]; intros stats; [done|].
  cbn [foldl]. rewrite IH. unfold datesOf, countEvent. simpl.
  by destruct (getEventDate event).
Qed.

(** The count kept for a year grows by the number of events of that
    year. *)
Lemma foldl_countEvent_years stats events year :
  eventsByYear (foldl countEvent stats events) !! year
  = match eventsByYear stats !! year, length (eventsOfYear (Year year) events) with
    | None, 0 => None
    | count, n => Some (default 0 count + n)
    end.
Proof.
  revert stats. induction events as [|event events IH]; intros stats.
  - simpl. destruct (eventsByYear stats !! year); simpl; [f_equal; lia|done].
  - cbn [foldl]. rewrite IH, eventsOfYear_cons. unfold countEvent, yearOf.
    destruct (getEventDate event) as [date|]; simpl.
    + destruct (decide (getFullYear date = year)) as [<-|Hne].
      * rewrite lookup_insert_eq. rewrite decide_True by done. simpl.
        destruct (eventsByYear stats !! getFullYear date); simpl; f_equal; lia.
      * rewrite lookup_insert_ne by done.
        rewrite decide_False by congruence. done.
    + done.
Qed.

End Statistics.

(** ** Sorting with a consistent comparison *)

Section SortOrder.

Context {A : Type} (cmp : A → A → Z).
Hypothesis cmp_total : ∀ x y, (0 < cmp x y)%Z → (cmp y x ≤ 0)%Z.
Hypothesis cmp_trans :
  ∀ x y z, (cmp x y ≤ 0)%Z → (cmp y z ≤ 0)%Z → (cmp x z ≤ 0)%Z.

Lemma cmp_refl x : (cmp x x ≤ 0)%Z.
Proof. destruct (Z.lt_ge_cases 0 (cmp x x)); [by apply cmp_total | lia]. Qed.

Lemma insertSorted_sorted x l :
  StronglySorted (λ a b, (cmp a b ≤ 0)%Z) l →
  StronglySorted (λ a b, (cmp a b ≤ 0)%Z) (insertSorted cmp x l).
Proof.
  induction 1 as [|y l Hl IH Hy]; simpl.
  - by repeat constructor.
  - destruct (Z.leb_spec (cmp x y) 0) as [Hxy|Hxy].
    + constructor; [by constructor|]. constructor; [done|].
      eapply Forall_impl; [exact Hy|]. simpl. eauto.
    + constructor; [done|].
      rewrite insertSorted_Permutation. constructor; [|done].
      by apply cmp_total.
Qed.

(** The sorted list is in order: no element is followed, at any
    distance, by one that compares before it. *)
Lemma sort_sorted l : StronglySorted (λ a b, (cmp a b ≤ 0)%Z) (sort cmp l).
Proof.
  unfold sort. induction l as [|x l IH]; simpl; [constructor|].
  by apply insertSorted_sorted.
Qed.

Lemma sorted_head l x :
  StronglySorted (λ a b, (cmp a b ≤ 0)%Z) l → head l = Some x →
  ∀ y, y ∈ l → (cmp x y ≤ 0)%Z.
Proof.
  destruct 1 as [|z l Hl Hz]; [done|]. intros [= ->] y Hy.
  apply elem_of_cons in Hy as [->|Hy]; [apply cmp_refl|].
  rewrite Forall_forall in Hz. by apply Hz.
Qed.

Lemma sorted_last l x :
  StronglySorted (λ a b, (cmp a b ≤ 0)%Z) l → last l = Some x →
  ∀ y, y ∈ l → (cmp y x ≤ 0)%Z.
Proof.
  induction 1 as [|z l Hl IH Hz]; [done|]. intros Hlast y Hy.
  destruct l as [|z' l'].
  - injection Hlast as ->. apply list_elem_of_singleton in Hy as ->.
    apply cmp_refl.
  - change (last (z :: z' :: l')) with (last (z' :: l')) in Hlast.
    apply elem_of_cons in Hy as [->|Hy]; [|by apply IH].
    rewrite Forall_forall in Hz. apply Hz.
    apply last_Some in Hlast as [l'' ->]. apply elem_of_app. right.
    by apply list_elem_of_singleton.
Qed.

End SortOrder.

Section StatisticsOfEvents.

Context `{Host}.
Implicit Types (calendar : Calendar) (events : list Event).

Lemma sum_counts_insert (counts : gmap Z nat) year :
  sum_list (snd <$> map_to_list
              (<[year := default 0 (counts !! year) + 1]> counts))
  = sum_list (snd <$> map_to_list counts) + 1.
Proof.
  destruct (counts !! year) as [n|] eqn:Hyear; simpl.
  - rewrite <- (insert_delete_eq counts year (n + 1)).
    rewrite map_to_list_insert by apply lookup_delete_eq.
    rewrite <- (map_to_list_delete counts year n Hyear), !fmap_cons.
    generalize (snd <$> map_to_list (delete year counts)). intros rest.
    simpl. lia.
  - rewrite map_to_list_insert, fmap_cons by done.
    generalize (snd <$> map_to_list counts). intros rest. simpl. lia.
Qed.

Lemma foldl_countEvent_sum stats events :
  sum_list (snd <$> map_to_list (eventsByYear (foldl countEvent stats events)))
  = sum_list (snd <$> map_to_list (eventsByYear stats))
    + length (datesOf events).
Proof.
  revert stats. induction events as [|event events IH]; intros stats.
  - simpl. lia.
  - cbn [foldl]. rewrite IH. unfold countEvent, datesOf. cbn [omap list_omap].
    destruct (getEventDate event) as [date|]; [|done].
    cbn [eventsByYear]. rewrite sum_counts_insert. simpl. lia.
Qed.

End StatisticsOfEvents.

(** X1.  [getStatistics] counts every event of the calendar, dated or
    not.  Its earliest and latest date are dates of events, and every
    dated event lies between them; both are [null] exactly when no
    event has a date. *)
Theorem getStatistics_range `{Host} (calendar : Calendar) :
  totalEvents (getStatistics calendar) = length (events calendar) ∧
  match earliestDate (getStatistics calendar),
        latestDate (getStatistics calendar) with
  | Some earliest, Some latest =>
      earliest ∈ datesOf (events calendar) ∧
      latest ∈ datesOf (events calendar) ∧
      ∀ date, date ∈ datesOf (events calendar) →
              (timeValue earliest ≤ timeValue date ≤ timeValue latest)%Z
  | None, None => datesOf (events calendar) = []
  | _, _ => False
  end.
Proof.
  unfold getStatistics. split; [by rewrite foldl_countEvent_total|].
  rewrite foldl_countEvent_earliest, foldl_countEvent_latest.
  cbn [earliestDate latestDate].
  pose proof (foldl_earlierOf None (datesOf (events calendar))) as He.
  pose proof (foldl_laterOf None (datesOf (events calendar))) as Hl.
  destruct (foldl earlierOf None _) as [earliest|],
           (foldl laterOf None _) as [latest|].
  - destruct He as [[?|He] Hleast], Hl as [[?|Hl] Hmost]; try done.
    split; [done|]. split; [done|]. intros date Hdate.
    split; [apply Hleast | apply Hmost]; by right.
  - destruct Hl as [_ Hl], He as [[?|He] _]; [done|].
    rewrite Hl in He. by apply elem_of_nil in He.
  - destruct He as [_ He], Hl as [[?|Hl] _]; [done|].
    rewrite He in Hl. by apply elem_of_nil in Hl.
  - by destruct He.
Qed.

(** X2.  The count [getStatistics] keeps for a year is the size of the
    bucket [splitByYear] makes for that year, and there is a count
    exactly when there is a bucket.  The counts add up to the number of
    dated events: events without a date are in [totalEvents] only. *)
Theorem getStatistics_eventsByYear `{Host} (calendar : Calendar) :
  (∀ year, eventsByYear (getStatistics calendar) !! year
           = length <$> splitByYear (events calendar) !! Year year) ∧
  sum_list (snd <$> map_to_list (eventsByYear (getStatistics calendar)))
  = length (datesOf (events calendar)).
Proof.
  unfold getStatistics. split.
  - intros year. rewrite foldl_countEvent_years, splitByYear_lookup.
    cbn [eventsByYear]. rewrite lookup_empty.
    by destruct (eventsOfYear (Year year) (events calendar)).
  - rewrite foldl_countEvent_sum. cbn [eventsByYear].
    by rewrite map_to_list_empty.
Qed.

(** ** The date range of a chunk *)

Section ChunkDates.

Context `{Host}.
Implicit Types (calendar : Calendar) (events : list Event) (dates : list Date).

Lemma sorted_dates_head dates first :
  head (sort (λ a b, timeValue a - timeValue b)%Z dates) = Some first →
  first ∈ dates ∧ ∀ date, date ∈ dates → (timeValue first ≤ timeValue date)%Z.
Proof.
  intros Hhead. split.
  - rewrite <- (sort_Permutation (λ a b, timeValue a - timeValue b)%Z dates).
    destruct (sort _ dates); [done|]. injection Hhead as ->.
    apply elem_of_cons. by left.
  - intros date Hdate.
    enough (timeValue first - timeValue date ≤ 0)%Z by lia.
    eapply (sorted_head (λ a b, timeValue a - timeValue b)%Z);
      [| |exact Hhead|by rewrite sort_Permutation].
    + simpl. intros. lia.
    + apply sort_sorted; simpl; intros; lia.
Qed.

Lemma sorted_dates_last dates final :
  last (sort (λ a b, timeValue a - timeValue b)%Z dates) = Some final →
  final ∈ dates ∧ ∀ date, date ∈ dates → (timeValue date ≤ timeValue final)%Z.
Proof.
  intros Hlast. split.
  - rewrite <- (sort_Permutation (λ a b, timeValue a - timeValue b)%Z dates).
    apply last_Some in Hlast as [l' ->]. apply elem_of_app. right.
    by apply list_elem_of_singleton.
  - intros date Hdate.
    enough (timeValue date - timeValue final ≤ 0)%Z by lia.
    eapply (sorted_last (λ a b, timeValue a - timeValue b)%Z);
      [| |exact Hlast|by rewrite sort_Permutation].
    + simpl. intros. lia.
    + apply sort_sorted; simpl; intros; lia.
Qed.

Lemma sorted_dates_none dates :
  head (sort (λ a b, timeValue a - timeValue b)%Z dates) = None → dates = [].
Proof.
  intros Hhead. apply Permutation_nil_r.
  rewrite <- (sort_Permutation (λ a b, timeValue a - timeValue b)%Z dates).
  by destruct (sort _ dates).
Qed.

(** Two dates with the same time value are the same date. *)
Lemma Date_eq (a b : Date) : timeValue a = timeValue b → a = b.
Proof. destruct a, b. simpl. by intros ->. Qed.

End ChunkDates.

(** X3.  A chunk counts the events it was made of; its start and end
    date are the earliest and the latest date among them, the very
    dates [getStatistics] reports for a calendar that holds these
    events.  Both are [null] when none of the events has a date. *)
Theorem createChunkResult_dates `{Host} (calendar : Calendar)
    (group : list Event) (cleanMode : bool) (chunk : Chunk) :
  createChunkResult calendar group cleanMode = Some chunk →
  eventCount chunk = length group ∧
  startDate chunk
  = earliestDate (getStatistics
                    {| headerLines := headerLines calendar; events := group;
                       calendarProperties := calendarProperties calendar |}) ∧
  endDate chunk
  = latestDate (getStatistics
                  {| headerLines := headerLines calendar; events := group;
                     calendarProperties := calendarProperties calendar |}) ∧
  (∀ first, startDate chunk = Some first →
     ∀ date, date ∈ datesOf group → (timeValue first ≤ timeValue date)%Z) ∧
  (∀ final, endDate chunk = Some final →
     ∀ date, date ∈ datesOf group → (timeValue date ≤ timeValue final)%Z) ∧
  (startDate chunk = None ↔ datesOf group = []) ∧
  (endDate chunk = None ↔ datesOf group = []).
Proof.
  unfold createChunkResult. intros Hchunk.
  destruct (write calendar group cleanMode) as [text|]; [|done].
  injection Hchunk as <-. cbn [eventCount startDate endDate].
  fold (datesOf group).
  set (sorted := sort (λ a b, timeValue a - timeValue b)%Z (datesOf group)).
  pose proof (sorted_dates_head (datesOf group)) as Hhead.
  pose proof (sorted_dates_last (datesOf group)) as Hlast.
  pose proof (sorted_dates_none (datesOf group)) as Hnone.
  fold sorted in Hhead, Hlast, Hnone.
  assert (sorted ≡ₚ datesOf group) as Hperm by apply sort_Permutation.
  unfold getStatistics.
  rewrite foldl_countEvent_earliest, foldl_countEvent_latest.
  cbn [earliestDate latestDate events].
  pose proof (foldl_earlierOf None (datesOf group)) as He.
  pose proof (foldl_laterOf None (datesOf group)) as Hl.
  assert (head sorted = None ↔ datesOf group = []) as Hnohead.
  { split; [done|]. intros Hd. rewrite Hd in Hperm.
    apply Permutation_nil_r in Hperm. by rewrite Hperm. }
  assert (last sorted = None ↔ datesOf group = []) as Hnolast.
  { rewrite <- Hnohead. by destruct sorted using rev_ind;
      rewrite ?last_snoc; [|destruct sorted]. }
  split; [done|]. split; [|split; [|split; [|split; [|split]]]]; try done.
  - destruct (head sorted) as [first|] eqn:Hfirst.
    + destruct (Hhead first eq_refl) as [Hin Hleast].
      destruct (foldl earlierOf None _) as [earliest|].
      * destruct He as [[?|He] Hless]; [done|]. f_equal. apply Date_eq.
        specialize (Hleast _ He). specialize (Hless first (or_intror Hin)).
        lia.
      * destruct He as [_ He]. rewrite He in Hin. by apply elem_of_nil in Hin.
    + assert (datesOf group = []) as -> by (by apply Hnohead). done.
  - destruct (last sorted) as [final|] eqn:Hfinal.
    + destruct (Hlast final eq_refl) as [Hin Hmost].
      destruct (foldl laterOf None _) as [latest|].
      * destruct Hl as [[?|Hl] Hmore]; [done|]. f_equal. apply Date_eq.
        specialize (Hmost _ Hl). specialize (Hmore final (or_intror Hin)).
        lia.
      * destruct Hl as [_ Hl]. rewrite Hl in Hin. by apply elem_of_nil in Hin.
    + assert (datesOf group = []) as -> by (by apply Hnolast). done.
  - intros first Hfirst. by apply Hhead.
  - intros final Hfinal. by apply Hlast.
Qed.

(** X3 applied: the four events of the dated calendar as one chunk. *)
Lemma createChunkResult_dates_sample :
  ∃ chunk,
    @createChunkResult plainHost (parse datedCalendar)
      (datedEvents [0; 1; 2; 3]) false = Some chunk ∧
    eventCount chunk = 4 ∧
    (startDate chunk = None ↔ @datesOf plainHost (datedEvents [0; 1; 2; 3]) = []).
Proof.
  destruct (@createChunkResult plainHost (parse datedCalendar)
              (datedEvents [0; 1; 2; 3]) false) as [chunk|] eqn:Hchunk;
    [|vm_compute in Hchunk; discriminate].
  exists chunk. split; [reflexivity|].
  destruct (@createChunkResult_dates plainHost _ _ _ _ Hchunk)
    as (Hcount & _ & _ & _ & _ & Hnone & _).
  split; [exact Hcount | exact Hnone].
Defined.

(** ** The size of a text in bytes *)

Section ByteSize.

Implicit Types (text : jsstring).

Lemma getByteSize_cons c text :
  ∃ used rest,
    getByteSize (c :: text) = used + getByteSize rest ∧
    length (c :: text) = (if bool_decide (used = 4) then 2 else 1) + length rest ∧
    1 ≤ used ≤ 4 ∧ (used = 1 ↔ (c < 128)%N) ∧
    (used = 4 → ∃ d, text = d :: rest) ∧ (used ≠ 4 → text = rest).
Proof.
  cbn [getByteSize]. unfold isHighSurrogate.
  destruct (N.leb_spec 0xD800 c), (N.leb_spec c 0xDBFF); cbn [andb].
  - destruct text as [|d text].
    + exists 3, []. repeat split; try (simpl; lia); try done.
    + destruct (isLowSurrogate d).
      * exists 4, text. repeat split; try (simpl; lia); try done. by exists d.
      * exists 3, (d :: text). repeat split; try (simpl; lia); try done.
  - destruct (N.ltb_spec c 0x80); [lia|]. destruct (N.ltb_spec c 0x800); [lia|].
    exists 3, text. repeat split; try (simpl; lia); try done.
  - destruct (N.ltb_spec c 0x80).
    + exists 1, text. repeat split; try (simpl; lia); try done.
    + destruct (N.ltb_spec c 0x800).
      * exists 2, text. repeat split; try (simpl; lia); try done.
      * exists 3, text. repeat split; try (simpl; lia); try done.
  - lia.
Qed.

Lemma getByteSize_bounded n text :
  length text ≤ n →
  length text ≤ getByteSize text ≤ 3 * length text ∧
  (getByteSize text = length text ↔ ascii text).
Proof.
  revert text. induction n as [|n IH]; intros text Hn.
  - destruct text; [|simpl in Hn; lia]. simpl. split; [lia|]. split; [|done].
    intros _. constructor.
  - destruct text as [|c text].
    { simpl. split; [lia|]. split; [|done]. intros _. constructor. }
    destruct (getByteSize_cons c text)
      as (used & rest & -> & Hlen & Hused & Hone & Hpair & Hsingle).
    rewrite Hlen.
    destruct (IH rest) as [Hbound Hascii].
    { simpl in Hn, Hlen. destruct (bool_decide (used = 4)); lia. }
    case_bool_decide as Hfour.
    + split; [lia|]. destruct (Hpair Hfour) as [d ->]. split; [lia|].
      intros Hall. apply Forall_cons in Hall as [Hc _].
      apply Hone in Hc. lia.
    + rewrite (Hsingle Hfour). split; [lia|]. split.
      * intros Hsame. assert (used = 1) as Hu by lia.
        constructor; [by apply Hone|]. apply Hascii. lia.
      * intros Hall. apply Forall_cons in Hall as [Hc Hall].
        apply Hone in Hc. apply Hascii in Hall. lia.
Qed.

End ByteSize.

(** ** More on the scanning loop of [parse] *)

Section ParseInvariants.

Implicit Types (st : ParseState) (l : jsstring) (ls : list jsstring).

Lemma parseLine_headerOnly st l : headerOnly st → headerOnly (parseLine st l).
Proof.
  unfold headerOnly.
  destruct st as [cal cur curLines inEv found alarm]. simpl. intros Hst.
  destruct found.
  - destruct cur, inEv, alarm; unfold parseLine; simpl;
      repeat (case_decide; simpl); done.
  - destruct (Hst eq_refl) as (Hev & -> & -> & ->).
    destruct alarm; unfold parseLine; simpl;
      repeat (case_decide; simpl); done.
Qed.

Lemma parseLine_eventLinesPlain st l :
  eventLinesPlain st → eventLinesPlain (parseLine st l).
Proof.
  unfold eventLinesPlain, plainLine, eventMarker, alarmMarker.
  destruct st as [cal cur curLines inEv found alarm]. simpl.
  intros (Hev & Hcur).
  destruct cur, inEv, found, alarm; unfold parseLine; simpl;
    repeat (case_decide; simpl); repeat split; try done;
    apply Forall_app; (split; [done|]); repeat constructor; try done; tauto.
Qed.

Lemma propertiesOfLines_snoc ls l :
  propertiesOfLines (ls ++ [l]) = addProperty (propertiesOfLines ls) l.
Proof. unfold propertiesOfLines. by rewrite foldl_app. Qed.

Lemma parseLine_propertiesFromLines st l :
  propertiesFromLines st → propertiesFromLines (parseLine st l).
Proof.
  unfold propertiesFromLines.
  destruct st as [cal cur curLines inEv found alarm]. simpl.
  intros (Hev & Hcur).
  assert (Forall (λ event, properties event = propertiesOfLines (_rawLines event))
            (match cur with
             | Some props => events cal ++ [{| properties := props;
                                               _rawLines := curLines |}]
             | None => events cal
             end)) as Hpush.
  { destruct cur as [props|]; [|done]. apply Forall_app. split; [done|].
    constructor; [|constructor]. simpl. by apply Hcur. }
  assert (∀ props',
            match indexOf COLON (trim l) with
            | Some colonIndex =>
                let '(name, prop) := eventProperty (trim l) colonIndex in
                setProp name prop <$> cur
            | None => cur
            end = Some props' →
            props' = propertiesOfLines (curLines ++ [trim l])) as Hadd.
  { intros props'. rewrite propertiesOfLines_snoc. unfold addProperty.
    destruct cur as [props|].
    - rewrite <- (Hcur props eq_refl).
      destruct (indexOf COLON (trim l)); simpl; by intros [= <-].
    - by destruct (indexOf COLON (trim l)). }
  destruct inEv, found, alarm; unfold parseLine; simpl;
    repeat (case_decide; simpl); try done; split; try done;
    try (by destruct cur); by intros ? [= <-].
Qed.

Lemma parseLine_storedLines st l done :
  headerOnly st → sublist (storedLines st) done →
  sublist (storedLines (parseLine st l)) (done ++ [trim l]).
Proof.
  unfold headerOnly, storedLines.
  destruct st as [cal cur curLines inEv found alarm]. simpl.
  intros Hst Hsub.
  assert (∀ stored, sublist stored
            (headerLines cal ++ concat (_rawLines <$> events cal) ++ curLines) →
          sublist stored (done ++ [trim l])) as Hless.
  { intros stored Hs. etrans; [exact Hs|]. etrans; [exact Hsub|].
    by apply sublist_inserts_r. }
  assert (sublist ((headerLines cal ++ concat (_rawLines <$> events cal)
                    ++ curLines) ++ [trim l]) (done ++ [trim l])) as Hmore.
  { by apply sublist_app. }
  destruct found.
  - destruct cur, inEv, alarm; unfold parseLine; simpl;
      repeat (case_decide; simpl);
      rewrite ?fmap_app, ?concat_app; simpl; rewrite ?app_nil_r;
      try (by apply Hless);
      try (apply Hless; apply sublist_app; [done|]; by apply sublist_inserts_r).
    all: by rewrite <- !app_assoc in Hmore.
  - destruct (Hst eq_refl) as (Hev & -> & -> & ->). rewrite Hev in *.
    simpl in *. rewrite ?app_nil_r in *.
    destruct alarm; unfold parseLine; simpl;
      repeat (case_decide; simpl); rewrite ?Hev; simpl; rewrite ?app_nil_r;
      try (by apply Hless); done.
Qed.

Lemma foldl_parse_invariants ls st done :
  headerOnly st → eventLinesPlain st → propertiesFromLines st →
  sublist (storedLines st) done →
  headerOnly (foldl parseLine st ls) ∧
  eventLinesPlain (foldl parseLine st ls) ∧
  propertiesFromLines (foldl parseLine st ls) ∧
  sublist (storedLines (foldl parseLine st ls)) (done ++ (trim <$> ls)).
Proof.
  revert st done. induction ls as [|l ls IH]; intros st done Hh Hp Hf Hs.
  - simpl. by rewrite app_nil_r.
  - cbn [foldl fmap list_fmap].
    replace (done ++ trim l :: (trim <$> ls))
      with ((done ++ [trim l]) ++ (trim <$> ls)) by by rewrite <- app_assoc.
    apply IH.
    + by apply parseLine_headerOnly.
    + by apply parseLine_eventLinesPlain.
    + by apply parseLine_propertiesFromLines.
    + by apply parseLine_storedLines.
Qed.

Lemma parse_invariants icsContent :
  eventLinesPlain (foldl parseLine initialState (lines icsContent)) ∧
  propertiesFromLines (foldl parseLine initialState (lines icsContent)) ∧
  sublist (storedLines (foldl parseLine initialState (lines icsContent)))
          (trimmedLines icsContent).
Proof.
  destruct (foldl_parse_invariants (lines icsContent) initialState [])
    as (_ & Hp & Hf & Hs); done.
Qed.

End ParseInvariants.

Section PropertyBags.

Context {V : Type}.
Implicit Types (o : jsobject V) (k : jsstring) (v : V).

Lemma getProp_replaceProp k v o k' :
  getProp k' (replaceProp k v o)
  = if decide (k' = k) then (λ _, v) <$> getProp k o else getProp k' o.
Proof.
  induction o as [|[k0 v0] o IH]; simpl.
  - by destruct (decide (k' = k)).
  - destruct (decide (k0 = k)) as [->|Hk0]; simpl; rewrite ?IH;
      repeat case_decide; by simplify_eq.
Qed.

Lemma getProp_insertIndexed i k v o k' :
  getProp k o = None →
  getProp k' (insertIndexed i k v o)
  = if decide (k' = k) then Some v else getProp k' o.
Proof.
  induction o as [|[k0 v0] o IH]; simpl.
  - intros _. repeat case_decide; by simplify_eq.
  - destruct (decide (k0 = k)) as [->|Hk0]; [done|]. intros Hnone.
    destruct (arrayIndex k0) as [j|]; [destruct (j <? i)%Z|]; simpl;
      rewrite ?(IH Hnone); repeat case_decide; by simplify_eq.
Qed.

Lemma getProp_snoc k v o k' :
  getProp k o = None →
  getProp k' (o ++ [(k, v)])
  = if decide (k' = k) then Some v else getProp k' o.
Proof.
  induction o as [|[k0 v0] o IH]; simpl.
  - intros _. repeat case_decide; by simplify_eq.
  - destruct (decide (k0 = k)) as [->|Hk0]; [done|]. intros Hnone.
    rewrite (IH Hnone). repeat case_decide; by simplify_eq.
Qed.

(** Reading after writing: the key written reads as the value written,
    every other key as before.  The key [__proto__] writes no property. *)
Lemma getProp_setProp k v o k' :
  k ≠ lit "__proto__" →
  getProp k' (setProp k v o)
  = if decide (k' = k) then Some v else getProp k' o.
Proof.
  intros Hproto. unfold setProp. rewrite decide_False by done.
  destruct (getProp k o) as [v0|] eqn:Hk.
  - rewrite getProp_replaceProp, Hk. done.
  - destruct (arrayIndex k);
      [by apply getProp_insertIndexed | by apply getProp_snoc].
Qed.

Lemma getProp_setProp_proto v o : setProp (lit "__proto__") v o = o.
Proof. unfold setProp. by rewrite decide_True. Qed.

End PropertyBags.

Section PropertiesOfLines.

Implicit Types (name l : jsstring) (ls : list jsstring).

Lemma entriesNamed_snoc name ls l :
  entriesNamed name (ls ++ [l]) = entriesNamed name ls ++ entriesNamed name [l].
Proof. unfold entriesNamed. by rewrite omap_app. Qed.

Lemma getProp_addProperty name props l :
  name ≠ lit "__proto__" →
  getProp name (addProperty props l)
  = match entriesNamed name [l] with
    | prop :: _ => Some prop
    | [] => getProp name props
    end.
Proof.
  intros Hname. unfold addProperty, entriesNamed. cbn [omap list_omap].
  destruct (indexOf COLON l) as [colonIndex|]; [|done].
  destruct (eventProperty l colonIndex) as [name' prop].
  destruct (decide (name' = lit "__proto__")) as [->|Hproto].
  - rewrite getProp_setProp_proto. by rewrite decide_False by congruence.
  - rewrite getProp_setProp by done.
    destruct (decide (name' = name)) as [->|Hne].
    + by rewrite decide_True.
    + by rewrite decide_False by congruence.
Qed.

Lemma getProp_propertiesOfLines name ls :
  name ≠ lit "__proto__" →
  getProp name (propertiesOfLines ls) = last (entriesNamed name ls).
Proof.
  intros Hname. induction ls as [|l ls IH] using rev_ind; [done|].
  rewrite propertiesOfLines_snoc, entriesNamed_snoc.
  rewrite getProp_addProperty, IH by done.
  assert (length (entriesNamed name [l]) ≤ 1) as Hone.
  { unfold entriesNamed. cbn [omap list_omap].
    destruct (indexOf COLON l) as [colonIndex|]; [|simpl; lia].
    destruct (eventProperty l colonIndex) as [name' prop].
    destruct (decide (name' = name)); simpl; lia. }
  destruct (entriesNamed name [l]) as [|prop [|? ?]]; simpl in Hone; [|..|lia].
  - by rewrite app_nil_r.
  - by rewrite last_snoc.
Qed.

End PropertiesOfLines.

(** X5.  [parse] stores lines of the input and nothing else: the header
    lines followed by the lines of the events, in this order, are a
    subsequence of the trimmed non-blank lines of the input.  A line of
    an event is trimmed, not blank, without line break, and is none of
    the markers [BEGIN:VEVENT], [END:VEVENT], [END:VCALENDAR],
    [BEGIN:VALARM], [END:VALARM]. *)
Theorem parse_stores_input_lines (icsContent : jsstring) :
  sublist (headerLines (parse icsContent)
           ++ concat (_rawLines <$> events (parse icsContent)))
          (trimmedLines icsContent) ∧
  Forall (λ event, Forall (λ l, contentLine l ∧ plainLine l) (_rawLines event))
         (events (parse icsContent)).
Proof.
  destruct (parse_invariants icsContent) as ((Hplain & _) & _ & Hsub).
  unfold parse. unfold storedLines in Hsub.
  assert (sublist (headerLines (calendar (foldl parseLine initialState
                                            (lines icsContent)))
                   ++ concat (_rawLines <$> events (calendar
                        (foldl parseLine initialState (lines icsContent)))))
                  (trimmedLines icsContent)) as Hstored.
  { etrans; [|exact Hsub]. apply sublist_app; [done|].
    by apply sublist_inserts_r. }
  split; [exact Hstored|].
  pose proof (trimmedLines_contentLine icsContent) as Hcontent.
  apply Forall_forall. intros event Hevent. apply Forall_forall. intros l Hl.
  split.
  - rewrite Forall_forall in Hcontent. apply Hcontent.
    eapply elem_of_sublist; [|exact Hstored]. apply elem_of_app. right.
    apply list_elem_of_In, in_concat. exists (_rawLines event).
    rewrite <- !list_elem_of_In. split; [|done].
    apply list_elem_of_fmap. by exists event.
  - rewrite Forall_forall in Hplain. specialize (Hplain event Hevent).
    rewrite Forall_forall in Hplain. by apply Hplain.
Qed.

(** X6.  The properties of an event follow its lines.  For every event
    [parse] returns and every name other than [__proto__], the entry
    under the name is the one made from the last line of the event that
    has a colon and carries this name in front of its first semicolon or
    colon; there is no entry when the event has no such line. *)
Theorem parse_properties_last_wins (icsContent : jsstring) (event : Event)
    (name : jsstring) :
  event ∈ events (parse icsContent) →
  name ≠ lit "__proto__" →
  getProp name (properties event) = last (entriesNamed name (_rawLines event)).
Proof.
  intros Hevent Hname.
  destruct (parse_invariants icsContent) as (_ & (Hprops & _) & _).
  rewrite Forall_forall in Hprops. rewrite (Hprops event Hevent).
  by apply getProp_propertiesOfLines.
Qed.

(** X6 applied: the event that sets its summary and its start twice. *)
Lemma parse_properties_last_wins_sample :
  Forall (λ event,
            event ∈ events (parse repeatedCalendar) ∧
            lit "SUMMARY" ≠ lit "__proto__" ∧
            getProp (lit "SUMMARY") (properties event)
            = last (entriesNamed (lit "SUMMARY") (_rawLines event)))
         (events (parse repeatedCalendar)).
Proof.
  apply Forall_forall. intros event Hevent.
  assert (lit "SUMMARY" ≠ lit "__proto__") as Hname by discriminate.
  split; [exact Hevent|]. split; [exact Hname|].
  exact (parse_properties_last_wins repeatedCalendar event _ Hevent Hname).
Defined.

(** ** Counting the events *)

Section EventCount.

Implicit Types (st : ParseState) (l m : jsstring) (ls : list jsstring).

Lemma occurrences_single m l :
  occurrences m [l] = if decide (l = m) then 1 else 0.
Proof.
  unfold occurrences. simpl. case_bool_decide; by case_decide.
Qed.

Lemma BEGIN_VEVENT_not_END : BEGIN_VEVENT ≠ END_VEVENT.
Proof. discriminate. Qed.

Lemma parseLine_count st l done :
  length (events (calendar st)) + openEvents st
    ≤ occurrences BEGIN_VEVENT done →
  length (events (calendar st)) ≤ occurrences END_VEVENT done →
  length (events (calendar (parseLine st l))) + openEvents (parseLine st l)
    ≤ occurrences BEGIN_VEVENT (done ++ [trim l]) ∧
  length (events (calendar (parseLine st l)))
    ≤ occurrences END_VEVENT (done ++ [trim l]).
Proof.
  rewrite !occurrences_app, !occurrences_single. unfold openEvents.
  destruct st as [cal cur curLines inEv found alarm]. simpl.
  intros Hbegin Hend. pose proof BEGIN_VEVENT_not_END as Hne.
  destruct cur, inEv, found, alarm; unfold parseLine; simpl;
    repeat (case_decide; simpl); simplify_eq; rewrite ?length_app; simpl;
    try lia; destruct (indexOf COLON (trim l)); simpl; lia.
Qed.

Lemma foldl_parse_count ls st done :
  length (events (calendar st)) + openEvents st
    ≤ occurrences BEGIN_VEVENT done →
  length (events (calendar st)) ≤ occurrences END_VEVENT done →
  length (events (calendar (foldl parseLine st ls)))
    ≤ occurrences BEGIN_VEVENT (done ++ (trim <$> ls)) ∧
  length (events (calendar (foldl parseLine st ls)))
    ≤ occurrences END_VEVENT (done ++ (trim <$> ls)).
Proof.
  revert st done. induction ls as [|l ls IH]; intros st done Hbegin Hend.
  - simpl. rewrite app_nil_r. split; lia.
  - cbn [foldl fmap list_fmap].
    replace (done ++ trim l :: (trim <$> ls))
      with ((done ++ [trim l]) ++ (trim <$> ls)) by by rewrite <- app_assoc.
    destruct (parseLine_count st l done Hbegin Hend). by apply IH.
Qed.

(** Markers that open and close in turn: as many of one as of the other. *)
Lemma eventsBalanced_occurrences inside ls :
  eventsBalanced inside ls = true →
  occurrences BEGIN_VEVENT ls + (if inside then 1 else 0)
  = occurrences END_VEVENT ls.
Proof.
  revert inside. induction ls as [|l ls IH]; intros inside; simpl.
  - by destruct inside.
  - change (l :: ls) with ([l] ++ ls).
    rewrite !occurrences_app, !occurrences_single.
    pose proof BEGIN_VEVENT_not_END as Hne.
    repeat case_decide; simplify_eq.
    + intros [Hin Hbal]%andb_prop. apply IH in Hbal.
      destruct inside; [done|]. simpl in *. lia.
    + intros [Hin Hbal]%andb_prop. apply IH in Hbal.
      destruct inside; [|done]. simpl in *. lia.
    + intros Hbal. apply IH in Hbal. lia.
Qed.

Lemma foldl_parse_balanced ls st :
  (is_Some (currentEvent st) ↔ inEvent st = true) →
  eventsBalanced (inEvent st) (trim <$> ls) = true →
  length (events (calendar (foldl parseLine st ls)))
  = length (events (calendar st)) + occurrences END_VEVENT (trim <$> ls).
Proof.
  revert st. induction ls as [|l ls IH]; intros st Hopen.
  - simpl. intros _. unfold occurrences. simpl. lia.
  - cbn [foldl fmap list_fmap eventsBalanced].
    change (trim l :: (trim <$> ls)) with ([trim l] ++ (trim <$> ls)).
    rewrite occurrences_app, occurrences_single.
    pose proof BEGIN_VEVENT_not_END as Hne.
    destruct st as [cal cur curLines inEv found alarm]. simpl in *.
    destruct (decide (trim l = BEGIN_VEVENT)) as [Hb|Hb].
    + intros [Hin Hbal]%andb_prop. rewrite IH.
      * unfold parseLine. simpl. rewrite !decide_True by done. simpl.
        rewrite decide_False by congruence. lia.
      * unfold parseLine. simpl. rewrite !decide_True by done. simpl.
        split; [done|by eexists].
      * unfold parseLine. simpl. rewrite !decide_True by done. done.
    + destruct (decide (trim l = END_VEVENT)) as [He|He].
      * intros [Hin Hbal]%andb_prop. subst inEv.
        destruct Hopen as [_ [props ->]]; [done|]. rewrite IH.
        -- unfold parseLine. simpl. rewrite decide_False, decide_True by done.
           simpl. rewrite length_app. simpl. lia.
        -- unfold parseLine. simpl. rewrite decide_False, decide_True by done.
           simpl. split; [by intros [? ?]|done].
        -- unfold parseLine. simpl. rewrite decide_False, decide_True by done.
           done.
      * intros Hbal.
        assert (inEvent (parseLine (mkState cal cur curLines inEv found alarm) l)
                = inEv ∧
                events (calendar
                  (parseLine (mkState cal cur curLines inEv found alarm) l))
                = events cal ∧
                (is_Some (currentEvent
                   (parseLine (mkState cal cur curLines inEv found alarm) l))
                 ↔ inEv = true)) as (Hin' & Hev' & Hopen').
        { unfold parseLine. simpl. rewrite !decide_False by done.
          destruct Hopen as [Hopen1 Hopen2].
          destruct inEv, found; simpl; repeat case_decide; simpl;
            repeat split; try done;
            destruct alarm; simpl; try done;
            destruct (indexOf COLON (trim l)); simpl;
            rewrite ?fmap_is_Some; auto. }
        rewrite IH; [rewrite Hev'; lia|by rewrite Hin'|by rewrite Hin'].
Qed.

End EventCount.

(** X7.  [parse] returns at most one event for every [BEGIN:VEVENT]
    line and at most one for every [END:VEVENT] line.  When the two
    markers open and close in turn, it returns exactly one event for
    every [BEGIN:VEVENT] line. *)
Theorem parse_event_count (icsContent : jsstring) :
  length (events (parse icsContent))
    ≤ occurrences BEGIN_VEVENT (trimmedLines icsContent) ∧
  length (events (parse icsContent))
    ≤ occurrences END_VEVENT (trimmedLines icsContent) ∧
  (eventsBalanced false (trimmedLines icsContent) = true →
   length (events (parse icsContent))
   = occurrences BEGIN_VEVENT (trimmedLines icsContent)).
Proof.
  unfold parse, trimmedLines.
  destruct (foldl_parse_count (lines icsContent) initialState [])
    as [Hbegin Hend]; [done|done|].
  split; [done|]. split; [done|]. intros Hbal.
  rewrite (foldl_parse_balanced (lines icsContent) initialState); [|by split; [intros [? ?]|]|done].
  apply eventsBalanced_occurrences in Hbal. simpl in *. lia.
Qed.

(** ** Line ends *)

Section LineEnds.

Implicit Types (s l : jsstring) (ls : list jsstring).

Lemma replaceCRLF_noLF s : Forall (λ c, c ≠ LF) s → replaceCRLF s = s.
Proof.
  induction 1 as [|c s Hc Hs IH]; [done|].
  destruct s as [|d s]; [done|].
  change (replaceCRLF (c :: d :: s))
    with (if (c =? CR)%N && (d =? LF)%N then LF :: replaceCRLF s
          else c :: replaceCRLF (d :: s)).
  apply Forall_cons in Hs as [Hd _].
  destruct (N.eqb_spec d LF); [done|]. rewrite andb_false_r. by rewrite IH.
Qed.

Lemma replaceCRLF_noCR s : Forall (λ c, c ≠ CR) s → replaceCRLF s = s.
Proof.
  intros Hs. rewrite <- (app_nil_r s) at 1.
  rewrite replaceCRLF_app by done. by rewrite app_nil_r.
Qed.

Lemma join_Forall (P : N → Prop) sep ls :
  Forall P sep → Forall (Forall P) ls → Forall P (join sep ls).
Proof.
  intros Hsep. induction 1 as [|l ls Hl Hls IH]; [constructor|].
  destruct ls as [|l' ls]; [done|]. rewrite join_cons_cons.
  rewrite !Forall_app. by repeat split.
Qed.

Lemma replaceCRLF_join ls :
  Forall noLineBreak ls → replaceCRLF (join CRLF ls) = join [LF] ls.
Proof.
  induction 1 as [|l ls Hl Hls IH]; [done|].
  destruct ls as [|l' ls].
  - simpl. apply replaceCRLF_noCR. by apply noLineBreak_noCR.
  - rewrite !join_cons_cons, replaceCRLF_app by by apply noLineBreak_noCR.
    change (replaceCRLF (CRLF ++ join CRLF (l' :: ls)))
      with (LF :: replaceCRLF (join CRLF (l' :: ls))).
    by rewrite IH.
Qed.

Lemma replaceCR_join ls :
  Forall noLineBreak ls → replaceCR (join [CR] ls) = join [LF] ls.
Proof.
  induction 1 as [|l ls Hl Hls IH]; [done|].
  destruct ls as [|l' ls].
  - simpl. apply replaceCR_id. by apply noLineBreak_noCR.
  - rewrite !join_cons_cons.
    change (replaceCR (l ++ [CR] ++ join [CR] (l' :: ls)))
      with ((λ c, if (c =? CR)%N then LF else c)
              <$> (l ++ CR :: join [CR] (l' :: ls))).
    rewrite fmap_app, fmap_cons.
    change ((λ c, if (c =? CR)%N then LF else c) <$> l) with (replaceCR l).
    change ((λ c, if (c =? CR)%N then LF else c) <$> join [CR] (l' :: ls))
      with (replaceCR (join [CR] (l' :: ls))).
    rewrite IH, replaceCR_id by by apply noLineBreak_noCR. done.
Qed.

(** Whatever the line ends, the normalized text is the same. *)
Lemma normalizedContent_join ls :
  Forall noLineBreak ls →
  normalizedContent (join CRLF ls) = join [LF] ls ∧
  normalizedContent (join [CR] ls) = join [LF] ls ∧
  normalizedContent (join [LF] ls) = join [LF] ls.
Proof.
  intros Hls. unfold normalizedContent.
  assert (Forall (λ c, c ≠ CR) (join [LF] ls)) as HnoCR.
  { apply join_Forall; [by repeat constructor|].
    eapply Forall_impl; [exact Hls|]. apply noLineBreak_noCR. }
  assert (Forall (λ c, c ≠ LF) (join [CR] ls)) as HnoLF.
  { apply join_Forall; [by repeat constructor|].
    eapply Forall_impl; [exact Hls|]. apply noLineBreak_noLF. }
  split; [|split].
  - rewrite replaceCRLF_join by done. by apply replaceCR_id.
  - rewrite replaceCRLF_noLF by done. by apply replaceCR_join.
  - rewrite replaceCRLF_noCR by done. by apply replaceCR_id.
Qed.

Lemma parse_normalizedContent s s' :
  normalizedContent s = normalizedContent s' → parse s = parse s'.
Proof.
  intros Hs. unfold parse, lines, unfoldedContent. by rewrite Hs.
Qed.

End LineEnds.

(** X8.  The line ends do not matter to [parse]: the same lines joined
    by CRLF, by a bare carriage return or by a bare line feed give the
    same calendar. *)
Theorem parse_line_ends (ls : list jsstring) :
  Forall noLineBreak ls →
  parse (join CRLF ls) = parse (join [LF] ls) ∧
  parse (join [CR] ls) = parse (join [LF] ls).
Proof.
  intros Hls. destruct (normalizedContent_join ls Hls) as (Hcrlf & Hcr & Hlf).
  split; apply parse_normalizedContent; congruence.
Qed.

(** X8 applied: the lines of the plain calendar. *)
Lemma parse_line_ends_sample :
  Forall noLineBreak (documentLines plainHeader plainBodies) ∧
  parse (join CRLF (documentLines plainHeader plainBodies))
  = parse (join [LF] (documentLines plainHeader plainBodies)) ∧
  parse (join [CR] (documentLines plainHeader plainBodies))
  = parse (join [LF] (documentLines plainHeader plainBodies)).
Proof.
  assert (Forall noLineBreak (documentLines plainHeader plainBodies)) as Hlines
    by (apply (bool_decide_unpack _); vm_compute; exact I).
  split; [exact Hlines|].
  exact (parse_line_ends (documentLines plainHeader plainBodies) Hlines).
Defined.

(** ** Reading back folded lines *)

Section Refold.

Implicit Types (l first out tail : jsstring) (ls rest chunks : list jsstring)
  (p : LineParts) (parts : list LineParts).

Lemma join_endEach sep ls : ls ≠ [] → join sep ls ++ sep = endEach sep ls.
Proof.
  unfold endEach. induction ls as [|l ls IH]; [done|]. intros _.
  destruct ls as [|l' ls].
  - simpl. by rewrite app_nil_r.
  - rewrite join_cons_cons, fmap_cons, concat_cons, <- IH by done.
    by rewrite <- !app_assoc.
Qed.

(** What [foldLine] returns, as a first part and continuation parts. *)
Lemma foldLine_parts l out :
  foldLine l = Some out → l ≠ [] →
  ∃ p, out = foldedLine CRLF p ∧ logicalLine p = l ∧ p.1 ≠ [].
Proof.
  intros Hfold Hne.
  destruct (Nat.le_gt_cases (length l) MAX_LINE_LENGTH) as [Hshort|Hlong].
  - rewrite foldLine_short in Hfold by done. injection Hfold as <-.
    exists (l, []). unfold foldedLine, logicalLine, continuations. simpl.
    by rewrite app_nil_r.
  - destruct (foldLine_long l out Hlong Hfold)
      as (first & rest & -> & Hcat & Hfirst & _).
    exists (first, rest). unfold foldedLine, logicalLine. simpl.
    split; [|done].
    change (first :: ((SPACE ::.) <$> rest))
      with (segmentsOf true (first :: rest)).
    apply join_segmentsOf.
Qed.

Lemma replaceCRLF_continuations_app chunks tail :
  Forall noLineBreak chunks →
  replaceCRLF (continuations CRLF chunks ++ tail)
  = continuations [LF] chunks ++ replaceCRLF tail.
Proof.
  unfold continuations.
  induction 1 as [|c chunks Hc _ IH]; [done|].
  rewrite !fmap_cons, !concat_cons.
  change (CRLF ++ SPACE :: c) with (CR :: LF :: SPACE :: c).
  change ([LF] ++ SPACE :: c) with (LF :: SPACE :: c).
  rewrite <- !app_assoc, <- !app_comm_cons.
  change (replaceCRLF (CR :: LF :: ?s)) with (LF :: replaceCRLF s).
  rewrite replaceCRLF_cons by done.
  rewrite replaceCRLF_app by (by apply noLineBreak_noCR).
  by rewrite IH.
Qed.

Lemma removeFolds_continuations_app chunks tail :
  Forall noLineBreak chunks →
  removeFolds (continuations [LF] chunks ++ tail)
  = concat chunks ++ removeFolds tail.
Proof.
  unfold continuations.
  induction 1 as [|c chunks Hc _ IH]; [done|].
  rewrite !fmap_cons, !concat_cons.
  change ([LF] ++ SPACE :: c) with (LF :: SPACE :: c).
  rewrite <- !app_assoc, <- !app_comm_cons.
  change (removeFolds (LF :: SPACE :: ?s)) with (removeFolds s).
  rewrite removeFolds_app by (by apply noLineBreak_noLF). by rewrite IH.
Qed.

Lemma lineStart_noCR p :
  lineStart p → Forall (λ c, c ≠ CR) (foldedLine [LF] p ++ [LF]).
Proof.
  intros (Hfirst & Hrest & _). unfold foldedLine.
  rewrite !Forall_app. repeat split.
  - by apply noLineBreak_noCR.
  - by apply continuations_noCR.
  - by repeat constructor.
Qed.

(** First pass: every CRLF becomes a line feed. *)
Lemma replaceCRLF_endEach parts :
  Forall lineStart parts →
  replaceCRLF (endEach CRLF (foldedLine CRLF <$> parts))
  = endEach [LF] (foldedLine [LF] <$> parts).
Proof.
  unfold endEach.
  induction 1 as [|p parts (Hfirst & Hrest & _) _ IH]; [done|].
  rewrite !fmap_cons, !concat_cons. unfold foldedLine at 1 3.
  rewrite <- !app_assoc.
  rewrite replaceCRLF_app by by apply noLineBreak_noCR.
  rewrite replaceCRLF_continuations_app by done.
  change (CRLF ++ ?s) with (CR :: LF :: s).
  change (replaceCRLF (CR :: LF :: ?s)) with (LF :: replaceCRLF s).
  by rewrite IH.
Qed.

(** Second pass: no carriage return is left. *)
Lemma endEach_noCR parts :
  Forall lineStart parts →
  Forall (λ c, c ≠ CR) (endEach [LF] (foldedLine [LF] <$> parts)).
Proof.
  unfold endEach.
  induction 1 as [|p parts Hp _ IH]; [constructor|].
  rewrite !fmap_cons, !concat_cons. apply Forall_app. split; [|done].
  by apply lineStart_noCR.
Qed.

Lemma removeFolds_line_end tail :
  (∀ c tail', tail = c :: tail' → c ≠ SPACE ∧ c ≠ TAB) →
  removeFolds (LF :: tail) = LF :: removeFolds tail.
Proof.
  destruct tail as [|c tail']; [done|]. intros Hc.
  destruct (Hc c tail' eq_refl) as [Hs Ht].
  change (removeFolds (LF :: c :: tail'))
    with (if (LF =? LF)%N && ((c =? SPACE)%N || (c =? TAB)%N)
          then removeFolds tail' else LF :: removeFolds (c :: tail')).
  destruct (N.eqb_spec c SPACE); [done|]. by destruct (N.eqb_spec c TAB).
Qed.

Lemma endEach_head parts c tail :
  Forall lineStart parts →
  endEach [LF] (foldedLine [LF] <$> parts) = c :: tail →
  c ≠ SPACE ∧ c ≠ TAB.
Proof.
  unfold endEach. destruct 1 as [|p parts (_ & _ & c' & first & Hp & Hc') _];
    [done|].
  rewrite !fmap_cons, concat_cons. unfold foldedLine at 1. rewrite Hp.
  simpl. intros [= <- _]. split; intros ->; done.
Qed.

(** Third pass: the continuation lines join the line they continue. *)
Lemma removeFolds_endEach parts :
  Forall lineStart parts →
  removeFolds (endEach [LF] (foldedLine [LF] <$> parts))
  = endEach [LF] (logicalLine <$> parts).
Proof.
  intros Hparts. induction Hparts as [|p parts Hp Hparts IH]; [done|].
  pose proof (endEach_head parts) as Hhead.
  unfold endEach in *. rewrite !fmap_cons, !concat_cons.
  destruct Hp as (Hfirst & Hrest & _).
  unfold foldedLine at 1. unfold logicalLine at 1.
  rewrite <- !app_assoc.
  rewrite removeFolds_app by by apply noLineBreak_noLF.
  rewrite removeFolds_continuations_app by done.
  change ([LF] ++ ?s) with (LF :: s).
  rewrite removeFolds_line_end by (intros c tail' Ht; by eapply Hhead).
  by rewrite IH.
Qed.

Lemma unfoldedContent_endEach parts :
  Forall lineStart parts →
  unfoldedContent (endEach CRLF (foldedLine CRLF <$> parts))
  = endEach [LF] (logicalLine <$> parts).
Proof.
  intros Hparts. unfold unfoldedContent, normalizedContent.
  rewrite replaceCRLF_endEach by done.
  rewrite replaceCR_id by by apply endEach_noCR.
  by apply removeFolds_endEach.
Qed.

Lemma split_app_sep (a b : jsstring) :
  Forall (λ c, c ≠ LF) a → split LF (a ++ LF :: b) = a :: split LF b.
Proof.
  induction 1 as [|c a Hc _ IH]; simpl.
  - done.
  - destruct (N.eqb_spec c LF); [done|]. by rewrite IH.
Qed.

Lemma split_endEach ls :
  Forall noLineBreak ls → split LF (endEach [LF] ls) = ls ++ [[]].
Proof.
  unfold endEach. induction 1 as [|l ls Hl _ IH]; [done|].
  rewrite fmap_cons, concat_cons, <- app_assoc.
  change ([LF] ++ ?s) with (LF :: s).
  rewrite split_app_sep by by apply noLineBreak_noLF. by rewrite IH.
Qed.

(** The lines [parse] works on, for a text made of content lines each
    followed by a line feed: these lines. *)
Lemma filter_contentLines ls :
  Forall contentLine ls →
  trim <$> List.filter (λ line, truthy (trim line)) (ls ++ [[]]) = ls.
Proof.
  intros Hls. rewrite List.filter_app. simpl. rewrite app_nil_r.
  rewrite filter_all.
  - induction Hls as [|l ls (Hl & _) _ IH]; [done|].
    rewrite fmap_cons. by rewrite Hl, IH.
  - eapply Forall_impl; [exact Hls|]. intros l (Hl & Hne & _).
    by apply trim_fixed_truthy.
Qed.

Lemma contentLine_lineStart p :
  contentLine (logicalLine p) → p.1 ≠ [] → lineStart p.
Proof.
  unfold logicalLine. intros (Htrim & _ & Hbreak) Hfirst.
  apply Forall_app in Hbreak as [Hb1 Hb2].
  split; [done|]. split; [by apply noLineBreak_concat_inv|].
  destruct p as [[|c first] rest]; [done|]. simpl in *.
  exists c, first. split; [done|]. by eapply trim_head.
Qed.

(** Folding content lines, writing them one per CRLF-ended line and
    reading the text as [parse] does gives the lines back. *)
Lemma trimmedLines_folded ls outs :
  ls ≠ [] → Forall contentLine ls → mapM foldLine ls = Some outs →
  trimmedLines (join CRLF outs ++ CRLF) = ls.
Proof.
  intros Hne Hls Hfold. apply mapM_Some in Hfold.
  assert (∃ parts, outs = foldedLine CRLF <$> parts ∧
                   ls = logicalLine <$> parts ∧ Forall lineStart parts)
    as (parts & -> & -> & Hparts).
  { clear Hne. induction Hfold as [|l out ls outs Hout _ IH].
    - by exists [].
    - apply Forall_cons in Hls as [Hl Hls].
      destruct (IH Hls) as (parts & -> & -> & Hparts).
      destruct (foldLine_parts l out Hout) as (p & -> & <- & Hfirst).
      { by destruct Hl as (_ & ? & _). }
      exists (p :: parts). repeat split; try done.
      constructor; [|done]. by apply contentLine_lineStart. }
  rewrite join_endEach by (by destruct parts).
  unfold trimmedLines, lines. rewrite unfoldedContent_endEach by done.
  rewrite split_endEach.
  - by apply filter_contentLines.
  - eapply Forall_impl; [exact Hls|]. by intros l (_ & _ & ?).
Qed.

End Refold.

(** ** Reading back what [write] returns *)

Section WriteAsFold.

Context `{Host}.
Implicit Types (calendar : Calendar) (event : Event) (cleanMode : bool).

Lemma mapM_foldLine_app (a b : list jsstring) :
  mapM foldLine (a ++ b)
  = a' ← mapM foldLine a; b' ← mapM foldLine b; Some (a' ++ b').
Proof.
  induction a as [|l a IH]; simpl.
  - by destruct (mapM foldLine b).
  - destruct (foldLine l) as [out|]; simpl; [|done]. rewrite IH.
    destruct (mapM foldLine a) as [a'|]; simpl; [|done].
    by destruct (mapM foldLine b).
Qed.

(** [write] folds every line of the document: the markers it adds are
    short lines, which [foldLine] leaves as they are. *)
Lemma writeEvent_as_fold cleanMode event :
  writeEvent cleanMode event
  = mapM foldLine (eventBlock (emittedLines cleanMode event)).
Proof.
  unfold writeEvent, eventBlock.
  change (BEGIN_VEVENT :: ?body ++ [END_VEVENT])
    with ([BEGIN_VEVENT] ++ body ++ [END_VEVENT]).
  rewrite !mapM_foldLine_app.
  change (mapM foldLine [BEGIN_VEVENT]) with (Some [BEGIN_VEVENT]).
  change (mapM foldLine [END_VEVENT]) with (Some [END_VEVENT]).
  by destruct (mapM foldLine (emittedLines cleanMode event)).
Qed.

Lemma writeEvents_as_fold cleanMode (selected : list Event) :
  @concat _ <$> mapM (writeEvent cleanMode) selected
  = mapM foldLine
      (concat (eventBlock <$> (emittedLines cleanMode <$> selected))).
Proof.
  induction selected as [|event selected IH]; [done|].
  rewrite !fmap_cons, concat_cons, mapM_foldLine_app, <- IH.
  cbn [mapM]. rewrite writeEvent_as_fold.
  destruct (mapM foldLine (eventBlock _)) as [block|]; simpl; [|done].
  by destruct (mapM (writeEvent cleanMode) selected).
Qed.

Lemma write_as_fold calendar (selected : list Event) cleanMode :
  write calendar selected cleanMode
  = (λ outs, join CRLF outs ++ CRLF)
      <$> mapM foldLine
            (documentLines (headerSource calendar)
                           (emittedLines cleanMode <$> selected)).
Proof.
  unfold write, documentLines. rewrite !mapM_foldLine_app.
  rewrite <- writeEvents_as_fold.
  change (mapM foldLine [END_VCALENDAR]) with (Some [END_VCALENDAR]).
  assert (writeHeader calendar = mapM foldLine (headerSource calendar)) as ->.
  { unfold writeHeader, headerSource. by destruct (nonEmpty _). }
  destruct (mapM foldLine (headerSource calendar)) as [header|]; simpl; [|done].
  by destruct (mapM (writeEvent cleanMode) selected).
Qed.

Lemma mapM_foldLine_returns (ls : list jsstring) :
  Forall (λ l, noAdjacentHigh l = true) ls → is_Some (mapM foldLine ls).
Proof.
  intros Hls. apply mapM_is_Some. eapply Forall_impl; [exact Hls|].
  intros l Hl. by apply foldLine_returns.
Qed.

(** The lines [parse] finds in what [write] returns are the lines of
    the document that [write] folded. *)
Lemma write_trimmedLines calendar (selected : list Event) cleanMode :
  Forall (λ l, contentLine l ∧ noAdjacentHigh l = true)
         (documentLines (headerSource calendar)
                        (emittedLines cleanMode <$> selected)) →
  ∃ text, write calendar selected cleanMode = Some text ∧
          trimmedLines text
          = documentLines (headerSource calendar)
                          (emittedLines cleanMode <$> selected).
Proof.
  intros Hlines. rewrite write_as_fold.
  destruct (mapM_foldLine_returns
              (documentLines (headerSource calendar)
                             (emittedLines cleanMode <$> selected)))
    as [outs Houts].
  { eapply Forall_impl; [exact Hlines|]. by intros l [_ ?]. }
  rewrite Houts. eexists. split; [done|].
  apply trimmedLines_folded; [|by eapply Forall_impl; [exact Hlines|intros l []]|done].
  unfold documentLines. intros Hnil.
  apply app_eq_nil in Hnil as [_ Hnil]. by apply app_eq_nil in Hnil as [_ Hnil].
Qed.

End WriteAsFold.

Section ParseWrite.

Context `{Host}.
Implicit Types (event : Event) (cleanMode : bool).

(** The lines [parse] stores, when no line of the input carries two
    adjacent high surrogates. *)
Lemma parse_stored_content icsContent :
  Forall (λ l, noAdjacentHigh l = true) (trimmedLines icsContent) →
  Forall (λ l, (contentLine l ∧ noAdjacentHigh l = true) ∧ ¬ eventMarker l)
         (headerLines (parse icsContent)) ∧
  Forall (λ event,
            Forall (λ l, (contentLine l ∧ noAdjacentHigh l = true) ∧ plainLine l)
                   (_rawLines event))
         (events (parse icsContent)).
Proof.
  intros Hadj. unfold parse.
  destruct (foldl_stored
              (λ l, (contentLine l ∧ noAdjacentHigh l = true) ∧ ¬ eventMarker l)
              (lines icsContent) initialState)
    as (Hh & He & _); [| by repeat split |].
  { pose proof (trimmedLines_contentLine icsContent) as Hc.
    unfold trimmedLines in Hadj, Hc. rewrite Forall_fmap in Hadj, Hc.
    apply Forall_forall. intros l Hl Hm.
    rewrite Forall_forall in Hadj, Hc.
    specialize (Hadj l Hl). specialize (Hc l Hl). done. }
  split; [done|].
  destruct (parse_invariants icsContent) as ((Hplain & _) & _ & _).
  rewrite Forall_forall in He, Hplain. apply Forall_forall. intros event Hev.
  specialize (He event Hev). specialize (Hplain event Hev).
  rewrite Forall_forall in He, Hplain. apply Forall_forall. intros l Hl.
  destruct (He l Hl) as [Hc _]. split; [done|]. by apply Hplain.
Qed.

Lemma defaultHeader_content :
  Forall (λ l, (contentLine l ∧ noAdjacentHigh l = true) ∧ ¬ eventMarker l)
         defaultHeader.
Proof.
  repeat constructor; try (by vm_compute);
    try (apply (bool_decide_unpack _); by vm_compute);
    intros [Hm|[Hm|Hm]]; discriminate.
Qed.

Lemma marker_content l :
  eventMarker l → contentLine l ∧ noAdjacentHigh l = true.
Proof.
  intros [->|[->| ->]]; repeat split; try (by vm_compute);
    apply (bool_decide_unpack _); by vm_compute.
Qed.

(** In an event of [parse] the lines that reach [foldLine] are the raw
    lines, in clean mode those that are allowed. *)
Lemma parse_emittedLines icsContent cleanMode event :
  event ∈ events (parse icsContent) →
  emittedLines cleanMode event
  = List.filter (λ l, negb cleanMode || isAllowedProperty l) (_rawLines event).
Proof.
  intros Hev.
  pose proof (parse_propertiesFollowLines icsContent) as Hprops.
  pose proof (trimmedLines_contentLine icsContent) as Hcontent.
  destruct (parse_invariants icsContent) as (_ & _ & Hsub).
  rewrite Forall_forall in Hprops.
  rewrite emittedLines_rawLines by by apply Hprops.
  assert (Forall contentLine (_rawLines event)) as Hraw.
  { apply Forall_forall. intros l Hl.
    rewrite Forall_forall in Hcontent. apply Hcontent.
    eapply elem_of_sublist; [|exact Hsub]. unfold storedLines.
    apply elem_of_app. right. apply elem_of_app. left.
    apply list_elem_of_In, in_concat. exists (_rawLines event).
    rewrite <- !list_elem_of_In. split; [|done].
    apply list_elem_of_fmap. by exists event. }
  induction Hraw as [|l ls (Hl & Hne & _) _ IH]; [done|].
  simpl. rewrite IH, (trim_fixed_truthy l) by done. simpl.
  by destruct cleanMode, (isAllowedProperty l).
Qed.

(** Events whose properties follow their lines are equal when their
    lines are. *)
Lemma events_of_lines (events1 events2 : list Event) :
  Forall (λ event, properties event = propertiesOfLines (_rawLines event))
         events1 →
  Forall (λ event, properties event = propertiesOfLines (_rawLines event))
         events2 →
  _rawLines <$> events1 = _rawLines <$> events2 → events1 = events2.
Proof.
  intros H1. revert events2.
  induction H1 as [|[props1 raw1] events1 Hp1 _ IH];
    intros [|[props2 raw2] events2] H2 Hraw; try done.
  apply Forall_cons in H2 as [Hp2 H2]. simpl in *.
  injection Hraw as -> Hraw. rewrite Hp1, Hp2. f_equal. by apply IH.
Qed.

Lemma parse_events_of_lines icsContent :
  Forall (λ event, properties event = propertiesOfLines (_rawLines event))
         (events (parse icsContent)).
Proof. by destruct (parse_invariants icsContent) as (_ & (? & _) & _). Qed.

(** What [write] makes of a parsed calendar, read by [parse]. *)
Lemma write_reads_back icsContent (selected : list Event) cleanMode :
  Forall (λ l, noAdjacentHigh l = true) (trimmedLines icsContent) →
  Forall (λ event, event ∈ events (parse icsContent)) selected →
  ∃ text,
    write (parse icsContent) selected cleanMode = Some text ∧
    headerLines (parse text) = headerSource (parse icsContent) ∧
    _rawLines <$> events (parse text)
    = (λ event, List.filter (λ l, negb cleanMode || isAllowedProperty l)
                            (_rawLines event)) <$> selected ∧
    (cleanMode = false → events (parse text) = selected).
Proof.
  intros Hadj Hsel.
  destruct (parse_stored_content icsContent Hadj) as [Hheader Hevents].
  assert (Forall (λ l, (contentLine l ∧ noAdjacentHigh l = true)
                       ∧ ¬ eventMarker l)
                 (headerSource (parse icsContent))) as Hsource.
  { unfold headerSource. destruct (nonEmpty _); [done|].
    apply defaultHeader_content. }
  assert (emittedLines cleanMode <$> selected
          = (λ event, List.filter (λ l, negb cleanMode || isAllowedProperty l)
                                  (_rawLines event)) <$> selected) as Hemit.
  { apply Forall_fmap_ext. eapply Forall_impl; [exact Hsel|].
    intros event Hev. by apply (parse_emittedLines icsContent). }
  assert (Forall (Forall (λ l, (contentLine l ∧ noAdjacentHigh l = true)
                               ∧ plainLine l))
                 (emittedLines cleanMode <$> selected)) as Hbodies.
  { rewrite Hemit, Forall_fmap. apply Forall_forall. intros event Hev.
    rewrite Forall_forall in Hsel, Hevents.
    specialize (Hevents event (Hsel event Hev)).
    by apply filter_Forall. }
  destruct (write_trimmedLines (parse icsContent) selected cleanMode)
    as (text & Hwrite & Hlines).
  { unfold documentLines. rewrite !Forall_app. repeat split.
    - eapply Forall_impl; [exact Hsource|]. by intros l [? _].
    - clear -Hbodies. induction Hbodies as [|body bodies Hb _ IH];
        [constructor|].
      rewrite fmap_cons, concat_cons. apply Forall_app. split; [|done].
      unfold eventBlock. constructor; [apply marker_content; by left|].
      apply Forall_app. split.
      + eapply Forall_impl; [exact Hb|]. by intros l [? _].
      + constructor; [|constructor]. apply marker_content. right. by left.
    - constructor; [|constructor]. apply marker_content. right. by right. }
  exists text. split; [done|].
  destruct (parse_plain text (headerSource (parse icsContent))
              (emittedLines cleanMode <$> selected)) as [Hh Hraw].
  { done. }
  { eapply Forall_impl; [exact Hsource|]. by intros l [_ ?]. }
  { eapply Forall_impl; [exact Hbodies|]. intros body Hb.
    eapply Forall_impl; [exact Hb|]. by intros l [_ ?]. }
  split; [done|]. split; [by rewrite Hraw|].
  intros ->. apply events_of_lines.
  - apply parse_events_of_lines.
  - pose proof (parse_events_of_lines icsContent) as Hprops.
    rewrite Forall_forall in Hsel, Hprops. apply Forall_forall.
    intros event Hev. by apply Hprops, Hsel.
  - rewrite Hraw, Hemit. apply Forall_fmap_ext, Forall_forall.
    intros event _. simpl. apply filter_all. by apply Forall_true.
Qed.

Lemma isAllowedProperty_true line :
  isAllowedProperty line = true → ¬ onDenylist (nameBeforeSeparator line).
Proof.
  unfold isAllowedProperty, onDenylist.
  destruct (propNameOfLine_spec line) as [[_ ->]|[_ ->]]; [|done].
  intros Hallowed Hdeny. apply notBlocked_false in Hdeny. congruence.
Qed.

(** The name [parse] files a line under is the text in front of its
    first semicolon or colon: the name clean mode tests. *)
Lemma eventProperty_name line colonIndex :
  indexOf COLON line = Some colonIndex →
  (eventProperty line colonIndex).1 = nameBeforeSeparator line.
Proof.
  unfold eventProperty, propertyNameOf, substring. simpl.
  rewrite Nat.sub_0_r, drop_0. revert colonIndex.
  induction line as [|c line IH]; intros colonIndex; simpl; [done|].
  destruct (N.eqb_spec c COLON) as [->|Hcolon]; simpl.
  { by intros [= <-]. }
  destruct (indexOf COLON line) as [i|]; simpl; [|done].
  intros [= <-]. specialize (IH i eq_refl). simpl.
  destruct (N.eqb_spec c SEMICOLON) as [->|Hsemi]; simpl; [done|].
  destruct (indexOf SEMICOLON (take i line)) as [j|]; simpl in *.
  - rewrite Nat.sub_0_r, drop_0 in *. simpl. by f_equal.
  - by f_equal.
Qed.

Lemma getProp_proto_propertiesOfLines (ls : list jsstring) :
  getProp (lit "__proto__") (propertiesOfLines ls) = None.
Proof.
  induction ls as [|l ls IH] using rev_ind; [done|].
  rewrite propertiesOfLines_snoc. unfold addProperty.
  destruct (indexOf COLON l) as [colonIndex|]; [|done].
  destruct (eventProperty l colonIndex) as [name prop].
  destruct (decide (name = lit "__proto__")) as [->|Hname].
  - by rewrite getProp_setProp_proto.
  - rewrite getProp_setProp by done. by rewrite decide_False by congruence.
Qed.

Lemma entriesNamed_elem name ls prop :
  prop ∈ entriesNamed name ls →
  ∃ l colonIndex, l ∈ ls ∧ indexOf COLON l = Some colonIndex ∧
                  eventProperty l colonIndex = (name, prop).
Proof.
  unfold entriesNamed. intros (l & Hl & Hentry)%list_elem_of_omap.
  destruct (indexOf COLON l) as [colonIndex|] eqn:Hcolon; [|done].
  destruct (eventProperty l colonIndex) as [name' prop'] eqn:Hprop.
  destruct (decide (name' = name)) as [->|]; [|done].
  injection Hentry as ->. by exists l, colonIndex.
Qed.

End ParseWrite.

(** X9.  What [write] makes of a parsed calendar reads back.  For a
    text without two adjacent high surrogates in a line and any
    selection of the events [parse] found in it, [write] returns a
    text, and [parse] finds in that text: as header the header that was
    written (the parsed header, or the default header for an empty
    one); one event per selected event, with the lines of that event,
    in clean mode those that are allowed.  With clean mode off the
    events read back are the selected events, properties included. *)
Theorem parse_write_parsed `{Host} (icsContent : jsstring)
    (selected : list Event) (cleanMode : bool) :
  Forall (λ l, noAdjacentHigh l = true) (trimmedLines icsContent) →
  Forall (λ event, event ∈ events (parse icsContent)) selected →
  ∃ text,
    write (parse icsContent) selected cleanMode = Some text ∧
    headerLines (parse text) = headerSource (parse icsContent) ∧
    _rawLines <$> events (parse text)
    = (λ event, List.filter (λ l, negb cleanMode || isAllowedProperty l)
                            (_rawLines event)) <$> selected ∧
    (cleanMode = false → events (parse text) = selected).
Proof. apply write_reads_back. Qed.

(** X9 applied: the sample calendar, all its events, clean mode off. *)
Lemma parse_write_parsed_sample :
  Forall (λ l, noAdjacentHigh l = true) (trimmedLines sampleCalendar) ∧
  Forall (λ event, event ∈ events (parse sampleCalendar))
         (events (parse sampleCalendar)) ∧
  ∃ text,
    @write plainHost (parse sampleCalendar) (events (parse sampleCalendar)) false
    = Some text ∧
    headerLines (parse text) = headerSource (parse sampleCalendar) ∧
    events (parse text) = events (parse sampleCalendar).
Proof.
  assert (Forall (λ l, noAdjacentHigh l = true) (trimmedLines sampleCalendar))
    as Hadj by (apply (bool_decide_unpack _); vm_compute; exact I).
  assert (Forall (λ event, event ∈ events (parse sampleCalendar))
                 (events (parse sampleCalendar))) as Hsel
    by (apply Forall_forall; intros event Hevent; exact Hevent).
  split; [exact Hadj|]. split; [exact Hsel|].
  destruct (@parse_write_parsed plainHost sampleCalendar
              (events (parse sampleCalendar)) false Hadj Hsel)
    as (text & Htext & Hheader & _ & Hevents).
  exists text. split; [exact Htext|]. split; [exact Hheader|].
  exact (Hevents eq_refl).
Defined.

(** X10.  After a round trip in clean mode no event has a property on
    the deny list.  For a text without two adjacent high surrogates in
    a line and any selection of its events, [write] in clean mode
    returns a text in which [parse] finds no event with a property
    whose name, upper-cased, starts with or equals one of [X-APPLE-],
    [X-WR-ALARMUID], [ACKNOWLEDGED], [ATTACH]. *)
Theorem clean_write_drops_blocked_properties `{Host} (icsContent : jsstring)
    (selected : list Event) :
  Forall (λ l, noAdjacentHigh l = true) (trimmedLines icsContent) →
  Forall (λ event, event ∈ events (parse icsContent)) selected →
  ∃ text,
    write (parse icsContent) selected true = Some text ∧
    Forall (λ event, ∀ name, is_Some (getProp name (properties event)) →
                             ¬ onDenylist name)
           (events (parse text)).
Proof.
  intros Hadj Hsel.
  destruct (write_reads_back icsContent selected true Hadj Hsel)
    as (text & Hwrite & _ & Hraw & _).
  exists text. split; [done|]. apply Forall_forall. intros event Hev.
  intros name [prop Hprop].
  pose proof (parse_events_of_lines text) as Hprops.
  rewrite Forall_forall in Hprops. rewrite (Hprops event Hev) in Hprop.
  assert (name ≠ lit "__proto__") as Hname.
  { intros ->. by rewrite getProp_proto_propertiesOfLines in Hprop. }
  rewrite getProp_propertiesOfLines in Hprop by done.
  apply last_Some_elem_of, entriesNamed_elem in Hprop
    as (l & colonIndex & Hl & Hcolon & Hentry).
  assert (_rawLines event ∈ _rawLines <$> events (parse text)) as Hin.
  { apply list_elem_of_fmap. by exists event. }
  rewrite Hraw in Hin. apply list_elem_of_fmap in Hin as (event0 & Heq & _).
  rewrite Heq in Hl. apply list_elem_of_In, List.filter_In in Hl as [_ Hl].
  simpl in Hl. apply isAllowedProperty_true in Hl.
  rewrite <- (eventProperty_name l colonIndex Hcolon), Hentry in Hl. done.
Qed.

(** X10 applied: the sample calendar, whose first event has an
    attachment. *)
Lemma clean_write_drops_blocked_properties_sample :
  Forall (λ l, noAdjacentHigh l = true) (trimmedLines sampleCalendar) ∧
  Forall (λ event, event ∈ events (parse sampleCalendar))
         (events (parse sampleCalendar)) ∧
  ∃ text,
    @write plainHost (parse sampleCalendar) (events (parse sampleCalendar)) true
    = Some text ∧
    Forall (λ event, ∀ name, is_Some (getProp name (properties event)) →
                             ¬ @onDenylist plainHost name)
           (events (parse text)).
Proof.
  assert (Forall (λ l, noAdjacentHigh l = true) (trimmedLines sampleCalendar))
    as Hadj by (apply (bool_decide_unpack _); vm_compute; exact I).
  assert (Forall (λ event, event ∈ events (parse sampleCalendar))
                 (events (parse sampleCalendar))) as Hsel
    by (apply Forall_forall; intros event Hevent; exact Hevent).
  split; [exact Hadj|]. split; [exact Hsel|].
  exact (@clean_write_drops_blocked_properties plainHost sampleCalendar
           (events (parse sampleCalendar)) Hadj Hsel).
Defined.

(** ** The order and the size of the chunks *)

Section ChunkOrder.

Context `{Host}.
Implicit Types (calendar : Calendar) (group : list Event) (cleanMode : bool).

Lemma compareEvents_newestFirst a b :
  (compareEvents a b ≤ 0)%Z ↔ newestFirst a b.
Proof.
  unfold compareEvents, newestFirst.
  destruct (getEventDate a), (getEventDate b); split; try done; lia.
Qed.

Lemma compareEvents_total a b :
  (0 < compareEvents a b)%Z → (compareEvents b a ≤ 0)%Z.
Proof.
  unfold compareEvents. destruct (getEventDate a), (getEventDate b); lia.
Qed.

Lemma compareEvents_trans a b c :
  (compareEvents a b ≤ 0)%Z → (compareEvents b c ≤ 0)%Z →
  (compareEvents a c ≤ 0)%Z.
Proof.
  unfold compareEvents.
  destruct (getEventDate a), (getEventDate b), (getEventDate c); lia.
Qed.

(** The events go from the newest to the oldest, those without date
    last. *)
Lemma sort_compareEvents_sorted (selected : list Event) :
  StronglySorted newestFirst (sort compareEvents selected).
Proof.
  pose proof (sort_sorted compareEvents compareEvents_total
                          compareEvents_trans selected) as Hsorted.
  induction Hsorted as [|a l _ IH Ha]; constructor; [done|].
  eapply Forall_impl; [exact Ha|]. intros b. apply compareEvents_newestFirst.
Qed.

Lemma sorted_concat (groups : list (list Event)) i j gi gj a b :
  StronglySorted newestFirst (concat groups) →
  groups !! i = Some gi → groups !! j = Some gj → i < j →
  a ∈ gi → b ∈ gj → newestFirst a b.
Proof.
  revert i j. induction groups as [|g groups IH]; intros i j Hsorted Hi Hj Hij;
    [done|].
  rewrite concat_cons in Hsorted.
  apply StronglySorted_app in Hsorted as (Hcross & _ & Hrest).
  destruct j as [|j]; [lia|]. destruct i as [|i]; simpl in Hi, Hj.
  - injection Hi as ->. intros Ha Hb. apply Hcross; [done|].
    apply list_elem_of_In, in_concat. exists gj.
    rewrite <- !list_elem_of_In. split; [|done].
    by eapply list_elem_of_lookup_2.
  - eapply IH; try done. lia.
Qed.

Lemma createChunkResult_fields calendar group cleanMode chunk :
  createChunkResult calendar group cleanMode = Some chunk →
  write calendar group cleanMode = Some (content chunk) ∧
  startDate chunk
  = head (sort (λ a b, timeValue a - timeValue b)%Z (datesOf group)) ∧
  endDate chunk
  = last (sort (λ a b, timeValue a - timeValue b)%Z (datesOf group)) ∧
  eventCount chunk = length group.
Proof.
  unfold createChunkResult.
  destruct (write calendar group cleanMode) as [text|]; [|done].
  by intros [= <-].
Qed.

Lemma datesOf_elem group date :
  date ∈ datesOf group ↔ ∃ event, event ∈ group ∧ getEventDate event = Some date.
Proof. apply list_elem_of_omap. Qed.

(** The chunks as written groups of the sorted events. *)
Lemma splitBySize_written calendar (selected : list Event) maxSizeBytes
    cleanMode chunks :
  splitBySize calendar selected maxSizeBytes cleanMode = Some chunks →
  ∃ groups,
    Forall2 (λ group chunk,
               createChunkResult calendar group cleanMode = Some chunk)
            groups chunks ∧
    groups = groupBySize getEventSize (getHeaderFooterSize calendar)
               maxSizeBytes [] (getHeaderFooterSize calendar)
               (sort compareEvents selected) ∧
    concat groups = sort compareEvents selected ∧
    Forall (λ group, group ≠ []) groups.
Proof.
  rewrite splitBySize_groups. intros Hchunks%mapM_Some.
  eexists. split; [exact Hchunks|]. split; [done|]. split.
  - by rewrite groupBySize_concat.
  - apply groupBySize_nonempty.
Qed.

End ChunkOrder.

(** X11.  The chunks of [splitBySize] go from the newest events to the
    oldest.  No date of a later chunk is after the start date (the
    earliest date) of an earlier chunk, so the date ranges of the chunks
    descend and overlap in one date at most; once a chunk holds no
    dated event, no later chunk holds one. *)
Theorem splitBySize_newest_first `{Host} (calendar : Calendar)
    (selected : list Event) (maxSizeBytes : Z) (cleanMode : bool)
    (chunks : list Chunk) :
  splitBySize calendar selected maxSizeBytes cleanMode = Some chunks →
  ∀ i j chunkI chunkJ,
    chunks !! i = Some chunkI → chunks !! j = Some chunkJ → i < j →
    (∀ first final, startDate chunkI = Some first →
                    endDate chunkJ = Some final →
                    (timeValue final ≤ timeValue first)%Z) ∧
    (startDate chunkI = None →
     startDate chunkJ = None ∧ endDate chunkJ = None).
Proof.
  intros (groups & Hwritten & _ & Hconcat & Hnonempty)%splitBySize_written
         i j chunkI chunkJ Hi Hj Hij.
  destruct (Forall2_lookup_r _ _ _ _ _ Hwritten Hi) as (gi & Hgi & Hci).
  destruct (Forall2_lookup_r _ _ _ _ _ Hwritten Hj) as (gj & Hgj & Hcj).
  apply createChunkResult_fields in Hci as (_ & Hstart & _ & _).
  apply createChunkResult_fields in Hcj as (_ & HstartJ & Hend & _).
  pose proof (sort_compareEvents_sorted selected) as Hsorted.
  rewrite <- Hconcat in Hsorted.
  pose proof (λ a b, sorted_concat groups i j gi gj a b Hsorted Hgi Hgj Hij)
    as Horder.
  split.
  - intros first final Hfirst Hfinal. rewrite Hstart in Hfirst.
    rewrite Hend in Hfinal.
    apply sorted_dates_head in Hfirst as [Hfirst _].
    apply sorted_dates_last in Hfinal as [Hfinal _].
    apply datesOf_elem in Hfirst as (a & Ha & Hda).
    apply datesOf_elem in Hfinal as (b & Hb & Hdb).
    specialize (Horder a b Ha Hb). unfold newestFirst in Horder.
    by rewrite Hda, Hdb in Horder.
  - intros Hnone. rewrite Hstart in Hnone. apply sorted_dates_none in Hnone.
    assert (datesOf gj = []) as Hnodate.
    { destruct (datesOf gj) as [|date dates] eqn:Hdates; [done|]. exfalso.
      assert (date ∈ datesOf gj) as Hdate
        by (rewrite Hdates; apply elem_of_cons; by left).
      apply datesOf_elem in Hdate as (b & Hb & Hdb).
      rewrite Forall_forall in Hnonempty.
      assert (gi ≠ []) as Hgine
        by (apply Hnonempty; by eapply list_elem_of_lookup_2).
      destruct gi as [|a gi']; [done|].
      specialize (Horder a b ltac:(apply elem_of_cons; by left) Hb).
      unfold newestFirst in Horder. rewrite Hdb in Horder.
      destruct (getEventDate a) as [dateA|] eqn:Hda; [|done].
      assert (dateA ∈ datesOf (a :: gi')) as Hin.
      { apply datesOf_elem. exists a. split; [apply elem_of_cons; by left|done]. }
      rewrite Hnone in Hin. by apply elem_of_nil in Hin. }
    rewrite HstartJ, Hend, Hnodate. done.
Qed.

(** X11 applied: the dated calendar under a limit of 120. *)
Lemma splitBySize_newest_first_sample :
  ∃ chunks,
    @splitBySize plainHost (parse datedCalendar) (datedEvents [0; 1; 2; 3])
      120 false = Some chunks ∧
    ∀ i j chunkI chunkJ,
      chunks !! i = Some chunkI → chunks !! j = Some chunkJ → i < j →
      (∀ first final, startDate chunkI = Some first →
                      endDate chunkJ = Some final →
                      (timeValue final ≤ timeValue first)%Z) ∧
      (startDate chunkI = None →
       startDate chunkJ = None ∧ endDate chunkJ = None).
Proof.
  destruct (@splitBySize plainHost (parse datedCalendar)
              (datedEvents [0; 1; 2; 3]) 120 false) as [chunks|] eqn:Hsplit;
    [|vm_compute in Hsplit; discriminate].
  exists chunks. split; [reflexivity|].
  exact (@splitBySize_newest_first plainHost _ _ _ _ _ Hsplit).
Defined.

(** ** The size of what is written *)

Section GroupSizes.

Context (size : Event → nat) (overhead : nat) (maxSizeBytes : Z).
Implicit Types (current events group : list Event).

(** A group of more than one event is within the limit, by the
    reckoning of the loop. *)
Lemma groupBySize_fits current currentSize events :
  currentSize = overhead + sum_list (size <$> current) →
  length current ≤ 1 ∨ (Z.of_nat currentSize ≤ maxSizeBytes)%Z →
  Forall (λ group,
            length group = 1 ∨
            (Z.of_nat (overhead + sum_list (size <$> group)) ≤ maxSizeBytes)%Z)
         (groupBySize size overhead maxSizeBytes current currentSize events).
Proof.
  revert current currentSize.
  induction events as [|event events IH]; intros current currentSize Hsize Hfit.
  - simpl. destruct current as [|e current]; simpl; [constructor|].
    constructor; [|constructor]. subst currentSize.
    destruct Hfit as [Hone|Hfit]; [left; simpl in *; lia | by right].
  - simpl.
    destruct (Z.ltb_spec maxSizeBytes (Z.of_nat (currentSize + size event)))
      as [Hover|Hin]; simpl.
    + destruct current as [|e current]; simpl.
      * apply IH; [simpl in *; lia | left; simpl; lia].
      * constructor.
        -- subst currentSize.
           destruct Hfit as [Hone|Hfit]; [left; simpl in *; lia | by right].
        -- apply IH; [simpl; lia | left; simpl; lia].
    + apply IH.
      * rewrite fmap_app, sum_list_with_app. simpl. lia.
      * right. lia.
Qed.

(** Under a limit below the overhead every event is alone. *)
Lemma groupBySize_alone current currentSize events :
  (maxSizeBytes < Z.of_nat overhead)%Z →
  overhead ≤ currentSize → length current ≤ 1 →
  Forall (λ group, length group = 1)
         (groupBySize size overhead maxSizeBytes current currentSize events).
Proof.
  intros Hsmall. revert current currentSize.
  induction events as [|event events IH]; intros current currentSize Hsize Hone.
  - simpl. destruct current as [|e current]; simpl; [constructor|].
    constructor; [simpl in *; lia | constructor].
  - simpl.
    destruct (Z.ltb_spec maxSizeBytes (Z.of_nat (currentSize + size event)))
      as [Hover|Hin]; [|lia]. simpl.
    destruct current as [|e current]; simpl.
    + apply IH; simpl; lia.
    + constructor; [simpl in *; lia|]. apply IH; simpl; lia.
Qed.

End GroupSizes.

Section WrittenSize.

Context `{Host}.
Implicit Types (calendar : Calendar) (event : Event) (cleanMode : bool)
  (l : jsstring) (ls : list jsstring).

Lemma sum_list_fmap_le {A} (f g : A → nat) (xs : list A) :
  Forall (λ x, f x ≤ g x) xs → sum_list (f <$> xs) ≤ sum_list (g <$> xs).
Proof.
  induction 1 as [|x xs Hx _ IH]; [done|]. rewrite !fmap_cons. simpl. lia.
Qed.

Lemma sumLengths_app ls1 ls2 :
  sumLengths (ls1 ++ ls2) = sumLengths ls1 + sumLengths ls2.
Proof.
  unfold sumLengths. induction ls1 as [|l ls1 IH]; simpl; [done|].
  rewrite IH. lia.
Qed.

Lemma sumLengths_filter (f : jsstring → bool) ls :
  sumLengths (List.filter f ls) ≤ sumLengths ls.
Proof.
  unfold sumLengths. induction ls as [|l ls IH]; simpl; [done|].
  destruct (f l); simpl; lia.
Qed.

Lemma length_endEach ls : length (endEach CRLF ls) = sumLengths ls.
Proof.
  induction ls as [|l ls IH]; [done|].
  change (endEach CRLF (l :: ls)) with ((l ++ CRLF) ++ endEach CRLF ls).
  change (sumLengths (l :: ls)) with (length l + 2 + sumLengths ls).
  rewrite !length_app, IH. simpl. lia.
Qed.

Lemma sumLengths_blocks (bodies : list (list jsstring)) :
  sumLengths (concat (eventBlock <$> bodies))
  = sum_list ((λ body, length (BEGIN_VEVENT ++ CRLF)
                       + length (END_VEVENT ++ CRLF) + sumLengths body)
                <$> bodies).
Proof.
  induction bodies as [|body bodies IH]; [done|].
  rewrite !fmap_cons, concat_cons, sumLengths_app, IH.
  unfold eventBlock.
  change (BEGIN_VEVENT :: body ++ [END_VEVENT])
    with ([BEGIN_VEVENT] ++ body ++ [END_VEVENT]).
  rewrite !sumLengths_app. simpl. lia.
Qed.

Lemma getHeaderFooterSize_headerSource calendar :
  getHeaderFooterSize calendar
  = sumLengths (headerSource calendar) + sumLengths [END_VCALENDAR].
Proof.
  unfold getHeaderFooterSize, headerSource.
  destruct (nonEmpty (headerLines calendar)); simpl; lia.
Qed.

(** With short lines nothing is folded: the text is the lines of the
    document, each followed by CRLF. *)
Lemma write_short calendar (selected : list Event) cleanMode :
  Forall (λ l, length l ≤ MAX_LINE_LENGTH) (headerSource calendar) →
  Forall (Forall (λ l, length l ≤ MAX_LINE_LENGTH))
         (emittedLines cleanMode <$> selected) →
  write calendar selected cleanMode
  = Some (endEach CRLF (documentLines (headerSource calendar)
                                      (emittedLines cleanMode <$> selected))).
Proof.
  intros Hheader Hbodies. rewrite write_as_fold, mapM_foldLine_short.
  - simpl. f_equal. apply join_endEach. unfold documentLines. intros Hnil.
    apply app_eq_nil in Hnil as [_ Hnil].
    by apply app_eq_nil in Hnil as [_ Hnil].
  - unfold documentLines. rewrite !Forall_app. repeat split; [done| |].
    + clear -Hbodies. induction Hbodies as [|body bodies Hb _ IH];
        [constructor|].
      rewrite fmap_cons, concat_cons. apply Forall_app. split; [|done].
      unfold eventBlock. constructor; [vm_compute; lia|].
      apply Forall_app. split; [done|].
      constructor; [vm_compute; lia|constructor].
    + constructor; [vm_compute; lia|constructor].
Qed.

Lemma length_write_short calendar (selected : list Event) cleanMode text :
  write calendar selected cleanMode
  = Some (endEach CRLF (documentLines (headerSource calendar)
                                      (emittedLines cleanMode <$> selected))) →
  write calendar selected cleanMode = Some text →
  length text
  = getHeaderFooterSize calendar
    + sum_list ((λ event, length (BEGIN_VEVENT ++ CRLF)
                          + length (END_VEVENT ++ CRLF)
                          + sumLengths (emittedLines cleanMode event))
                  <$> selected).
Proof.
  intros -> [= <-]. rewrite length_endEach. unfold documentLines.
  rewrite !sumLengths_app, sumLengths_blocks, getHeaderFooterSize_headerSource.
  rewrite <- list_fmap_compose. unfold compose. lia.
Qed.

(** The lines [parse] stores are lines of the input: what holds of
    every line of the input holds of them. *)
Lemma parse_lines_Forall (P : jsstring → Prop) icsContent :
  Forall P (trimmedLines icsContent) →
  Forall P (headerLines (parse icsContent)) ∧
  Forall (λ event, Forall P (_rawLines event)) (events (parse icsContent)).
Proof.
  intros HP. destruct (parse_invariants icsContent) as (_ & _ & Hsub).
  unfold storedLines in Hsub. fold (parse icsContent) in Hsub.
  rewrite Forall_forall in HP. split.
  - apply Forall_forall. intros l Hl. apply HP.
    eapply elem_of_sublist; [|exact Hsub]. apply elem_of_app. by left.
  - apply Forall_forall. intros event Hev. apply Forall_forall. intros l Hl.
    apply HP. eapply elem_of_sublist; [|exact Hsub].
    apply elem_of_app. right. apply elem_of_app. left.
    apply list_elem_of_In, in_concat. exists (_rawLines event).
    rewrite <- !list_elem_of_In. split; [|done].
    apply list_elem_of_fmap. by exists event.
Qed.

Lemma defaultHeader_short :
  Forall (λ l, length l ≤ MAX_LINE_LENGTH) defaultHeader.
Proof. repeat constructor; vm_compute; lia. Qed.

Lemma getEventSize_parsed icsContent event :
  event ∈ events (parse icsContent) →
  getEventSize event
  = length (BEGIN_VEVENT ++ CRLF) + length (END_VEVENT ++ CRLF)
    + sumLengths (_rawLines event).
Proof.
  intros Hev. pose proof (parse_propertiesFollowLines icsContent) as Hprops.
  rewrite Forall_forall in Hprops. specialize (Hprops event Hev).
  unfold getEventSize. destruct (_rawLines event); [|done].
  by rewrite Hprops.
Qed.

(** For a parsed calendar with short lines the text written is no
    longer than reckoned, and as long as reckoned with clean mode off. *)
Lemma write_parsed_length icsContent (selected : list Event) cleanMode :
  Forall (λ l, length l ≤ MAX_LINE_LENGTH) (trimmedLines icsContent) →
  Forall (λ event, event ∈ events (parse icsContent)) selected →
  ∃ text,
    write (parse icsContent) selected cleanMode = Some text ∧
    length text ≤ estimatedSize (parse icsContent) selected ∧
    (cleanMode = false →
     length text = estimatedSize (parse icsContent) selected).
Proof.
  intros Hshort Hsel.
  destruct (parse_lines_Forall _ icsContent Hshort) as [Hheader Hevents].
  assert (emittedLines cleanMode <$> selected
          = (λ event, List.filter (λ l, negb cleanMode || isAllowedProperty l)
                                  (_rawLines event)) <$> selected) as Hemit.
  { apply Forall_fmap_ext. eapply Forall_impl; [exact Hsel|].
    intros event Hev. by apply (parse_emittedLines icsContent). }
  pose proof (write_short (parse icsContent) selected cleanMode) as Hwrite.
  assert (write (parse icsContent) selected cleanMode
          = Some (endEach CRLF
                    (documentLines (headerSource (parse icsContent))
                                   (emittedLines cleanMode <$> selected))))
    as Htext.
  { apply Hwrite.
    - unfold headerSource. destruct (nonEmpty _); [done|].
      apply defaultHeader_short.
    - rewrite Hemit, Forall_fmap. apply Forall_forall. intros event Hev.
      rewrite Forall_forall in Hsel, Hevents. simpl.
      apply filter_Forall. by apply Hevents, Hsel. }
  eexists. split; [exact Htext|].
  rewrite (length_write_short _ _ _ _ Htext Htext). unfold estimatedSize.
  assert (∀ pick : Event → list jsstring,
            (∀ event, event ∈ selected → pick event = _rawLines event) →
            sum_list ((λ event, length (BEGIN_VEVENT ++ CRLF)
                                 + length (END_VEVENT ++ CRLF)
                                 + sumLengths (pick event)) <$> selected)
            = sum_list (getEventSize <$> selected)) as Hsame.
  { intros pick Hpick. f_equal. apply Forall_fmap_ext, Forall_forall.
    intros event Hev. rewrite Forall_forall in Hsel.
    rewrite (getEventSize_parsed icsContent event) by by apply Hsel.
    by rewrite Hpick. }
  split.
  - rewrite <- (Hsame _rawLines) by done. apply Nat.add_le_mono_l.
    apply sum_list_fmap_le. eapply Forall_impl; [exact Hsel|].
    intros event Hev. cbv beta in *. apply Nat.add_le_mono_l.
    rewrite (parse_emittedLines icsContent) by done.
    apply sumLengths_filter.
  - intros ->. f_equal. apply Hsame. intros event Hev.
    rewrite Forall_forall in Hsel.
    rewrite (parse_emittedLines icsContent) by by apply Hsel.
    apply filter_all. by apply Forall_true.
Qed.

End WrittenSize.

Section ChunkSizes.

Context `{Host}.
Implicit Types (calendar : Calendar) (event : Event) (cleanMode : bool)
  (l s : jsstring) (ls : list jsstring).

Lemma replaceCRLF_Forall (P : N → Prop) s :
  P LF → Forall P s → Forall P (replaceCRLF s).
Proof.
  intros HLF.
  enough (Forall P s →
          Forall P (replaceCRLF s) ∧
          ∀ c, P c → Forall P (replaceCRLF (c :: s))) by tauto.
  induction s as [|d s IH].
  - intros _. split; [constructor|]. intros c Hc. by repeat constructor.
  - intros [Hd Hs]%Forall_cons. destruct (IH Hs) as [IH1 IH2].
    split; [by apply IH2|].
    intros c Hc. simpl.
    destruct ((c =? CR)%N && (d =? LF)%N); [by constructor|].
    constructor; [done|]. by apply IH2.
Qed.

Lemma ascii_trimmedLines icsContent :
  ascii icsContent → Forall ascii (trimmedLines icsContent).
Proof.
  unfold ascii, trimmedLines, lines. intros Hascii.
  apply Forall_fmap, Forall_forall.
  intros l [Hl _]%list_elem_of_In%filter_In. simpl. apply trim_Forall.
  apply list_elem_of_In in Hl. revert l Hl. apply Forall_forall.
  apply split_Forall, removeFolds_Forall.
  unfold normalizedContent, replaceCR. apply Forall_fmap.
  eapply Forall_impl; [apply (replaceCRLF_Forall (λ c, (c < 128)%N));
                       [by vm_compute | exact Hascii]|].
  intros c Hc. simpl. destruct (c =? CR)%N; [by vm_compute | done].
Qed.

Lemma ascii_endEach ls : Forall ascii ls → ascii (endEach CRLF ls).
Proof.
  unfold ascii, endEach. induction 1 as [|l ls Hl _ IH]; [constructor|].
  rewrite fmap_cons, concat_cons, !Forall_app. repeat split; try done.
  repeat constructor; by vm_compute.
Qed.

Lemma ascii_documentLines header (bodies : list (list jsstring)) :
  Forall ascii header → Forall (Forall ascii) bodies →
  Forall ascii (documentLines header bodies).
Proof.
  intros Hheader Hbodies. unfold documentLines. rewrite !Forall_app.
  repeat split; [done| |].
  - induction Hbodies as [|body bodies Hb _ IH]; [constructor|].
    rewrite fmap_cons, concat_cons. apply Forall_app. split; [|done].
    unfold eventBlock. constructor.
    { unfold ascii. apply (bool_decide_unpack _). by vm_compute. }
    apply Forall_app. split; [done|]. constructor; [|constructor].
    unfold ascii. apply (bool_decide_unpack _). by vm_compute.
  - constructor; [|constructor].
    unfold ascii. apply (bool_decide_unpack _). by vm_compute.
Qed.

(** The chunk written for a group of events of a parsed calendar with
    short lines. *)
Lemma chunk_of_group icsContent (group : list Event) cleanMode :
  Forall (λ l, length l ≤ MAX_LINE_LENGTH) (trimmedLines icsContent) →
  Forall (λ event, event ∈ events (parse icsContent)) group →
  ∃ chunk,
    createChunkResult (parse icsContent) group cleanMode = Some chunk ∧
    eventCount chunk = length group ∧
    length (content chunk) ≤ estimatedSize (parse icsContent) group ∧
    (ascii icsContent → getByteSize (content chunk) = length (content chunk)).
Proof.
  intros Hshort Hgroup.
  destruct (write_parsed_length icsContent group cleanMode Hshort Hgroup)
    as (text & Hwrite & Hle & _).
  unfold createChunkResult. rewrite Hwrite. simpl. eexists.
  split; [done|]. simpl. split; [done|]. split; [done|].
  intros Hascii. apply getByteSize_bounded with (n := length text); [done|].
  destruct (parse_lines_Forall _ icsContent (ascii_trimmedLines _ Hascii))
    as [Hheader Hevents].
  destruct (parse_lines_Forall _ icsContent Hshort) as [Hsh Hse].
  rewrite write_short in Hwrite.
  - injection Hwrite as <-. apply ascii_endEach, ascii_documentLines.
    + unfold headerSource. destruct (nonEmpty _); [done|].
      repeat constructor; unfold ascii; apply (bool_decide_unpack _);
        by vm_compute.
    + rewrite Forall_fmap. apply Forall_forall. intros event Hev.
      rewrite Forall_forall in Hgroup, Hevents. simpl.
      rewrite (parse_emittedLines icsContent) by by apply Hgroup.
      apply filter_Forall. by apply Hevents, Hgroup.
  - unfold headerSource. destruct (nonEmpty _); [done|].
    apply defaultHeader_short.
  - rewrite Forall_fmap. apply Forall_forall. intros event Hev.
    rewrite Forall_forall in Hgroup, Hse. simpl.
    rewrite (parse_emittedLines icsContent) by by apply Hgroup.
    apply filter_Forall. by apply Hse, Hgroup.
Qed.

End ChunkSizes.

(** X12.  For a parsed calendar whose lines are at most 75 units long
    (nothing needs folding), [write] returns a text that is no longer
    than [splitBySize] reckons for these events, and exactly as long
    with clean mode off. *)
Theorem write_length_estimate `{Host} (icsContent : jsstring)
    (selected : list Event) (cleanMode : bool) :
  Forall (λ l, length l ≤ MAX_LINE_LENGTH) (trimmedLines icsContent) →
  Forall (λ event, event ∈ events (parse icsContent)) selected →
  ∃ text,
    write (parse icsContent) selected cleanMode = Some text ∧
    length text ≤ estimatedSize (parse icsContent) selected ∧
    (cleanMode = false →
     length text = estimatedSize (parse icsContent) selected).
Proof. apply write_parsed_length. Qed.

(** X12 applied: the dated calendar, clean mode on. *)
Lemma write_length_estimate_sample :
  Forall (λ l, length l ≤ MAX_LINE_LENGTH) (trimmedLines datedCalendar) ∧
  Forall (λ event, event ∈ events (parse datedCalendar))
         (events (parse datedCalendar)) ∧
  ∃ text,
    @write plainHost (parse datedCalendar) (events (parse datedCalendar)) true
    = Some text ∧
    length text
    ≤ estimatedSize (parse datedCalendar) (events (parse datedCalendar)).
Proof.
  assert (Forall (λ l, length l ≤ MAX_LINE_LENGTH) (trimmedLines datedCalendar))
    as Hshort by (apply (bool_decide_unpack _); vm_compute; exact I).
  assert (Forall (λ event, event ∈ events (parse datedCalendar))
                 (events (parse datedCalendar))) as Hsel
    by (apply Forall_forall; intros event Hevent; exact Hevent).
  split; [exact Hshort|]. split; [exact Hsel|].
  destruct (@write_length_estimate plainHost datedCalendar
              (events (parse datedCalendar)) true Hshort Hsel)
    as (text & Htext & Hle & _).
  exists text. split; [exact Htext | exact Hle].
Defined.

(** X4.  The size [splitBySize] reckons counts code units, and the
    bytes written are no fewer.  For a parsed calendar whose lines are
    at most 75 units long and a selection of its events, the text
    [write] returns with clean mode off has a byte size ([getByteSize])
    of at least the size reckoned for these events and of at most three
    times that; the two are equal exactly when the text is ASCII. *)
Theorem getByteSize_of_written_text `{Host} (icsContent : jsstring)
    (selected : list Event) :
  Forall (λ l, length l ≤ MAX_LINE_LENGTH) (trimmedLines icsContent) →
  Forall (λ event, event ∈ events (parse icsContent)) selected →
  ∃ text,
    write (parse icsContent) selected false = Some text ∧
    estimatedSize (parse icsContent) selected ≤ getByteSize text
      ≤ 3 * estimatedSize (parse icsContent) selected ∧
    (getByteSize text = estimatedSize (parse icsContent) selected
     ↔ ascii text).
Proof.
  intros Hshort Hsel.
  destruct (write_parsed_length icsContent selected false Hshort Hsel)
    as (text & Htext & _ & Hlength).
  exists text. split; [done|]. rewrite <- (Hlength eq_refl).
  by apply (getByteSize_bounded (length text)).
Qed.

(** X4 applied: the calendar with an accented summary; the text written
    has more bytes than the size reckoned. *)
Lemma getByteSize_of_written_text_sample :
  Forall (λ l, length l ≤ MAX_LINE_LENGTH) (trimmedLines accentedCalendar) ∧
  Forall (λ event, event ∈ events (parse accentedCalendar))
         (events (parse accentedCalendar)) ∧
  ∃ text,
    @write plainHost (parse accentedCalendar) (events (parse accentedCalendar))
           false = Some text ∧
    estimatedSize (parse accentedCalendar) (events (parse accentedCalendar))
      ≤ getByteSize text
      ≤ 3 * estimatedSize (parse accentedCalendar)
                          (events (parse accentedCalendar)) ∧
    (getByteSize text
     = estimatedSize (parse accentedCalendar) (events (parse accentedCalendar))
     ↔ ascii text).
Proof.
  assert (Forall (λ l, length l ≤ MAX_LINE_LENGTH)
                 (trimmedLines accentedCalendar))
    as Hshort by (apply (bool_decide_unpack _); vm_compute; exact I).
  assert (Forall (λ event, event ∈ events (parse accentedCalendar))
                 (events (parse accentedCalendar))) as Hsel
    by (apply Forall_forall; intros event Hevent; exact Hevent).
  split; [exact Hshort|]. split; [exact Hsel|].
  exact (@getByteSize_of_written_text plainHost accentedCalendar
           (events (parse accentedCalendar)) Hshort Hsel).
Defined.

(** X13.  For a parsed calendar whose lines are at most 75 units long,
    [splitBySize] returns chunks, and every chunk of more than one
    event is within the limit: its text has at most [maxSizeBytes]
    code units, and for an ASCII calendar at most [maxSizeBytes]
    bytes. *)
Theorem splitBySize_within_limit `{Host} (icsContent : jsstring)
    (selected : list Event) (maxSizeBytes : Z) (cleanMode : bool) :
  Forall (λ l, length l ≤ MAX_LINE_LENGTH) (trimmedLines icsContent) →
  Forall (λ event, event ∈ events (parse icsContent)) selected →
  ∃ chunks,
    splitBySize (parse icsContent) selected maxSizeBytes cleanMode
    = Some chunks ∧
    Forall (λ chunk, eventCount chunk = 1 ∨
                     (Z.of_nat (length (content chunk)) ≤ maxSizeBytes)%Z)
           chunks ∧
    (ascii icsContent →
     Forall (λ chunk, eventCount chunk = 1 ∨
                      (Z.of_nat (getByteSize (content chunk)) ≤ maxSizeBytes)%Z)
            chunks).
Proof.
  intros Hshort Hsel. rewrite splitBySize_groups.
  set (groups := groupBySize getEventSize
                   (getHeaderFooterSize (parse icsContent)) maxSizeBytes []
                   (getHeaderFooterSize (parse icsContent))
                   (sort compareEvents selected)).
  assert (Forall (λ group, Forall (λ event, event ∈ events (parse icsContent))
                                  group) groups) as Hgroups.
  { apply Forall_forall. intros group Hgroup. apply Forall_forall.
    intros event Hev. rewrite Forall_forall in Hsel. apply Hsel.
    rewrite <- (sort_Permutation compareEvents selected).
    change (sort compareEvents selected)
      with ([] ++ sort compareEvents selected).
    rewrite <- (groupBySize_concat getEventSize
                  (getHeaderFooterSize (parse icsContent)) maxSizeBytes []
                  (getHeaderFooterSize (parse icsContent))
                  (sort compareEvents selected)).
    apply list_elem_of_In, in_concat. exists group.
    by rewrite <- !list_elem_of_In. }
  assert (Forall (λ group,
                    length group = 1 ∨
                    (Z.of_nat (estimatedSize (parse icsContent) group)
                     ≤ maxSizeBytes)%Z) groups) as Hfit.
  { apply groupBySize_fits; [|left; cbn [length]; lia].
    change (sum_list (getEventSize <$> [])) with 0. lia. }
  assert (is_Some (mapM (λ group, createChunkResult (parse icsContent)
                                    group cleanMode) groups))
    as [chunks Hchunks].
  { apply mapM_is_Some. eapply Forall_impl; [exact Hgroups|].
    intros group Hgroup. simpl.
    destruct (chunk_of_group icsContent group cleanMode Hshort Hgroup)
      as (chunk & -> & _). by eexists. }
  exists chunks. split; [done|]. apply mapM_Some in Hchunks.
  assert (Forall (λ chunk,
                    (eventCount chunk = 1 ∨
                     (Z.of_nat (length (content chunk)) ≤ maxSizeBytes)%Z) ∧
                    (ascii icsContent →
                     getByteSize (content chunk) = length (content chunk)))
                 chunks) as Hall.
  { eapply Forall2_Forall_r; [exact Hchunks|].
    rewrite Forall_forall in Hgroups, Hfit. apply Forall_forall.
    intros group Hgroup chunk Hchunk.
    destruct (chunk_of_group icsContent group cleanMode Hshort
                (Hgroups group Hgroup)) as (chunk' & Hchunk' & Hcount & Hlen & Hbytes).
    rewrite Hchunk in Hchunk'. injection Hchunk' as <-.
    split; [|done]. rewrite Hcount.
    destruct (Hfit group Hgroup) as [Hone|Hle]; [by left|right; lia]. }
  split.
  - eapply Forall_impl; [exact Hall|]. by intros chunk [? _].
  - intros Hascii. eapply Forall_impl; [exact Hall|].
    intros chunk [Hfits Hbytes]. by rewrite Hbytes.
Qed.

(** X13 applied: the dated calendar under a limit of 120. *)
Lemma splitBySize_within_limit_sample :
  Forall (λ l, length l ≤ MAX_LINE_LENGTH) (trimmedLines datedCalendar) ∧
  Forall (λ event, event ∈ events (parse datedCalendar))
         (events (parse datedCalendar)) ∧
  ascii datedCalendar ∧
  ∃ chunks,
    @splitBySize plainHost (parse datedCalendar) (events (parse datedCalendar))
      120 false = Some chunks ∧
    Forall (λ chunk, eventCount chunk = 1 ∨
                     (Z.of_nat (getByteSize (content chunk)) ≤ 120)%Z)
           chunks.
Proof.
  assert (Forall (λ l, length l ≤ MAX_LINE_LENGTH) (trimmedLines datedCalendar))
    as Hshort by (apply (bool_decide_unpack _); vm_compute; exact I).
  assert (Forall (λ event, event ∈ events (parse datedCalendar))
                 (events (parse datedCalendar))) as Hsel
    by (apply Forall_forall; intros event Hevent; exact Hevent).
  assert (ascii datedCalendar) as Hascii
    by (apply (bool_decide_unpack _); vm_compute; exact I).
  split; [exact Hshort|]. split; [exact Hsel|]. split; [exact Hascii|].
  destruct (@splitBySize_within_limit plainHost datedCalendar
              (events (parse datedCalendar)) 120 false Hshort Hsel)
    as (chunks & Hchunks & _ & Hbytes).
  exists chunks. split; [exact Hchunks | exact (Hbytes Hascii)].
Defined.

(** X14.  Under a limit below the size of header and footer (zero or a
    negative limit, for instance) [splitBySize] puts every event in a
    chunk of its own: there are as many chunks as events. *)
Theorem splitBySize_small_limit `{Host} (calendar : Calendar)
    (selected : list Event) (maxSizeBytes : Z) (cleanMode : bool)
    (chunks : list Chunk) :
  splitBySize calendar selected maxSizeBytes cleanMode = Some chunks →
  (maxSizeBytes < Z.of_nat (getHeaderFooterSize calendar))%Z →
  Forall (λ chunk, eventCount chunk = 1) chunks ∧
  length chunks = length selected.
Proof.
  intros (groups & Hwritten & Hgroups & Hconcat & _)%splitBySize_written Hsmall.
  assert (Forall (λ group, length group = 1) groups) as Hone.
  { rewrite Hgroups. apply groupBySize_alone; [done|lia|cbn [length]; lia]. }
  assert (Forall2 (λ group chunk, eventCount chunk = length group)
                  groups chunks) as Hcount.
  { eapply Forall2_impl; [exact Hwritten|]. intros group chunk Hchunk.
    by apply createChunkResult_fields in Hchunk as (_ & _ & _ & ?). }
  split.
  - eapply Forall2_Forall_r; [exact Hcount|].
    eapply Forall_impl; [exact Hone|]. intros group Hg chunk ->. done.
  - rewrite <- (Forall2_length _ _ _ Hcount).
    rewrite <- (sort_length compareEvents selected), <- Hconcat.
    clear -Hone. induction Hone as [|group groups Hg _ IH]; [done|].
    rewrite concat_cons, length_app. simpl. lia.
Qed.

(** X14 applied: the dated calendar under a limit of zero. *)
Lemma splitBySize_small_limit_sample :
  (0 < Z.of_nat (getHeaderFooterSize (parse datedCalendar)))%Z ∧
  ∃ chunks,
    @splitBySize plainHost (parse datedCalendar) (events (parse datedCalendar))
      0 false = Some chunks ∧
    Forall (λ chunk, eventCount chunk = 1) chunks ∧
    length chunks = length (events (parse datedCalendar)).
Proof.
  assert (0 < Z.of_nat (getHeaderFooterSize (parse datedCalendar)))%Z
    as Hlimit by (vm_compute; reflexivity).
  split; [exact Hlimit|].
  destruct (@splitBySize plainHost (parse datedCalendar)
              (events (parse datedCalendar)) 0 false) as [chunks|] eqn:Hsplit;
    [|vm_compute in Hsplit; discriminate].
  exists chunks. split; [reflexivity|].
  exact (@splitBySize_small_limit plainHost _ _ _ _ _ Hsplit Hlimit).
Defined.

(** ** Years *)

(** Linear arithmetic with division by constants. *)
Ltac div_lia := Z.div_mod_to_equations; lia.

Section Years.

Local Open Scope Z_scope.

Lemma DayFromYear_next y :
  DayFromYear (y + 1) = DayFromYear y + 365 + (if isLeapYear y then 1 else 0).
Proof.
  unfold DayFromYear, isLeapYear.
  destruct (Z.eqb_spec (y mod 4) 0), (Z.eqb_spec (y mod 100) 0),
           (Z.eqb_spec (y mod 400) 0); cbn [andb orb negb]; div_lia.
Qed.

Lemma DayFromYear_mono y y' : y ≤ y' → DayFromYear y ≤ DayFromYear y'.
Proof. unfold DayFromYear. div_lia. Qed.

Lemma DayFromYear_period y k :
  DayFromYear (y + 400 * k) = DayFromYear y + 146097 * k.
Proof. unfold DayFromYear. div_lia. Qed.

Lemma YearFromTime_day t : YearFromTime t = YearFromDay (t / msPerDay).
Proof. reflexivity. Qed.

Lemma YearFromDay_period day k :
  YearFromDay (day + 146097 * k) = YearFromDay day + 400 * k.
Proof.
  unfold YearFromDay.
  replace (day + 146097 * k + 719468) with (day + 719468 + k * 146097) by lia.
  rewrite Z.div_add by done.
  replace (day + 719468 + k * 146097 - ((day + 719468) / 146097 + k) * 146097)
    with (day + 719468 - (day + 719468) / 146097 * 146097) by lia.
  lia.
Qed.

Lemma iter_checkDay_nat (n : nat) ok day :
  (Nat.iter n checkDay (ok, day)).1 = true →
  ok = true ∧ ∀ k, 0 ≤ k < Z.of_nat n → inYearOfDay (day + k) = true.
Proof.
  revert ok day. induction n as [|n IH]; intros ok day.
  - simpl. intros ->. split; [done|]. lia.
  - rewrite Nat.iter_succ_r. unfold checkDay at 2. simpl fst. simpl snd.
    intros Hrun.
    apply IH in Hrun as [[-> Hday]%andb_prop Hrest]. split; [done|].
    intros k Hk. destruct (decide (k = 0)) as [->|Hne].
    + by rewrite Z.add_0_r.
    + replace (day + k) with (day + 1 + (k - 1)) by lia. apply Hrest. lia.
Qed.

Lemma daysChecked_spec (n : N) :
  daysChecked n = true → ∀ day, 0 ≤ day < Z.of_N n → inYearOfDay day = true.
Proof.
  unfold daysChecked. rewrite N2Nat.inj_iter.
  intros [_ Hdays]%iter_checkDay_nat day Hday.
  rewrite <- (Z.add_0_l day). apply Hdays. by rewrite N_nat_Z.
Qed.

(** Every day of one period of 400 years lies in the year computed for
    it. *)
Lemma daysChecked_period : daysChecked 146097 = true.
Proof. vm_cast_no_check (eq_refl true). Qed.

Lemma inYearOfDay_true day :
  inYearOfDay day = true ↔
  DayFromYear (YearFromDay day) ≤ day < DayFromYear (YearFromDay day + 1).
Proof.
  unfold inYearOfDay. cbv zeta. generalize (YearFromDay day). intros y.
  rewrite andb_true_iff. lia.
Qed.

Lemma inYearOfDay_all day : inYearOfDay day = true.
Proof.
  assert (∃ q r, day = r + 146097 * q ∧ 0 ≤ r < 146097)
    as (q & r & -> & Hrange).
  { exists (day / 146097), (day mod 146097). div_lia. }
  pose proof (daysChecked_spec 146097 daysChecked_period r Hrange) as Hperiod.
  apply inYearOfDay_true in Hperiod. apply inYearOfDay_true.
  rewrite YearFromDay_period.
  replace (YearFromDay r + 400 * q + 1)
    with (YearFromDay r + 1 + 400 * q) by lia.
  rewrite !DayFromYear_period. revert Hperiod.
  generalize (YearFromDay r). intros y.
  generalize (DayFromYear y), (DayFromYear (y + 1)). lia.
Qed.

(** [YearFromTime] is the year of ECMA-262: the year in which the
    time value lies. *)
Lemma YearFromTime_spec t :
  TimeFromYear (YearFromTime t) ≤ t < TimeFromYear (YearFromTime t + 1).
Proof.
  rewrite YearFromTime_day.
  pose proof (proj1 (inYearOfDay_true _) (inYearOfDay_all (t / msPerDay)))
    as Hday.
  revert Hday. unfold TimeFromYear. generalize (YearFromDay (t / msPerDay)).
  intros y. generalize (DayFromYear y), (DayFromYear (y + 1)). intros a b.
  unfold msPerDay. div_lia.
Qed.

Lemma YearFromTime_unique t y :
  TimeFromYear y ≤ t < TimeFromYear (y + 1) → YearFromTime t = y.
Proof.
  intros Ht. pose proof (YearFromTime_spec t) as Hy. revert Ht Hy.
  generalize (YearFromTime t). intros y'. unfold TimeFromYear, msPerDay.
  intros Ht Hy.
  destruct (Z.lt_trichotomy y' y) as [Hlt|[Heq|Hgt]]; [|done|].
  - pose proof (DayFromYear_mono (y' + 1) y). lia.
  - pose proof (DayFromYear_mono (y + 1) y'). lia.
Qed.

(** The time value of a day of the calendar and a time of that day lies
    in the year named. *)
Lemma MakeDate_in_year year month day hour minute second :
  validDate year month day → validTime hour minute second →
  TimeFromYear year
  ≤ MakeDate (MakeDay year (month - 1) day) (MakeTime hour minute second 0)
  < TimeFromYear (year + 1).
Proof.
  unfold validDate, validTime, daysInMonth.
  intros [Hmonth Hday] (Hh & Hmi & Hs).
  unfold TimeFromYear, MakeDate, MakeDay, MakeTime.
  rewrite DayFromYear_next.
  replace ((month - 1) / 12) with 0 by div_lia.
  replace ((month - 1) mod 12) with (month - 1) by div_lia.
  rewrite Z.add_0_r. revert Hday.
  generalize (DayFromYear year), (isLeapYear year). intros a leap.
  unfold msPerDay.
  assert (month = 1 ∨ month = 2 ∨ month = 3 ∨ month = 4 ∨ month = 5 ∨
          month = 6 ∨ month = 7 ∨ month = 8 ∨ month = 9 ∨ month = 10 ∨
          month = 11 ∨ month = 12) as Hcases by lia.
  clear Hmonth.
  intros Hday.
  decompose [or] Hcases; subst month; destruct leap; cbn in Hday;
    match goal with
    | |- context [daysBeforeMonth ?l ?m] =>
        let days := eval vm_compute in (daysBeforeMonth l m) in
        change (daysBeforeMonth l m) with days
    end; lia.
Qed.

End Years.

(** ** The date of an event *)

Section EventDates.

Context `{Host}.
Implicit Types (s l : jsstring) (t : DateText).

(** A text of the grammar behind any prefix that ends in a colon. *)
Lemma parseICalDate_text s t :
  noLineTerminator s → afterFinalColon s = textOf t → wellFormedDateText t →
  parseICalDate s = Some (dateOf t).
Proof.
  intros Hnlt Hclean Hwf. unfold parseICalDate.
  destruct s as [|c s].
  { by destruct (textOf_nonempty t Hwf). }
  simpl truthy. simpl negb. cbv iota.
  rewrite cleanDateStr_noLineTerminator, Hclean by done.
  assert (matchDate (textOf t) = Some (groupsOf t)) as ->
    by (apply matchDate_spec; eauto).
  cbv zeta. clear Hclean Hnlt.
  destruct t as [y mo d|y mo d h mi se utc]; simpl; [done|].
  destruct Hwf as (_ & _ & _ & [Hh _] & [Hmi _] & [Hse _]).
  destruct h, mi, se; try done. by destruct utc.
Qed.

Lemma afterFinalColon_text t :
  wellFormedDateText t → afterFinalColon (textOf t) = textOf t.
Proof.
  intros Hwf. unfold afterFinalColon.
  destruct (lastIndexOf COLON (textOf t)) as [i|] eqn:Hlast; [|done].
  exfalso. pose proof (textOf_noColon t Hwf) as Hno.
  clear Hwf. revert i Hlast. induction Hno as [|c s Hc _ IH]; [done|].
  simpl. intros i. destruct (lastIndexOf COLON s) as [j|]; [by eauto|].
  by destruct (N.eqb_spec c COLON).
Qed.

(** The local time value of the fields of a text. *)
Lemma getFullYear_dateOf t :
  wellFormedDateText t → validDateText t → localDateText t →
  (∀ tv, LocalTime (UTC tv) = tv) →
  getFullYear (dateOf t) = writtenYear t.
Proof.
  intros Hwf Hvalid Hlocal Hzone. unfold getFullYear.
  destruct t as [y mo d|y mo d h mi se utc]; simpl in *.
  - rewrite Hzone. apply YearFromTime_unique.
    apply MakeDate_in_year; [done|]. unfold validTime. lia.
  - subst utc. simpl. rewrite Hzone. destruct Hvalid as [Hdate Htime].
    apply YearFromTime_unique. by apply MakeDate_in_year.
Qed.

Lemma indexOf_lastIndexOf c s i :
  indexOf c s = Some i → is_Some (lastIndexOf c s).
Proof.
  revert i. induction s as [|d s IH]; intros i; simpl; [done|].
  destruct (N.eqb_spec d c) as [->|Hne].
  - intros _. destruct (lastIndexOf c s); by eexists.
  - destruct (indexOf c s) as [j|]; simpl; [|done]. intros _.
    destruct (IH j eq_refl) as [k ->]. by eexists.
Qed.

(** The text behind the first colon has the same text behind its final
    colon as the whole line. *)
Lemma afterFinalColon_drop l colonIndex :
  indexOf COLON l = Some colonIndex →
  afterFinalColon (drop (S colonIndex) l) = afterFinalColon l.
Proof.
  unfold afterFinalColon. revert colonIndex.
  induction l as [|d l IH]; intros colonIndex; simpl; [done|].
  destruct (N.eqb_spec d COLON) as [->|Hne].
  - intros [= <-]. rewrite drop_0.
    by destruct (lastIndexOf COLON l).
  - destruct (indexOf COLON l) as [j|] eqn:Hj; simpl; [|done].
    intros [= <-]. rewrite (IH j eq_refl).
    by destruct (indexOf_lastIndexOf COLON l j Hj) as [k ->].
Qed.

Lemma entriesNamed_none name (ls : list jsstring) :
  Forall (λ l, nameBeforeSeparator l ≠ name ∨ COLON ∉ l) ls →
  entriesNamed name ls = [].
Proof.
  unfold entriesNamed. induction 1 as [|l ls Hl _ IH]; [done|].
  cbn [omap list_omap]. rewrite IH.
  destruct (indexOf COLON l) as [colonIndex|] eqn:Hcolon; [|done].
  pose proof (eventProperty_name l colonIndex Hcolon) as Hname.
  destruct (eventProperty l colonIndex) as [name' prop]. simpl in Hname.
  destruct (decide (name' = name)) as [->|]; [|done].
  destruct Hl as [Hl|Hl]; [done|].
  apply indexOf_None in Hl. congruence.
Qed.

End EventDates.

(** X15.  The year of a date read as local time is the year written.
    For a text of the date grammar without trailing [Z] that names a
    day of the calendar (month 01 to 12, day 01 to the length of the
    month) and a time below 24:00:00, on a host whose local time has no
    gaps, [parseICalDate] returns a date whose [getFullYear] is the year
    of the text; the years 0000 to 0099 count as 1900 to 1999. *)
Theorem parseICalDate_written_year `{Host} (t : DateText) :
  wellFormedDateText t → validDateText t → localDateText t →
  (∀ tv, LocalTime (UTC tv) = tv) →
  ∃ date, parseICalDate (textOf t) = Some date ∧
          getFullYear date = writtenYear t.
Proof.
  intros Hwf Hvalid Hlocal Hzone. exists (dateOf t). split.
  - apply parseICalDate_text; [|by apply afterFinalColon_text|done].
    by apply textOf_noLineTerminator.
  - by apply getFullYear_dateOf.
Qed.

(** X15 applied: the last day of February of a leap year. *)
Lemma parseICalDate_written_year_sample :
  wellFormedDateText
    (DateTime (lit "2024") (lit "02") (lit "29") (lit "23") (lit "59")
              (lit "59") false) ∧
  validDateText
    (DateTime (lit "2024") (lit "02") (lit "29") (lit "23") (lit "59")
              (lit "59") false) ∧
  ∃ date,
    @parseICalDate plainHost (lit "20240229T235959") = Some date ∧
    @getFullYear plainHost date = 2024%Z.
Proof.
  assert (wellFormedDateText
            (DateTime (lit "2024") (lit "02") (lit "29") (lit "23") (lit "59")
                      (lit "59") false)) as Hwf
    by (apply (bool_decide_unpack _); vm_compute; exact I).
  assert (validDateText
            (DateTime (lit "2024") (lit "02") (lit "29") (lit "23") (lit "59")
                      (lit "59") false)) as Hvalid
    by (vm_compute; intuition discriminate).
  split; [exact Hwf|]. split; [exact Hvalid|].
  exact (@parseICalDate_written_year plainHost _ Hwf Hvalid eq_refl
           (λ tv, eq_refl)).
Defined.

(** X16.  The date of an event is that of its last [DTSTART] line, and
    the parameters of the line play no part.  When the last line of an
    event of [parse] that is named [DTSTART] holds no line terminator
    and ends, behind its final colon, in a text of the date grammar,
    [getEventDate] returns the date of this text: local time without
    [Z], whatever [TZID] says. *)
Theorem getEventDate_last_DTSTART `{Host} (icsContent : jsstring)
    (event : Event) (before : list jsstring) (l : jsstring)
    (after : list jsstring) (t : DateText) :
  event ∈ events (parse icsContent) →
  _rawLines event = before ++ l :: after →
  nameBeforeSeparator l = lit "DTSTART" → COLON ∈ l →
  Forall (λ l', nameBeforeSeparator l' ≠ lit "DTSTART" ∨ COLON ∉ l') after →
  noLineTerminator l → afterFinalColon l = textOf t → wellFormedDateText t →
  getEventDate event = Some (dateOf t).
Proof.
  intros Hev Hraw Hname Hcolon Hafter Hnlt Htext Hwf.
  pose proof (parse_events_of_lines icsContent) as Hprops.
  rewrite Forall_forall in Hprops. unfold getEventDate.
  rewrite (Hprops event Hev), getProp_propertiesOfLines, Hraw by done.
  replace (before ++ l :: after) with ((before ++ [l]) ++ after)
    by by rewrite <- app_assoc.
  unfold entriesNamed at 1. rewrite omap_app. fold (entriesNamed (lit "DTSTART") after).
  rewrite (entriesNamed_none _ after Hafter), app_nil_r.
  fold (entriesNamed (lit "DTSTART") (before ++ [l])).
  rewrite entriesNamed_snoc.
  destruct (indexOf COLON l) as [colonIndex|] eqn:Hindex;
    [|by apply indexOf_None in Hindex].
  pose proof (eventProperty_name l colonIndex Hindex) as Hfiled.
  unfold entriesNamed at 2. cbn [omap list_omap]. rewrite Hindex.
  destruct (eventProperty l colonIndex) as [name' prop] eqn:Hprop.
  simpl in Hfiled. rewrite Hfiled, Hname, decide_True by done.
  rewrite last_snoc.
  assert (value prop = drop (S colonIndex) l) as Hvalue.
  { unfold eventProperty in Hprop. injection Hprop as _ <-. simpl.
    by rewrite Nat.add_1_r. }
  apply parseICalDate_text; [| |done].
  - rewrite Hvalue. by apply Forall_drop.
  - by rewrite Hvalue, afterFinalColon_drop.
Qed.

(** X16 applied: the event that sets its start twice; the second line
    counts, and its time zone does not. *)
Lemma getEventDate_last_DTSTART_sample :
  ∃ event,
    events (parse repeatedCalendar) !! 0 = Some event ∧
    _rawLines event
    = (lit <$> ["UID:r"; "DTSTART:20230101"; "SUMMARY;LANGUAGE=en:First"]%string)
      ++ lit "DTSTART;TZID=Asia/Tokyo:20230615T090000"
      :: [lit "SUMMARY:Second"] ∧
    @getEventDate plainHost event
    = Some (@dateOf plainHost
              (DateTime (lit "2023") (lit "06") (lit "15") (lit "09")
                        (lit "00") (lit "00") false)).
Proof.
  destruct (events (parse repeatedCalendar) !! 0) as [event|] eqn:Hevent;
    [|vm_compute in Hevent; discriminate].
  exists event. split; [reflexivity|].
  assert (_rawLines event
          = (lit <$> ["UID:r"; "DTSTART:20230101";
                      "SUMMARY;LANGUAGE=en:First"]%string)
            ++ lit "DTSTART;TZID=Asia/Tokyo:20230615T090000"
            :: [lit "SUMMARY:Second"]) as Hlines
    by (vm_compute in Hevent; injection Hevent as <-; vm_compute; reflexivity).
  split; [exact Hlines|].
  apply (@getEventDate_last_DTSTART plainHost repeatedCalendar event _ _ _
           (DateTime (lit "2023") (lit "06") (lit "15") (lit "09")
                     (lit "00") (lit "00") false)
           (list_elem_of_lookup_2 _ _ _ Hevent) Hlines).
  - vm_compute; reflexivity.
  - apply (bool_decide_unpack _); vm_compute; exact I.
  - apply (bool_decide_unpack _); vm_compute; exact I.
  - apply (bool_decide_unpack _); vm_compute; exact I.
  - vm_compute; reflexivity.
  - apply (bool_decide_unpack _); vm_compute; exact I.
Defined.

(** ** Folding well-formed lines *)

Section FoldPairs.

Implicit Types (remaining line chunk s : jsstring) (result : list jsstring).

Lemma shiftCut_stop remaining n p :
  shiftCut remaining n = S p → isContinuationByte remaining (S p) = false.
Proof.
  induction n as [|n IH]; [done|]. rewrite shiftCut_S.
  destruct (isContinuationByte remaining (S n)) eqn:Hn; [done|].
  by intros [= <-].
Qed.

Lemma isContinuationByte_false str p c :
  isContinuationByte str (S p) = false → S p < length str →
  str !! p = Some c → isHighSurrogate c = false.
Proof.
  unfold isContinuationByte. intros Hcont Hlen Hc.
  destruct (Nat.leb_spec (length str) (S p)); [lia|]. simpl in Hcont.
  by rewrite Nat.sub_0_r, Hc in Hcont.
Qed.

Lemma pairedHigh_drop s n : pairedHigh s = true → pairedHigh (drop n s) = true.
Proof.
  revert s. induction n as [|n IH]; intros s Hs; [by rewrite drop_0|].
  destruct s as [|c s]; [done|]. simpl. apply IH.
  cbn [pairedHigh] in Hs. by apply andb_true_iff in Hs as [_ Hs].
Qed.

(** A cut behind a unit that is not a high surrogate leaves every high
    surrogate in front of it with its low surrogate. *)
Lemma pairedHigh_take s p :
  pairedHigh s = true →
  (∀ c, s !! p = Some c → isHighSurrogate c = false) →
  pairedHigh (take (S p) s) = true.
Proof.
  revert p. induction s as [|c s IH]; intros p Hs Hlast; [done|].
  cbn [pairedHigh] in Hs. apply andb_true_iff in Hs as [Hc Hs].
  destruct p as [|p].
  - simpl. by rewrite (Hlast c eq_refl).
  - change (take (S (S p)) (c :: s)) with (c :: take (S p) s).
    cbn [pairedHigh]. rewrite (IH p Hs) by (intros d Hd; by apply Hlast).
    rewrite andb_true_r. destruct (isHighSurrogate c); [|done].
    by destruct s.
Qed.

(** The pieces the loop cuts a well-formed text into are well formed:
    no cut falls between a high surrogate and its low surrogate. *)
Lemma foldLoop_pairs fuel remaining isFirst segs :
  foldLoop fuel [] remaining isFirst = Some segs →
  pairedHigh remaining = true →
  ∃ chunks,
    segs = segmentsOf isFirst chunks ∧
    concat chunks = remaining ∧
    Forall (λ chunk, pairedHigh chunk = true) chunks.
Proof.
  revert remaining isFirst segs.
  induction fuel as [|fuel IH]; intros remaining isFirst segs Hrun Hpaired;
    [done|].
  simpl in Hrun.
  destruct (Nat.eqb_spec (length remaining) 0) as [E|Hne].
  { exists []. apply nil_length_inv in E. by simplify_eq. }
  destruct (Nat.leb_spec (length remaining) (maxLenOf isFirst)) as [Hle|Hlong].
  { exists [remaining]. simplify_eq. simpl. rewrite app_nil_r.
    repeat split. by constructor. }
  rewrite foldLoop_acc in Hrun.
  destruct (foldLoop fuel [] _ false) as [segs'|] eqn:Hrest; [|done].
  simpl in Hrun. simplify_eq.
  destruct (shiftCut remaining (maxLenOf isFirst)) as [|cut] eqn:Hcut.
  { rewrite drop_0 in Hrest.
    rewrite (stuck_diverges_false fuel [] remaining) in Hrest; [done|].
    apply (stuck_false _ isFirst). by split. }
  pose proof (shiftCut_le remaining (maxLenOf isFirst)) as Hcutle.
  rewrite Hcut in Hcutle.
  apply IH in Hrest as (chunks & -> & Hcat & Hchunks);
    [|by apply pairedHigh_drop].
  exists (take (S cut) remaining :: chunks). repeat split.
  - unfold substring. rewrite Nat.sub_0_r, drop_0.
    destruct chunks; [done|]. by destruct isFirst.
  - simpl. rewrite Hcat. apply take_drop.
  - constructor; [|done]. apply pairedHigh_take; [done|].
    intros c Hc.
    apply (isContinuationByte_false remaining cut c); [|lia|done].
    by eapply shiftCut_stop.
Qed.

End FoldPairs.

(** X17.  Folding and unfolding.  On a line without line break and
    without two adjacent high surrogates [foldLine] returns; what it
    returns is made of physical lines of at most 75 units joined by
    CRLF, is the line itself when the line has at most 75 units, and
    unfolds to the line as [parse] unfolds it. *)
Theorem foldLine_unfolds_to_line (line : jsstring) :
  noLineBreak line → noAdjacentHigh line = true →
  ∃ out segs,
    foldLine line = Some out ∧
    out = join CRLF segs ∧
    Forall (λ seg, length seg ≤ MAX_LINE_LENGTH) segs ∧
    (length line ≤ MAX_LINE_LENGTH → out = line) ∧
    unfoldedContent out = line.
Proof.
  intros Hbreak Hadj. destruct (foldLine_returns line Hadj) as [out Hout].
  exists out.
  destruct (Nat.le_gt_cases (length line) MAX_LINE_LENGTH) as [Hshort|Hlong].
  - exists [line]. rewrite foldLine_short in Hout by done.
    injection Hout as <-. rewrite foldLine_short by done.
    repeat split; [by constructor|]. by apply unfold_single.
  - destruct (foldLine_long line out Hlong Hout)
      as (first & rest & Hjoin & Hcat & _ & Hfirst & Hrest).
    exists (first :: ((SPACE ::.) <$> rest)).
    repeat split; try done.
    + constructor; [done|]. apply Forall_fmap.
      eapply Forall_impl; [exact Hrest|]. intros c [_ Hc]. simpl.
      unfold MAX_LINE_LENGTH in *. lia.
    + intros Hle. lia.
    + by apply foldLine_unfold.
Qed.

(** X17 applied: a line of 90 units. *)
Lemma foldLine_unfolds_to_line_sample :
  noLineBreak longLine ∧ noAdjacentHigh longLine = true ∧
  ∃ out segs,
    foldLine longLine = Some out ∧
    out = join CRLF segs ∧
    Forall (λ seg, length seg ≤ MAX_LINE_LENGTH) segs ∧
    unfoldedContent out = longLine.
Proof.
  assert (noLineBreak longLine) as Hbreak
    by (apply (bool_decide_unpack _); vm_compute; exact I).
  assert (noAdjacentHigh longLine = true) as Hhigh by (vm_compute; reflexivity).
  split; [exact Hbreak|]. split; [exact Hhigh|].
  destruct (foldLine_unfolds_to_line longLine Hbreak Hhigh)
    as (out & segs & Hout & Hjoin & Hsegs & _ & Hback).
  exists out, segs. repeat split; assumption.
Defined.

(** X18.  [foldLine] never cuts a surrogate pair.  On a well-formed
    line (every high surrogate followed by a low one) it returns, and
    the pieces it puts on the physical lines are well formed and make
    up the line. *)
Theorem foldLine_keeps_surrogate_pairs (line : jsstring) :
  pairedHigh line = true →
  ∃ out chunks,
    foldLine line = Some out ∧
    out = join CRLF (segmentsOf true chunks) ∧
    concat chunks = line ∧
    Forall (λ chunk, pairedHigh chunk = true) chunks.
Proof.
  intros Hpaired.
  destruct (foldLine_returns line (pairedHigh_noAdjacentHigh line Hpaired))
    as [out Hout].
  exists out. unfold foldLine in Hout.
  destruct (Nat.leb_spec (length line) MAX_LINE_LENGTH) as [Hshort|Hlong].
  - injection Hout as <-. exists [line]. rewrite foldLine_short by done.
    simpl. rewrite app_nil_r. repeat split. by constructor.
  - destruct (foldLoop _ [] line true) as [segs|] eqn:Hrun; [|done].
    injection Hout as <-.
    destruct (foldLoop_pairs _ _ _ _ Hrun Hpaired) as (chunks & -> & Hcat & Hc).
    exists chunks. split; [|done]. unfold foldLine.
    destruct (Nat.leb_spec (length line) MAX_LINE_LENGTH); [lia|].
    by rewrite Hrun.
Qed.

(** X18 applied: a line of forty emoji. *)
Lemma foldLine_keeps_surrogate_pairs_sample :
  pairedHigh pairedLine = true ∧
  ∃ out chunks,
    foldLine pairedLine = Some out ∧
    out = join CRLF (segmentsOf true chunks) ∧
    concat chunks = pairedLine ∧
    Forall (λ chunk, pairedHigh chunk = true) chunks.
Proof.
  assert (pairedHigh pairedLine = true) as Hpaired by (vm_compute; reflexivity).
  split; [exact Hpaired|].
  exact (foldLine_keeps_surrogate_pairs pairedLine Hpaired).
Defined.

(** ** The date range and the statistics *)

Section RangeStatistics.

Context `{Host}.
Implicit Types (events : list Event) (startDate endDate : option Date).

Lemma filterByDateRange_elem events startDate endDate event :
  event ∈ filterByDateRange events startDate endDate
  ↔ event ∈ events ∧ keptByRange startDate endDate event.
Proof.
  unfold filterByDateRange.
  rewrite list_elem_of_In, filter_In, <- list_elem_of_In.
  by rewrite keptByRange_test.
Qed.

Lemma filterByDateRange_dates events startDate endDate date :
  date ∈ datesOf (filterByDateRange events startDate endDate)
  ↔ date ∈ datesOf events ∧ withinBounds date startDate endDate.
Proof.
  rewrite !datesOf_elem. split.
  - intros (event & [Hin Hkept]%filterByDateRange_elem & Hdate). split.
    + by exists event.
    + destruct Hkept as [Hnone|(date' & Hdate' & Hwithin)]; congruence.
  - intros [(event & Hin & Hdate) Hwithin]. exists event. split; [|done].
    apply filterByDateRange_elem. split; [done|]. right. by exists date.
Qed.

Lemma filterByDateRange_length events startDate endDate :
  length (filterByDateRange events startDate endDate) ≤ length events.
Proof. apply List.filter_length_le. Qed.

Lemma dateRangeTest_open event : dateRangeTest None None event = true.
Proof. unfold dateRangeTest. by destruct (getEventDate event). Qed.

Lemma filter_filter_comm {A} (f g : A → bool) (l : list A) :
  List.filter f (List.filter g l) = List.filter g (List.filter f l).
Proof.
  induction l as [|x l IH]; [done|]. simpl.
  destruct (f x) eqn:Hf, (g x) eqn:Hg; simpl; rewrite ?Hf, ?Hg, ?IH; done.
Qed.

Lemma filter_filter_and {A} (f g : A → bool) (l : list A) :
  List.filter f (List.filter g l) = List.filter (λ x, g x && f x) l.
Proof.
  induction l as [|x l IH]; [done|]. simpl.
  destruct (g x) eqn:Hg; simpl; [|done]. destruct (f x); by rewrite IH.
Qed.

Lemma filter_filter_same {A} (f : A → bool) (l : list A) :
  List.filter f (List.filter f l) = List.filter f l.
Proof.
  induction l as [|x l IH]; [done|]. simpl.
  destruct (f x) eqn:Hf; simpl; rewrite ?Hf, ?IH; done.
Qed.

End RangeStatistics.

(** X19.  The statistics of the events [filterByDateRange] keeps stay
    within those of the calendar: no more events in all and in every
    year, and the earliest and the latest date are dates of events of
    the calendar that lie within the bounds. *)
Theorem filterByDateRange_statistics `{Host} (calendar : Calendar)
    (startDate endDate : option Date) :
  let filtered :=
    withEvents calendar (filterByDateRange (events calendar) startDate endDate) in
  totalEvents (getStatistics filtered) ≤ totalEvents (getStatistics calendar) ∧
  (∀ earliest, earliestDate (getStatistics filtered) = Some earliest →
     earliest ∈ datesOf (events calendar) ∧
     withinBounds earliest startDate endDate) ∧
  (∀ latest, latestDate (getStatistics filtered) = Some latest →
     latest ∈ datesOf (events calendar) ∧
     withinBounds latest startDate endDate) ∧
  (∀ year n, eventsByYear (getStatistics filtered) !! year = Some n →
     ∃ m, eventsByYear (getStatistics calendar) !! year = Some m ∧ n ≤ m).
Proof.
  intros filtered. unfold getStatistics.
  rewrite !foldl_countEvent_total. subst filtered. cbn [totalEvents events withEvents].
  split; [apply filterByDateRange_length|].
  rewrite foldl_countEvent_earliest, foldl_countEvent_latest.
  cbn [earliestDate latestDate].
  split; [|split].
  - intros earliest Hearliest.
    pose proof (foldl_earlierOf None
      (datesOf (filterByDateRange (events calendar) startDate endDate))) as He.
    rewrite Hearliest in He. destruct He as [[?|He] _]; [done|].
    by apply filterByDateRange_dates.
  - intros latest Hlatest.
    pose proof (foldl_laterOf None
      (datesOf (filterByDateRange (events calendar) startDate endDate))) as Hl.
    rewrite Hlatest in Hl. destruct Hl as [[?|Hl] _]; [done|].
    by apply filterByDateRange_dates.
  - intros year n. rewrite !foldl_countEvent_years. cbn [eventsByYear].
    rewrite !lookup_empty. unfold eventsOfYear, filterByDateRange.
    assert (length (List.filter (λ event, bool_decide (yearOf event = Year year))
                      (List.filter (dateRangeTest startDate endDate)
                                   (events calendar)))
            ≤ length (List.filter (λ event, bool_decide (yearOf event = Year year))
                        (events calendar))) as Hle.
    { induction (events calendar) as [|event evs IH]; [done|]. simpl.
      destruct (dateRangeTest startDate endDate event); simpl;
        destruct (bool_decide (yearOf event = Year year)); simpl; lia. }
    destruct (length (List.filter _ (List.filter _ _))) as [|k] eqn:Hk; [done|].
    intros [= <-].
    destruct (length (List.filter _ (events calendar))) as [|m]; [lia|].
    exists (0 + S m). split; [done|]. simpl. lia.
Qed.

(** X20.  Date ranges compose.  Without bounds [filterByDateRange]
    returns the events unchanged; filtering again with the same bounds
    changes nothing; two ranges can be applied in either order, and the
    start of one with the end of the other. *)
Theorem filterByDateRange_composes `{Host} (events : list Event)
    (startDate endDate startDate' endDate' : option Date) :
  filterByDateRange events None None = events ∧
  filterByDateRange (filterByDateRange events startDate endDate) startDate endDate
  = filterByDateRange events startDate endDate ∧
  filterByDateRange (filterByDateRange events startDate endDate)
                    startDate' endDate'
  = filterByDateRange (filterByDateRange events startDate' endDate')
                      startDate endDate ∧
  filterByDateRange (filterByDateRange events startDate endDate)
                    startDate' endDate'
  = filterByDateRange (filterByDateRange events startDate endDate')
                      startDate' endDate.
Proof.
  unfold filterByDateRange. split; [|split; [|split]].
  - apply filter_all, Forall_forall. intros event _. apply dateRangeTest_open.
  - apply filter_filter_same.
  - apply filter_filter_comm.
  - rewrite !filter_filter_and. apply List.filter_ext. intros event.
    unfold dateRangeTest. destruct (getEventDate event) as [date|]; [|done].
    by destruct (beforeStart date startDate), (afterEnd date endDate),
                (beforeStart date startDate'), (afterEnd date endDate').
Qed.

(** X21.  The chunks of [splitBySize] hold every event once.  When no
    line to be written has two adjacent high surrogates, [splitBySize]
    returns chunks made of groups that together are the events given:
    the event counts add up to the number of events, no chunk is empty,
    and an event that alone is beyond the limit is the only one of its
    chunk. *)
Theorem splitBySize_holds_every_event `{Host} (calendar : Calendar)
    (selected : list Event) (maxSizeBytes : Z) (cleanMode : bool) :
  Forall (λ l, noAdjacentHigh l = true) (headerLines calendar) →
  Forall (λ event, Forall (λ l, noAdjacentHigh l = true)
                          (emittedLines cleanMode event)) selected →
  ∃ chunks groups,
    splitBySize calendar selected maxSizeBytes cleanMode = Some chunks ∧
    Forall2 (λ group chunk,
               createChunkResult calendar group cleanMode = Some chunk)
            groups chunks ∧
    concat groups ≡ₚ selected ∧
    sum_list (eventCount <$> chunks) = length selected ∧
    Forall (λ chunk, 0 < eventCount chunk) chunks ∧
    (selected ≠ [] → chunks ≠ []) ∧
    (∀ group event, group ∈ groups → event ∈ group →
       (maxSizeBytes < Z.of_nat (getEventSize event))%Z → group = [event]).
Proof. apply splitBySize_chunks. Qed.

(** X21 applied: the sample calendar under a limit of 200, clean mode
    on. *)
Lemma splitBySize_holds_every_event_sample :
  Forall (λ l, noAdjacentHigh l = true) (headerLines (parse sampleCalendar)) ∧
  Forall (λ event, Forall (λ l, noAdjacentHigh l = true)
                          (@emittedLines plainHost true event))
         (events (parse sampleCalendar)) ∧
  ∃ chunks,
    @splitBySize plainHost (parse sampleCalendar)
      (events (parse sampleCalendar)) 200 true = Some chunks ∧
    sum_list (eventCount <$> chunks) = length (events (parse sampleCalendar)) ∧
    Forall (λ chunk, 0 < eventCount chunk) chunks.
Proof.
  assert (Forall (λ l, noAdjacentHigh l = true)
                 (headerLines (parse sampleCalendar))) as Hheader
    by (apply (bool_decide_unpack _); vm_compute; exact I).
  assert (Forall (λ event, Forall (λ l, noAdjacentHigh l = true)
                                  (@emittedLines plainHost true event))
                 (events (parse sampleCalendar))) as Hevents
    by (apply (bool_decide_unpack _); vm_compute; exact I).
  split; [exact Hheader|]. split; [exact Hevents|].
  destruct (@splitBySize_holds_every_event plainHost (parse sampleCalendar)
              (events (parse sampleCalendar)) 200 true Hheader Hevents)
    as (chunks & groups & Hsplit & _ & _ & Hsum & Hpos & _).
  exists chunks. split; [exact Hsplit|]. split; [exact Hsum | exact Hpos].
Defined.

(** ** Writing what was read from a written text *)

Section WriteAgain.

Context `{Host}.
Implicit Types (event : Event) (cleanMode : bool).

Lemma writeEvent_emittedLines cleanMode cleanMode' event event' :
  emittedLines cleanMode' event' = emittedLines cleanMode event →
  writeEvent cleanMode' event' = writeEvent cleanMode event.
Proof. unfold writeEvent. by intros ->. Qed.

Lemma mapM_writeEvent_Forall2 cleanMode cleanMode' (events' events : list Event) :
  Forall2 (λ event' event,
             emittedLines cleanMode' event' = emittedLines cleanMode event)
          events' events →
  mapM (writeEvent cleanMode') events' = mapM (writeEvent cleanMode) events.
Proof.
  induction 1 as [|event' event events' events Hlines _ IH]; [done|].
  cbn [mapM]. by rewrite (writeEvent_emittedLines _ _ _ _ Hlines), IH.
Qed.

Lemma writeHeader_headerSource calendar calendar' :
  headerLines calendar' = headerSource calendar →
  writeHeader calendar' = writeHeader calendar.
Proof.
  unfold writeHeader, headerSource. intros ->.
  by destruct (nonEmpty (headerLines calendar)) eqn:Hne; [rewrite Hne|].
Qed.

Lemma emittedLines_written icsContent text cleanMode mode
    (events' selected : list Event) :
  Forall2 (λ event' event,
             _rawLines event'
             = List.filter (λ l, negb cleanMode || isAllowedProperty l)
                           (_rawLines event))
          events' selected →
  Forall (λ event', event' ∈ events (parse text)) events' →
  Forall (λ event, event ∈ events (parse icsContent)) selected →
  Forall2 (λ event' event,
             emittedLines mode event'
             = emittedLines (cleanMode || mode) event)
          events' selected.
Proof.
  induction 1 as [|event' event events' selected Hlines _ IH];
    intros Hsel' Hsel; [constructor|].
  apply Forall_cons in Hsel' as [Hevent' Hsel'].
  apply Forall_cons in Hsel as [Hevent Hsel].
  constructor; [|by apply IH].
  rewrite (parse_emittedLines text), (parse_emittedLines icsContent) by done.
  rewrite Hlines, filter_filter_and. apply List.filter_ext. intros l.
  by destruct cleanMode, mode, (isAllowedProperty l).
Qed.

End WriteAgain.

(** X22.  Writing again changes nothing.  For a text without two
    adjacent high surrogates in a line and a selection of its events,
    the text [write] returns is reproduced when it is parsed and all
    its events are written in the same mode; written in another mode it
    gives what writing the selection gives, in clean mode if either of
    the two steps is. *)
Theorem write_parse_write `{Host} (icsContent : jsstring)
    (selected : list Event) (cleanMode cleanMode' : bool) :
  Forall (λ l, noAdjacentHigh l = true) (trimmedLines icsContent) →
  Forall (λ event, event ∈ events (parse icsContent)) selected →
  ∃ text,
    write (parse icsContent) selected cleanMode = Some text ∧
    write (parse text) (events (parse text)) cleanMode'
    = write (parse icsContent) selected (cleanMode || cleanMode') ∧
    write (parse text) (events (parse text)) cleanMode = Some text.
Proof.
  intros Hadj Hsel.
  destruct (write_reads_back icsContent selected cleanMode Hadj Hsel)
    as (text & Htext & Hheader & Hraw & _).
  exists text. split; [done|].
  assert (∀ mode, write (parse text) (events (parse text)) mode
                  = write (parse icsContent) selected (cleanMode || mode))
    as Hagain.
  { intros mode. unfold write.
    rewrite (writeHeader_headerSource _ _ Hheader).
    rewrite (mapM_writeEvent_Forall2 (cleanMode || mode) mode
               (events (parse text)) selected); [done|].
    apply list_eq_Forall2 in Hraw.
    rewrite Forall2_fmap_l, Forall2_fmap_r in Hraw.
    eapply emittedLines_written; [exact Hraw| |done].
    by apply Forall_forall. }
  split; [apply Hagain|]. by rewrite Hagain, orb_diag.
Qed.

(** X22 applied: the sample calendar, written plainly and then in
    clean mode. *)
Lemma write_parse_write_sample :
  Forall (λ l, noAdjacentHigh l = true) (trimmedLines sampleCalendar) ∧
  Forall (λ event, event ∈ events (parse sampleCalendar))
         (events (parse sampleCalendar)) ∧
  ∃ text,
    @write plainHost (parse sampleCalendar) (events (parse sampleCalendar)) false
    = Some text ∧
    @write plainHost (parse text) (events (parse text)) true
    = @write plainHost (parse sampleCalendar) (events (parse sampleCalendar))
             true ∧
    @write plainHost (parse text) (events (parse text)) false = Some text.
Proof.
  assert (Forall (λ l, noAdjacentHigh l = true) (trimmedLines sampleCalendar))
    as Hadj by (apply (bool_decide_unpack _); vm_compute; exact I).
  assert (Forall (λ event, event ∈ events (parse sampleCalendar))
                 (events (parse sampleCalendar))) as Hsel
    by (apply Forall_forall; intros event Hevent; exact Hevent).
  split; [exact Hadj|]. split; [exact Hsel|].
  exact (@write_parse_write plainHost sampleCalendar
           (events (parse sampleCalendar)) false true Hadj Hsel).
Defined.

(** ** The examples of the specification, run on the embedding *)

(** A line of 80 units is cut after 75; the rest follows a space. *)
Example foldLine_80 :
  foldLine (replicate 80 65%N)
  = Some (replicate 75 65%N ++ CRLF ++ SPACE :: replicate 5 65%N).
Proof. by vm_compute. Qed.

(** A surrogate pair is not cut apart: the cut moves back by one. *)
Example foldLine_pair :
  foldLine (replicate 74 65%N ++ [0xD83D; 0xDE00]%N ++ replicate 4 65%N)
  = Some (replicate 74 65%N ++ CRLF
          ++ SPACE :: [0xD83D; 0xDE00]%N ++ replicate 4 65%N).
Proof. by vm_compute. Qed.

(** Alarm suppression: no line of the alarm is among the raw lines. *)
Example parse_alarmCalendar :
  _rawLines <$> events (parse alarmCalendar) = [[lit "UID:e1"]].
Proof. by vm_compute. Qed.

(** Date-range boundaries: from 2023-01-01 to the end of 2023, both
    inclusive; the undated event stays. *)
Example filterByDateRange_2023 :
  @filterByDateRange plainHost (datedEvents [0; 1; 2; 3])
     (Some (DateUTC 2023 0 1 0 0 0)) (Some (DateUTC 2023 11 31 23 59 59))
  = datedEvents [0; 1; 3].
Proof. by vm_compute. Qed.

(** Year split: two events in 2023, one in 2024, the undated one under
    ["unknown"], nothing else. *)
Example splitByYear_datedCalendar :
  @splitByYear plainHost (datedEvents [0; 1; 2; 3]) !! Year 2023
  = Some (datedEvents [0; 1]) ∧
  @splitByYear plainHost (datedEvents [0; 1; 2; 3]) !! Year 2024
  = Some (datedEvents [2]) ∧
  @splitByYear plainHost (datedEvents [0; 1; 2; 3]) !! Unknown
  = Some (datedEvents [3]) ∧
  @splitByYear plainHost (datedEvents [0; 1; 2; 3]) !! Year 2022 = None.
Proof. repeat split; by vm_compute. Qed.

(** Clean-mode deny list: the attachment is a raw line, it is written
    without clean mode and left out with it. *)
Example write_attachment :
  lit "ATTACH;ENCODING=BASE64:AAAA"
    ∈ concat (_rawLines <$> events (parse plainCalendar)) ∧
  (∃ text,
     @write plainHost (parse plainCalendar) (events (parse plainCalendar)) false
     = Some text ∧
     lit "ATTACH;ENCODING=BASE64:AAAA" ∈ trimmedLines text) ∧
  (∃ text,
     @write plainHost (parse plainCalendar) (events (parse plainCalendar)) true
     = Some text ∧
     (lit "ATTACH;ENCODING=BASE64:AAAA" ∉ trimmedLines text)).
Proof.
  split; [apply (bool_decide_unpack _); by vm_compute|].
  split; eexists; (split; [by vm_compute|]);
    apply (bool_decide_unpack _); by vm_compute.
Qed.

(** Size split: with a limit of 100 units every event of the dated
    calendar is a chunk of its own, newest first, undated last. *)
Example splitBySize_datedCalendar :
  (λ chunks : list Chunk,
     (λ chunk, (eventCount chunk, startDate chunk)) <$> chunks)
    <$> @splitBySize plainHost (parse datedCalendar)
          (events (parse datedCalendar)) 100 true
  = Some [(1, Some (DateUTC 2024 0 1 0 0 0));
          (1, Some (DateUTC 2023 5 15 9 0 0));
          (1, Some (DateUTC 2023 0 1 0 0 0));
          (1, None)].
Proof. by vm_compute. Qed.

(** Year of a time value: the last millisecond of 2023 and the first of
    2024; a leap day. *)
Example YearFromTime_2024 :
  YearFromTime (DayFromYear 2024 * msPerDay - 1) = 2023%Z ∧
  YearFromTime (DayFromYear 2024 * msPerDay) = 2024%Z ∧
  YearFromTime (timeValue (DateUTC 2024 1 29 12 0 0)) = 2024%Z ∧
  YearFromTime (timeValue (DateUTC 1969 11 31 23 59 59)) = 1969%Z.
Proof. repeat split; by vm_compute. Qed.
